(** * Sports notifications: event detection, audience filtering, batched
    delivery and the notification engine.

    A shallow embedding of the TypeScript sources
      - models/Game.ts            (flat snapshot model)
      - models/Event.ts           (event kinds, priorities, identifiers)
      - models/UserPreferences.ts (shouldNotifyUser, createDefaultPreferences)
      - engine/eventDetector.ts   (detectCommonEvents and its six detectors)
      - services/fcm.ts           (sendBatchNotifications, sendEventNotification)
      - services/firestore.ts     (EventRepository)
      - engine/notificationEngine.ts (processEvents, getTargetUsers)

    Conventions of the embedding:
      - a JavaScript [number] holding a score or a period is an integer [Z];
      - an optional field [f?: T] is [option T]; JavaScript truthiness is
        written out at every use ([truthyNum], [truthyStr]);
      - a [Date] is its epoch value, and every [new Date()] of the detector
        reads the clock value handed to the detector; inside a metadata
        bag, where nothing converts a stored timestamp back, a time value
        says which of the two it is ([TimeValue]);
      - the effectful code (repository, gateway, engine) runs in a small
        state-and-exception monad over an explicit world. *)

From Stdlib Require Import ZArith String Ascii List Bool Lia DecimalString.
From stdpp Require Import gmap strings list.

Local Open Scope string_scope.
Local Open Scope list_scope.
Local Open Scope Z_scope.

(** ** models/Game.ts *)

Inductive GameStatus := SCHEDULED | LIVE | FINAL | POSTPONED | CANCELLED.

Inductive Sport := NBA | NFL | MLB | NHL | SOCCER.

#[global] Instance GameStatus_eq_dec : EqDecision GameStatus.
Proof. solve_decision. Defined.

#[global] Instance Sport_eq_dec : EqDecision Sport.
Proof. solve_decision. Defined.

Definition Date := Z.

Record Game := mkGame {
  g_id : string;
  g_sport : Sport;
  g_externalId : string;
  g_scheduledTime : Date;
  g_lastUpdated : Date;
  g_status : GameStatus;
  g_statusDetail : option string;
  g_homeTeam : string;
  g_homeAbbr : string;
  g_homeScore : Z;
  g_homeRecord : option string;
  g_awayTeam : string;
  g_awayAbbr : string;
  g_awayScore : Z;
  g_awayRecord : option string;
  g_period : option Z;
  g_clock : option string;
  g_isPlayoff : option bool;
  g_notificationsSent : option (list string)
}.

(** [Math.abs(game.homeScore - game.awayScore)] *)
Definition getPointDifferential (game : Game) : Z :=
  Z.abs (g_homeScore game - g_awayScore game).

Definition isGameLive (game : Game) : bool :=
  bool_decide (g_status game = LIVE).

Definition hasGameStarted (game : Game) : bool :=
  bool_decide (g_status game ≠ SCHEDULED) && bool_decide (g_status game ≠ POSTPONED).

(** ** models/Event.ts *)

Inductive EventType :=
  | GAME_START | GAME_END | GAME_POSTPONED | GAME_CANCELLED
  | CLOSE_GAME | BLOWOUT | COMEBACK
  | UPSET | RIVALRY_GAME | PLAYOFF_GAME
  | HALFTIME | FINAL_PERIOD | OVERTIME
  | CUSTOM.

#[global] Instance EventType_eq_dec : EqDecision EventType.
Proof. solve_decision. Defined.

(** The string value of each member of the string enum. *)
Definition eventTypeName (t : EventType) : string :=
  match t with
  | GAME_START => "GAME_START"
  | GAME_END => "GAME_END"
  | GAME_POSTPONED => "GAME_POSTPONED"
  | GAME_CANCELLED => "GAME_CANCELLED"
  | CLOSE_GAME => "CLOSE_GAME"
  | BLOWOUT => "BLOWOUT"
  | COMEBACK => "COMEBACK"
  | UPSET => "UPSET"
  | RIVALRY_GAME => "RIVALRY_GAME"
  | PLAYOFF_GAME => "PLAYOFF_GAME"
  | HALFTIME => "HALFTIME"
  | FINAL_PERIOD => "FINAL_PERIOD"
  | OVERTIME => "OVERTIME"
  | CUSTOM => "CUSTOM"
  end.

Inductive EventPriority := LOW | MEDIUM | HIGH | CRITICAL.

#[global] Instance EventPriority_eq_dec : EqDecision EventPriority.
Proof. solve_decision. Defined.

Definition priorityValue (p : EventPriority) : Z :=
  match p with LOW => 1 | MEDIUM => 2 | HIGH => 3 | CRITICAL => 4 end.

(** A time value inside a metadata bag: the JavaScript [Date] a detector
    puts there, or the Firestore [Timestamp] it is stored as. *)
Inductive TimeValue :=
  | JsDate (t : Date)
  | FsTimestamp (t : Date).

(** A nested map [{home, away}]. *)
Record ScoreMap := mkScoreMap {
  sm_home : option Z;
  sm_away : option Z
}.

(** [metadata?: Record<string, any>], with the fields the detectors write:
    [scheduledTime], [finalScore], [differential], [leadingTeam], [period]
    and [score]. *)
Record Metadata := mkMetadata {
  md_scheduledTime : option TimeValue;
  md_finalScore : option ScoreMap;
  md_differential : option Z;
  md_leadingTeam : option string;
  md_period : option Z;
  md_score : option ScoreMap
}.

(** The [metadata] bags the detectors build. *)

(** [{scheduledTime: newGame.scheduledTime}] *)
Definition MetaScheduled (scheduledTime : Date) : Metadata :=
  mkMetadata (Some (JsDate scheduledTime)) None None None None None.

(** [{finalScore: {home: homeScore, away: awayScore}}] *)
Definition MetaFinalScore (home away : Z) : Metadata :=
  mkMetadata None (Some (mkScoreMap (Some home) (Some away))) None None None None.

(** [{differential, leadingTeam: leadingTeamAbbr}] *)
Definition MetaBlowout (differential : Z) (leadingTeam : string) : Metadata :=
  mkMetadata None None (Some differential) (Some leadingTeam) None None.

(** [{differential, period: newGame.period}] *)
Definition MetaClose (differential period : Z) : Metadata :=
  mkMetadata None None (Some differential) None (Some period) None.

(** [{period: newGame.period, score: {home: ..., away: ...}}] *)
Definition MetaFinalPeriod (period home away : Z) : Metadata :=
  mkMetadata None None None None (Some period)
    (Some (mkScoreMap (Some home) (Some away))).

Record TargetAudience := mkAudience {
  ta_allUsers : option bool;
  ta_userIds : option (list string);
  ta_teams : option (list string);
  ta_tags : option (list string)
}.

Record Event := mkEvent {
  e_id : string;
  e_type : EventType;
  e_priority : EventPriority;
  e_gameId : string;
  e_sport : Sport;
  e_detectedAt : Date;
  e_occurredAt : option Date;
  e_title : string;
  e_message : string;
  e_notified : bool;
  e_notifiedAt : option Date;
  e_metadata : option Metadata;
  e_targetAudience : option TargetAudience
}.

(** Truthiness of a string: the empty string is falsy. *)
Definition truthyStr (s : string) : bool := negb (String.eqb s "").

(** Truthiness of an integer number: zero is falsy. *)
Definition truthyNum (n : Z) : bool := negb (n =? 0).

(** [parts = [gameId, eventType]; if (suffix) parts.push(suffix);
    return parts.join('_')] *)
Definition generateEventId (gameId : string) (eventType : EventType)
    (suffix : option string) : string :=
  let parts := [gameId; eventTypeName eventType] in
  let parts :=
    match suffix with
    | Some s => if truthyStr s then parts ++ [s] else parts
    | None => parts
    end in
  String.concat "_" parts.

Definition shouldNotify (event : Event) : bool :=
  negb (e_notified event) && (priorityValue MEDIUM <=? priorityValue (e_priority event)).

Module EVENT_THRESHOLDS.
Definition BLOWOUT_POINT_DIFFERENTIAL : Z := 20.
Definition CLOSE_GAME_POINT_DIFFERENTIAL : Z := 5.
Definition COMEBACK_POINT_DIFFERENTIAL : Z := 15.
End EVENT_THRESHOLDS.

(** ** engine/eventDetector.ts *)

(** Number-to-string conversion of a template literal. *)
Definition showNum (n : Z) : string := NilZero.string_of_int (Z.to_int n).

Definition teamsOf (newGame : Game) : option TargetAudience :=
  Some (mkAudience None None (Some [g_homeAbbr newGame; g_awayAbbr newGame]) None).

(** [oldGame?.status !== s] *)
Definition oldStatusIsNot (oldGame : option Game) (s : GameStatus) : bool :=
  match oldGame with
  | None => true
  | Some g => bool_decide (g_status g ≠ s)
  end.

(** [oldGame?.status === s] *)
Definition oldStatusIs (oldGame : option Game) (s : GameStatus) : bool :=
  match oldGame with
  | None => false
  | Some g => bool_decide (g_status g = s)
  end.

Definition detectGameStart (now : Date) (oldGame : option Game) (newGame : Game)
    : option Event :=
  let justStarted :=
    oldStatusIsNot oldGame LIVE && bool_decide (g_status newGame = LIVE) in
  if negb justStarted then None
  else Some {|
    e_id := generateEventId (g_id newGame) GAME_START None;
    e_type := GAME_START;
    e_priority := HIGH;
    e_gameId := g_id newGame;
    e_sport := g_sport newGame;
    e_detectedAt := now;
    e_occurredAt := Some now;
    e_title := "Game Started";
    e_message := g_awayAbbr newGame +:+ " @ " +:+ g_homeAbbr newGame +:+ " is now live!";
    e_notified := false;
    e_notifiedAt := None;
    e_metadata := Some (MetaScheduled (g_scheduledTime newGame));
    e_targetAudience := teamsOf newGame
  |}.

Definition detectGameEnd (now : Date) (oldGame : option Game) (newGame : Game)
    : option Event :=
  let justEnded :=
    oldStatusIs oldGame LIVE && bool_decide (g_status newGame = FINAL) in
  if negb justEnded then None
  else
    let homeScore := g_homeScore newGame in
    let awayScore := g_awayScore newGame in
    let message :=
      if homeScore >? awayScore then
        g_homeAbbr newGame +:+ " defeats " +:+ g_awayAbbr newGame +:+ " "
          +:+ showNum homeScore +:+ "-" +:+ showNum awayScore
      else if awayScore >? homeScore then
        g_awayAbbr newGame +:+ " defeats " +:+ g_homeAbbr newGame +:+ " "
          +:+ showNum awayScore +:+ "-" +:+ showNum homeScore
      else
        g_awayAbbr newGame +:+ " and " +:+ g_homeAbbr newGame +:+ " tie "
          +:+ showNum homeScore +:+ "-" +:+ showNum awayScore in
    Some {|
      e_id := generateEventId (g_id newGame) GAME_END None;
      e_type := GAME_END;
      e_priority := HIGH;
      e_gameId := g_id newGame;
      e_sport := g_sport newGame;
      e_detectedAt := now;
      e_occurredAt := Some now;
      e_title := "Final Score";
      e_message := message;
      e_notified := false;
      e_notifiedAt := None;
      e_metadata := Some (MetaFinalScore homeScore awayScore);
      e_targetAudience := teamsOf newGame
    |}.

Definition detectBlowout (now : Date) (oldGame : option Game) (newGame : Game)
    : option Event :=
  let differential := getPointDifferential newGame in
  if negb (truthyNum differential)
     || (differential <? EVENT_THRESHOLDS.BLOWOUT_POINT_DIFFERENTIAL)
  then None
  else
    (* oldDifferential = oldGame ? getPointDifferential(oldGame) : null *)
    let oldDifferential := option_map getPointDifferential oldGame in
    (* oldDifferential && oldDifferential >= threshold *)
    let wasAlreadyBlowout :=
      match oldDifferential with
      | None => false
      | Some d => truthyNum d && (d >=? EVENT_THRESHOLDS.BLOWOUT_POINT_DIFFERENTIAL)
      end in
    if wasAlreadyBlowout then None
    else
      let homeScore := g_homeScore newGame in
      let awayScore := g_awayScore newGame in
      let leadingTeamAbbr :=
        if homeScore >? awayScore then g_homeAbbr newGame else g_awayAbbr newGame in
      let trailingTeamAbbr :=
        if homeScore >? awayScore then g_awayAbbr newGame else g_homeAbbr newGame in
      Some {|
        e_id := generateEventId (g_id newGame) BLOWOUT None;
        e_type := BLOWOUT;
        e_priority := MEDIUM;
        e_gameId := g_id newGame;
        e_sport := g_sport newGame;
        e_detectedAt := now;
        e_occurredAt := None;
        e_title := "Blowout Alert";
        e_message := leadingTeamAbbr +:+ " is dominating " +:+ trailingTeamAbbr
                       +:+ " by " +:+ showNum differential +:+ " points";
        e_notified := false;
        e_notifiedAt := None;
        e_metadata := Some (MetaBlowout differential leadingTeamAbbr);
        e_targetAudience := teamsOf newGame
      |}.

(** [!newGame.period || newGame.period < 4] *)
Definition beforeFinalPeriod (period : option Z) : bool :=
  match period with
  | None => true
  | Some p => negb (truthyNum p) || (p <? 4)
  end.

Definition detectCloseGame (now : Date) (oldGame : option Game) (newGame : Game)
    : option Event :=
  let differential := getPointDifferential newGame in
  if negb (truthyNum differential)
     || (differential >? EVENT_THRESHOLDS.CLOSE_GAME_POINT_DIFFERENTIAL)
  then None
  else if beforeFinalPeriod (g_period newGame) then None
  else
    let oldDifferential := option_map getPointDifferential oldGame in
    (* oldDifferential !== null && oldDifferential <= threshold *)
    let wasAlreadyClose :=
      match oldDifferential with
      | None => false
      | Some d => d <=? EVENT_THRESHOLDS.CLOSE_GAME_POINT_DIFFERENTIAL
      end in
    if wasAlreadyClose then None
    else
      Some {|
        e_id := generateEventId (g_id newGame) CLOSE_GAME None;
        e_type := CLOSE_GAME;
        e_priority := HIGH;
        e_gameId := g_id newGame;
        e_sport := g_sport newGame;
        e_detectedAt := now;
        e_occurredAt := None;
        e_title := "Close Game!";
        e_message := g_awayAbbr newGame +:+ " @ " +:+ g_homeAbbr newGame
                       +:+ " is a nail-biter! Score within "
                       +:+ showNum differential +:+ " points";
        e_notified := false;
        e_notifiedAt := None;
        e_metadata :=
          Some (MetaClose differential (default 0 (g_period newGame)));
        e_targetAudience := teamsOf newGame
      |}.

Definition detectFinalPeriod (now : Date) (oldGame : option Game) (newGame : Game)
    : option Event :=
  match g_period newGame with
  | None => None
  | Some period =>
    if negb (truthyNum period) then None
    else
      let isInFinalPeriod := period =? 4 in
      (* oldGame?.period === 4 *)
      let wasInFinalPeriod :=
        match oldGame with
        | Some g => match g_period g with Some p => p =? 4 | None => false end
        | None => false
        end in
      let justEnteredFinalPeriod := isInFinalPeriod && negb wasInFinalPeriod in
      if negb justEnteredFinalPeriod then None
      else Some {|
        e_id := generateEventId (g_id newGame) FINAL_PERIOD None;
        e_type := FINAL_PERIOD;
        e_priority := MEDIUM;
        e_gameId := g_id newGame;
        e_sport := g_sport newGame;
        e_detectedAt := now;
        e_occurredAt := None;
        e_title := "Final Period";
        e_message := g_awayAbbr newGame +:+ " " +:+ showNum (g_awayScore newGame)
                       +:+ " @ " +:+ g_homeAbbr newGame +:+ " "
                       +:+ showNum (g_homeScore newGame) +:+ " - 4th quarter!";
        e_notified := false;
        e_notifiedAt := None;
        e_metadata :=
          Some (MetaFinalPeriod period (g_homeScore newGame) (g_awayScore newGame));
        e_targetAudience := teamsOf newGame
      |}
  end.

Definition detectStatusChange (now : Date) (oldGame : option Game) (newGame : Game)
    : option Event :=
  if bool_decide (g_status newGame = POSTPONED) && oldStatusIsNot oldGame POSTPONED
  then Some {|
    e_id := generateEventId (g_id newGame) GAME_POSTPONED None;
    e_type := GAME_POSTPONED;
    e_priority := MEDIUM;
    e_gameId := g_id newGame;
    e_sport := g_sport newGame;
    e_detectedAt := now;
    e_occurredAt := None;
    e_title := "Game Postponed";
    e_message := g_awayAbbr newGame +:+ " @ " +:+ g_homeAbbr newGame
                   +:+ " has been postponed";
    e_notified := false;
    e_notifiedAt := None;
    e_metadata := None;
    e_targetAudience := teamsOf newGame
  |}
  else if bool_decide (g_status newGame = CANCELLED) && oldStatusIsNot oldGame CANCELLED
  then Some {|
    e_id := generateEventId (g_id newGame) GAME_CANCELLED None;
    e_type := GAME_CANCELLED;
    e_priority := MEDIUM;
    e_gameId := g_id newGame;
    e_sport := g_sport newGame;
    e_detectedAt := now;
    e_occurredAt := None;
    e_title := "Game Cancelled";
    e_message := g_awayAbbr newGame +:+ " @ " +:+ g_homeAbbr newGame
                   +:+ " has been cancelled";
    e_notified := false;
    e_notifiedAt := None;
    e_metadata := None;
    e_targetAudience := teamsOf newGame
  |}
  else None.

(** [if (ev) events.push(ev)] *)
Definition pushIf (events : list Event) (ev : option Event) : list Event :=
  match ev with
  | Some e => events ++ [e]
  | None => events
  end.

Definition detectCommonEvents (now : Date) (oldGame : option Game) (newGame : Game)
    : list Event :=
  let events := [] in
  let events := pushIf events (detectGameStart now oldGame newGame) in
  let events := pushIf events (detectGameEnd now oldGame newGame) in
  let events :=
    if isGameLive newGame then
      let events := pushIf events (detectBlowout now oldGame newGame) in
      let events := pushIf events (detectCloseGame now oldGame newGame) in
      let events := pushIf events (detectFinalPeriod now oldGame newGame) in
      events
    else events in
  let events := pushIf events (detectStatusChange now oldGame newGame) in
  events.

(** ** models/UserPreferences.ts *)

Inductive Platform := ios | android.

Record SportPrefs := mkSportPrefs {
  sp_enabled : bool;
  sp_teams : option (list string);
  sp_favoriteTeam : option string;
  sp_rivalTeams : option (list string);
  sp_eventTypes : option (list EventType)
}.

Record QuietHours := mkQuietHours {
  qh_enabled : bool;
  qh_start : string;
  qh_end : string;
  qh_timezone : option string
}.

Record UserPreferences := mkPrefs {
  up_userId : string;
  up_fcmToken : string;
  up_platform : option Platform;
  up_appVersion : option string;
  up_lastActive : option Date;
  up_enabled : bool;
  up_sports : Sport -> option SportPrefs;
  up_eventTypePreferences : option (EventType -> option bool);
  up_quietHours : option QuietHours;
  up_isPremium : option bool;
  up_subscriptionExpiry : option Date;
  up_createdAt : Date;
  up_updatedAt : Date
}.

(** What [shouldNotifyUser] reads off [new Date()]: the local hour and
    minute of the process. *)
Record LocalTime := mkLocalTime {
  getHours : Z;
  getMinutes : Z
}.

Fixpoint repeatChar (n : nat) (c : ascii) : string :=
  match n with
  | O => EmptyString
  | S k => String c (repeatChar k c)
  end.

(** [s.padStart(targetLength, c)] for a one-character pad string. *)
Definition padStart (targetLength : nat) (c : ascii) (s : string) : string :=
  repeatChar (targetLength - String.length s) c +:+ s.

(** The [HH:mm] rendering of the current time. *)
Definition currentTimeOf (now : LocalTime) : string :=
  padStart 2 "0" (showNum (getHours now)) +:+ ":"
    +:+ padStart 2 "0" (showNum (getMinutes now)).

(** [arr.includes(x)] on an array of strings. *)
Definition includes (arr : list string) (x : string) : bool :=
  existsb (String.eqb x) arr.

(** [arr.includes(x)] where [x] may be [undefined]. *)
Definition includesOpt (arr : list string) (x : option string) : bool :=
  match x with
  | Some s => includes arr s
  | None => false
  end.

(** [x === s] where [x] may be [undefined]. *)
Definition strictEqOpt (x : option string) (s : string) : bool :=
  match x with
  | Some y => String.eqb y s
  | None => false
  end.

(** The quiet-hours block of [shouldNotifyUser]: [true] when the block
    executes [return false]. Strings compare code unit by code unit. *)
Definition inQuietHours (quietHours : option QuietHours) (now : LocalTime) : bool :=
  match quietHours with
  | None => false
  | Some qh =>
    if qh_enabled qh then
      let currentTime := currentTimeOf now in
      let start := qh_start qh in
      let end_ := qh_end qh in
      if String.ltb end_ start then
        String.leb start currentTime || String.leb currentTime end_
      else
        String.leb start currentTime && String.leb currentTime end_
    else false
  end.

(** The operands of [sportPrefs.favoriteTeam && sportPrefs.rivalTeams &&
    teamIds] when the conjunction is truthy: a non-empty favourite, a rival
    array and the team codes of the game. *)
Definition rivalryMode (sportPrefs : SportPrefs) (teamIds : option (list string))
    : option (string * list string * list string) :=
  match sp_favoriteTeam sportPrefs, sp_rivalTeams sportPrefs, teamIds with
  | Some favoriteTeam, Some rivalTeams, Some ids =>
    if truthyStr favoriteTeam then Some (favoriteTeam, rivalTeams, ids) else None
  | _, _, _ => None
  end.

Definition shouldNotifyUser (preferences : UserPreferences) (sport : Sport)
    (eventType : EventType) (teamIds : option (list string)) (now : LocalTime)
    : bool :=
  if negb (up_enabled preferences) then false
  else
    match up_sports preferences sport with
    | None => false
    | Some sportPrefs =>
      if negb (sp_enabled sportPrefs) then false
      else
        let teamCheckFails :=
          match rivalryMode sportPrefs teamIds with
          | Some (favoriteTeam, rivalTeams, ids) =>
            (* const [homeTeam, awayTeam] = teamIds *)
            let homeTeam := nth_error ids 0 in
            let awayTeam := nth_error ids 1 in
            let isFavoriteHome := strictEqOpt homeTeam favoriteTeam in
            let isFavoriteAway := strictEqOpt awayTeam favoriteTeam in
            let isRivalHome := includesOpt rivalTeams homeTeam in
            let isRivalAway := includesOpt rivalTeams awayTeam in
            let isRivalryGame :=
              (isFavoriteHome && isRivalAway) || (isFavoriteAway && isRivalHome) in
            negb isRivalryGame
          | None =>
            (* else if (teamIds && sportPrefs.teams) *)
            match teamIds, sp_teams sportPrefs with
            | Some ids, Some teams =>
              let hasTeamMatch := existsb (includes teams) ids in
              negb hasTeamMatch
            | _, _ => false
            end
          end in
        if teamCheckFails then false
        else if match sp_eventTypes sportPrefs with
                | Some eventTypes =>
                  negb (existsb (fun t => bool_decide (t = eventType)) eventTypes)
                | None => false
                end
        then false
        else if match up_eventTypePreferences preferences with
                | Some m => match m eventType with Some false => true | _ => false end
                | None => false
                end
        then false
        else if inQuietHours (up_quietHours preferences) now then false
        else true
    end.

(** ** A state-and-exception monad for the effectful services

    A computation reads and updates a state [S] and either returns a value
    or throws. State changes made before a throw persist, as in JavaScript. *)

Inductive Result (A : Type) :=
  | Ok (a : A)
  | Throw.
Arguments Ok {A} a.
Arguments Throw {A}.

Definition M (S A : Type) : Type := S -> Result A * S.

Definition ret {S A} (a : A) : M S A := fun s => (Ok a, s).

Definition throw {S A} : M S A := fun s => (Throw, s).

Definition bind {S A B} (m : M S A) (k : A -> M S B) : M S B :=
  fun s =>
    match m s with
    | (Ok a, s') => k a s'
    | (Throw, s') => (Throw, s')
    end.

(** [try { m } catch (error) { handler }] *)
Definition tryCatch {S A} (m : M S A) (handler : M S A) : M S A :=
  fun s =>
    match m s with
    | (Ok a, s') => (Ok a, s')
    | (Throw, s') => handler s'
    end.

Definition getState {S} : M S S := fun s => (Ok s, s).

Definition modifyState {S} (f : S -> S) : M S unit := fun s => (Ok tt, f s).

Declare Scope monad_scope.
Delimit Scope monad_scope with monad.
Notation "x <- m ;; k" := (bind m (fun x => k))
  (at level 100, m at next level, right associativity) : monad_scope.
Notation "m ;;; k" := (bind m (fun _ => k))
  (at level 100, right associativity) : monad_scope.

(** ** models/UserPreferences.ts: createDefaultPreferences *)

(** The names a module binds at run time. Interfaces are erased: of
    [models/Event.ts] remain the two enums, the two functions and the
    thresholds; [Sport] is an enum of [models/Game.ts]. *)
Definition eventModuleExports : list string :=
  ["EventType"; "EventPriority"; "generateEventId"; "shouldNotify";
   "EVENT_THRESHOLDS"].

Definition gameModuleExports : list string :=
  ["GameStatus"; "Sport"; "getPointDifferential"; "isGameLive";
   "hasGameStarted"].

(** [import {name} from module]: the binding is [undefined] when the
    module does not export the name. *)
Definition imported (exports : list string) (name : string) : bool :=
  existsb (String.eqb name) exports.

(** [Sport.NBA] where [Sport] was imported from a module with the given
    exports: reading a member of [undefined] throws a TypeError. *)
Definition sportMember (exports : list string) (member : Sport) : Result Sport :=
  if imported exports "Sport" then Ok member else Throw.

(** [import {EventType, Sport} from './Event'] and then
    [sports: {[Sport.NBA]: {...}}]: the computed key is evaluated while
    the object is built. *)
Definition createDefaultPreferences (now : Date) (userId fcmToken : string)
    (platform : option Platform) : Result UserPreferences :=
  match sportMember eventModuleExports NBA with
  | Throw => Throw
  | Ok key =>
    Ok {|
      up_userId := userId;
      up_fcmToken := fcmToken;
      up_platform := platform;
      up_appVersion := None;
      up_lastActive := None;
      up_enabled := true;
      up_sports := fun s =>
        if decide (s = key)
        then Some (mkSportPrefs true None None None
                     (Some [GAME_START; GAME_END; CLOSE_GAME; BLOWOUT; UPSET]))
        else None;
      up_eventTypePreferences := None;
      up_quietHours := None;
      up_isPremium := None;
      up_subscriptionExpiry := None;
      up_createdAt := now;
      up_updatedAt := now
    |}
  end.

(** ** Firestore's merge of nested maps *)

(** A [Date] is written as a [Timestamp]. *)
Definition storedTime (v : TimeValue) : TimeValue :=
  match v with
  | JsDate t => FsTimestamp t
  | FsTimestamp t => FsTimestamp t
  end.

(** One field under [{merge: true}]: the written value if there is one,
    the stored value otherwise. *)
Definition mergeField {A} (stored written : option A) : option A :=
  match written with
  | Some v => Some v
  | None => stored
  end.

Definition mergeScoreMap (stored written : option ScoreMap) : option ScoreMap :=
  match written with
  | None => stored
  | Some wr =>
    Some {|
      sm_home := mergeField (stored ≫= sm_home) (sm_home wr);
      sm_away := mergeField (stored ≫= sm_away) (sm_away wr)
    |}
  end.

Definition mergeMetadata (stored written : option Metadata) : option Metadata :=
  match written with
  | None => stored
  | Some wr =>
    Some {|
      md_scheduledTime :=
        mergeField (stored ≫= md_scheduledTime) (storedTime <$> md_scheduledTime wr);
      md_finalScore := mergeScoreMap (stored ≫= md_finalScore) (md_finalScore wr);
      md_differential := mergeField (stored ≫= md_differential) (md_differential wr);
      md_leadingTeam := mergeField (stored ≫= md_leadingTeam) (md_leadingTeam wr);
      md_period := mergeField (stored ≫= md_period) (md_period wr);
      md_score := mergeScoreMap (stored ≫= md_score) (md_score wr)
    |}
  end.

Definition mergeAudience (stored written : option TargetAudience)
    : option TargetAudience :=
  match written with
  | None => stored
  | Some wr =>
    Some {|
      ta_allUsers := mergeField (stored ≫= ta_allUsers) (ta_allUsers wr);
      ta_userIds := mergeField (stored ≫= ta_userIds) (ta_userIds wr);
      ta_teams := mergeField (stored ≫= ta_teams) (ta_teams wr);
      ta_tags := mergeField (stored ≫= ta_tags) (ta_tags wr)
    |}
  end.

(** An event as Firestore holds it when it is written to an identifier
    without a document: the dates inside [metadata] are timestamps. *)
Definition asStored (event : Event) : Event :=
  mkEvent (e_id event) (e_type event) (e_priority event) (e_gameId event)
    (e_sport event) (e_detectedAt event) (e_occurredAt event) (e_title event)
    (e_message event) (e_notified event) (e_notifiedAt event)
    (mergeMetadata None (e_metadata event)) (e_targetAudience event).

(** ** The world the services act on *)

(** One per-token answer of the gateway: [resp.success], [resp.error?.code]. *)
Record SendResponse := mkSendResponse {
  sr_success : bool;
  sr_errorCode : option string
}.

(** The answer of [sendEachForMulticast]. *)
Record BatchResponse := mkBatchResponse {
  br_successCount : Z;
  br_failureCount : Z;
  br_responses : list SendResponse
}.

Record NotificationPayload := mkPayload {
  np_title : string;
  np_body : string;
  np_imageUrl : option string;
  np_data : option (list (string * string))
}.

Inductive Urgency := high | normal.

Record NotificationOptions := mkOptions {
  no_priority : option Urgency;
  no_sound : option string;
  no_badge : option Z;
  no_contentAvailable : option bool
}.

(** The calls the engine and the services make, in the order they start. *)
Inductive Call :=
  | CGetEvent (eventId : string)
  | CSaveEvent (event : Event)
  | CMarkEventNotified (eventId : string)
  | CGetPreferences (userId : string)
  | CGetUsersByTeam (teamId : string)
  | CGetTargetUsers (event : Event)
  | CSendEventNotification (event : Event) (users : list UserPreferences)
  | CSendEachForMulticast (tokens : list string).

(** Everything outside the program: which remote calls fail, what the
    gateway answers, the stored subscriber documents and the clock. All are
    indexed by the count of interactions so far, so that the same call may
    behave differently each time it is made. *)
Record Env := mkEnv {
  faults : nat -> bool;
  gatewayReply : nat -> list string -> BatchResponse;
  userDocs : list UserPreferences;
  localTimeAt : nat -> LocalTime;
  timestampAt : nat -> Date
}.

Record World := mkWorld {
  w_events : gmap string Event;  (* the /events collection *)
  w_tick : nat;                  (* interactions so far *)
  w_calls : list Call            (* calls started so far, oldest first *)
}.

Definition tick (w : World) : World :=
  mkWorld (w_events w) (S (w_tick w)) (w_calls w).

Definition record (c : Call) : M World unit :=
  modifyState (fun w => mkWorld (w_events w) (w_tick w) (w_calls w ++ [c])).

Definition setEvents (f : gmap string Event -> gmap string Event) : M World unit :=
  modifyState (fun w => mkWorld (f (w_events w)) (w_tick w) (w_calls w)).

Section Services.
Variable env : Env.

Local Open Scope monad_scope.

(** A remote call: it consumes one interaction and throws when the
    environment makes it fail, before having any effect. *)
Definition remote {A} (body : M World A) : M World A :=
  fun w =>
    if faults env (w_tick w) then (Throw, tick w) else body (tick w).

(** [new Date()] and [Timestamp.now()] *)
Definition newLocalTime : M World LocalTime :=
  fun w => (Ok (localTimeAt env (w_tick w)), tick w).

Definition timestampNow : M World Date :=
  fun w => (Ok (timestampAt env (w_tick w)), tick w).

(** *** services/firestore.ts: EventRepository *)

(** [eventRef.set(eventData, {merge: true})]: a field present in the
    written object replaces the stored one, a field absent from it is
    kept; a nested map ([metadata], [targetAudience], and the score maps
    inside [metadata]) is merged field by field in the same way, an array
    is replaced as a whole, and a [Date] is stored as a [Timestamp].
    [occurredAt] and [notifiedAt] are always written (as [null] when
    absent). *)
Definition mergeEvent (stored : option Event) (event : Event) : Event := {|
  e_id := e_id event;
  e_type := e_type event;
  e_priority := e_priority event;
  e_gameId := e_gameId event;
  e_sport := e_sport event;
  e_detectedAt := e_detectedAt event;
  e_occurredAt := e_occurredAt event;
  e_title := e_title event;
  e_message := e_message event;
  e_notified := e_notified event;
  e_notifiedAt := e_notifiedAt event;
  e_metadata := mergeMetadata (stored ≫= e_metadata) (e_metadata event);
  e_targetAudience :=
    mergeAudience (stored ≫= e_targetAudience) (e_targetAudience event)
|}.

Definition saveEvent (event : Event) : M World unit :=
  record (CSaveEvent event) ;;;
  tryCatch
    (remote (setEvents (fun m => <[e_id event := mergeEvent (m !! e_id event) event]> m)))
    throw.

(** [{...data, detectedAt: data.detectedAt.toDate(), occurredAt: ...,
    notifiedAt: ...}]: the three top-level dates are converted back to
    dates; what is inside [metadata] is returned as it is stored. *)
Definition getEvent (eventId : string) : M World (option Event) :=
  record (CGetEvent eventId) ;;;
  tryCatch
    (remote (w <- getState ;; ret (w_events w !! eventId)))
    throw.

(** [eventRef.update({notified: true, notifiedAt: now})]; [update] fails
    on a document that does not exist. *)
Definition markEventNotified (eventId : string) : M World unit :=
  record (CMarkEventNotified eventId) ;;;
  tryCatch
    (now <- timestampNow ;;
     remote (w <- getState ;;
             match w_events w !! eventId with
             | None => throw
             | Some ev =>
               setEvents (fun m => <[eventId :=
                 mkEvent (e_id ev) (e_type ev) (e_priority ev) (e_gameId ev)
                   (e_sport ev) (e_detectedAt ev) (e_occurredAt ev) (e_title ev)
                   (e_message ev) true (Some now) (e_metadata ev)
                   (e_targetAudience ev)]> m)
             end))
    throw.

(** *** services/firestore.ts: UserPreferencesRepository *)

Definition allSports : list Sport := [NBA; NFL; MLB; NHL; SOCCER].

Definition getPreferences (userId : string) : M World (option UserPreferences) :=
  record (CGetPreferences userId) ;;;
  tryCatch
    (remote (ret (List.find (fun p => String.eqb (up_userId p) userId) (userDocs env))))
    throw.

(** [Object.values(prefs.sports).some(sp => sp?.teams?.includes(teamId))] *)
Definition followsTeam (prefs : UserPreferences) (teamId : string) : bool :=
  existsb
    (fun s =>
       match up_sports prefs s with
       | Some sp => match sp_teams sp with
                    | Some teams => includes teams teamId
                    | None => false
                    end
       | None => false
       end)
    allSports.

Definition getUsersByTeam (teamId : string) : M World (list UserPreferences) :=
  record (CGetUsersByTeam teamId) ;;;
  tryCatch
    (remote
       (let snapshot := List.filter up_enabled (userDocs env) in
        ret (List.filter (fun prefs => followsTeam prefs teamId) snapshot)))
    throw.
End Services.

(** ** services/fcm.ts *)

Record BatchResult := mkBatchResult {
  successCount : Z;
  failureCount : Z;
  invalidTokens : list (option string)  (* [None] is a pushed [undefined] *)
}.

Record SendResult := mkSendResult {
  sent_successCount : Z;
  sent_failureCount : Z
}.

Definition batchSize : nat := 500.

(** [arr.slice(i, j)] for [0 <= i <= j]. *)
Definition slice {A} (i j : nat) (arr : list A) : list A :=
  firstn (j - i) (skipn i arr).

(** [for (let i = 0; i < fcmTokens.length; i += batchSize)
      batches.push(fcmTokens.slice(i, i + batchSize))].
    The loop counter grows by [batchSize] each round, so [fuel] rounds are
    more than enough when [fuel] is the number of tokens. *)
Fixpoint batchLoop (fuel : nat) (fcmTokens : list string) (i : nat)
    : list (list string) :=
  match fuel with
  | O => []
  | S fuel' =>
    if (i <? length fcmTokens)%nat
    then slice i (i + batchSize) fcmTokens :: batchLoop fuel' fcmTokens (i + batchSize)
    else []
  end.

Definition makeBatches (fcmTokens : list string) : list (list string) :=
  batchLoop (length fcmTokens) fcmTokens 0.

Definition invalidCode (code : option string) : bool :=
  match code with
  | Some c => String.eqb c "messaging/invalid-registration-token"
              || String.eqb c "messaging/registration-token-not-registered"
  | None => false
  end.

(** [response.responses.forEach((resp, idx) => ...)] pushing [batch[idx]]. *)
Fixpoint collectInvalid (batch : list string) (responses : list SendResponse)
    (idx : nat) : list (option string) :=
  match responses with
  | [] => []
  | resp :: rest =>
    (if negb (sr_success resp) && invalidCode (sr_errorCode resp)
     then [nth_error batch idx] else [])
    ++ collectInvalid batch rest (S idx)
  end.

Section Fcm.
Variable env : Env.

Local Open Scope monad_scope.

(** [admin.messaging().sendEachForMulticast(message)] *)
Definition sendEachForMulticast (tokens : list string) : M World BatchResponse :=
  record (CSendEachForMulticast tokens) ;;;
  (fun w =>
     if faults env (w_tick w) then (Throw, tick w)
     else (Ok (gatewayReply env (w_tick w) tokens), tick w)).

(** [for (const batch of batches) { ... }] with its three accumulators. *)
Fixpoint sendBatches (batches : list (list string)) (totalSuccess totalFailure : Z)
    (invalid : list (option string)) : M World BatchResult :=
  match batches with
  | [] => ret (mkBatchResult totalSuccess totalFailure invalid)
  | batch :: rest =>
    response <- sendEachForMulticast batch ;;
    let totalSuccess := totalSuccess + br_successCount response in
    let totalFailure := totalFailure + br_failureCount response in
    let invalid :=
      if br_failureCount response >? 0
      then invalid ++ collectInvalid batch (br_responses response) 0
      else invalid in
    sendBatches rest totalSuccess totalFailure invalid
  end.

Definition sendBatchNotifications (fcmTokens : list string)
    (payload : NotificationPayload) (options : option NotificationOptions)
    : M World BatchResult :=
  tryCatch
    (if (length fcmTokens =? 0)%nat
     then ret (mkBatchResult 0 0 [])
     else
       let batches := makeBatches fcmTokens in
       sendBatches batches 0 0 [])
    throw.

Definition sendEventNotification (event : Event) (users : list UserPreferences)
    : M World SendResult :=
  record (CSendEventNotification event users) ;;;
  tryCatch
    (if (length users =? 0)%nat
     then ret (mkSendResult 0 0)
     else
       let fcmTokens := map up_fcmToken users in
       let payload := {|
         np_title := e_title event;
         np_body := e_message event;
         np_imageUrl := None;
         np_data := Some [("eventId", e_id event);
                          ("eventType", eventTypeName (e_type event));
                          ("gameId", e_gameId event);
                          ("sport", match e_sport event with
                                    | NBA => "NBA" | NFL => "NFL" | MLB => "MLB"
                                    | NHL => "NHL" | SOCCER => "SOCCER"
                                    end)]
       |} in
       let important := priorityValue (e_priority event) >=? priorityValue HIGH in
       let options := {|
         no_priority := Some (if important then high else normal);
         no_sound := if important then Some "default" else None;
         no_badge := None;
         no_contentAvailable := None
       |} in
       result <- sendBatchNotifications fcmTokens payload (Some options) ;;
       ret (mkSendResult (successCount result) (failureCount result)))
    throw.
End Fcm.

(** ** engine/notificationEngine.ts *)

(** [deduplicateUsers]: the first document of each [userId] is kept. *)
Fixpoint dedupLoop (users : list UserPreferences) (seen : gset string)
    (unique : list UserPreferences) : list UserPreferences :=
  match users with
  | [] => unique
  | user :: rest =>
    if decide (up_userId user ∈ seen)
    then dedupLoop rest seen unique
    else dedupLoop rest ({[up_userId user]} ∪ seen) (unique ++ [user])
  end.

Definition deduplicateUsers (users : list UserPreferences) : list UserPreferences :=
  dedupLoop users ∅ [].

(** The local variable [totalNotificationsSent] of [processEvents] lives
    next to the world while the loop runs. *)
Record Frame := mkFrame {
  world : World;
  totalNotificationsSent : Z
}.

Definition lift {A} (m : M World A) : M Frame A :=
  fun f =>
    match m (world f) with
    | (r, w') => (r, mkFrame w' (totalNotificationsSent f))
    end.

Section Engine.
Variable env : Env.

Local Open Scope monad_scope.

Fixpoint collectPreferences (userIds : list string) (users : list UserPreferences)
    : M World (list UserPreferences) :=
  match userIds with
  | [] => ret users
  | userId :: rest =>
    prefs <- getPreferences env userId ;;
    collectPreferences rest
      (match prefs with Some p => users ++ [p] | None => users end)
  end.

Fixpoint collectTeamUsers (teams : list string) (allUsers : list UserPreferences)
    : M World (list UserPreferences) :=
  match teams with
  | [] => ret allUsers
  | teamId :: rest =>
    teamUsers <- getUsersByTeam env teamId ;;
    collectTeamUsers rest (allUsers ++ teamUsers)
  end.

(** [uniqueUsers.filter(user => shouldNotifyUser(user, ...))]; every call
    of [shouldNotifyUser] reads the clock. *)
Fixpoint filterUsers (users : list UserPreferences) (sport : Sport)
    (eventType : EventType) (teams : option (list string))
    : M World (list UserPreferences) :=
  match users with
  | [] => ret []
  | user :: rest =>
    now <- newLocalTime env ;;
    kept <- filterUsers rest sport eventType teams ;;
    ret (if shouldNotifyUser user sport eventType teams now
         then user :: kept else kept)
  end.

Definition getTargetUsers (event : Event) : M World (list UserPreferences) :=
  record (CGetTargetUsers event) ;;;
  tryCatch
    (let audience := e_targetAudience event in
     if default false (audience ≫= ta_allUsers) then ret []
     else
       match audience ≫= ta_userIds with
       | Some (userId :: userIds) => collectPreferences (userId :: userIds) []
       | _ =>
         match audience ≫= ta_teams with
         | Some (teamId :: teams) =>
           allUsers <- collectTeamUsers (teamId :: teams) [] ;;
           let uniqueUsers := deduplicateUsers allUsers in
           filterUsers uniqueUsers (e_sport event) (e_type event)
             (audience ≫= ta_teams)
         | _ => ret []
         end
       end)
    throw.

(** The body of the [try] block of one loop round. [continue] leaves the
    round with the accumulator unchanged. *)
Definition processOne (event : Event) : M Frame unit :=
  existingEvent <- lift (getEvent env (e_id event)) ;;
  if default false (e_notified <$> existingEvent) then ret tt
  else
    lift (saveEvent env event) ;;;
    targetUsers <- lift (getTargetUsers event) ;;
    if (length targetUsers =? 0)%nat then ret tt
    else
      result <- lift (sendEventNotification env event targetUsers) ;;
      modifyState (fun f =>
        mkFrame (world f) (totalNotificationsSent f + sent_successCount result)) ;;;
      lift (markEventNotified env (e_id event)).

(** [for (const event of events) { try { ... } catch (error) { } }] *)
Fixpoint processLoop (events : list Event) : M Frame unit :=
  match events with
  | [] => ret tt
  | event :: rest =>
    tryCatch (processOne event) (ret tt) ;;;
    processLoop rest
  end.

Definition processEvents (events : list Event) : M World Z :=
  fun w =>
    if (length events =? 0)%nat then (Ok 0, w)
    else
      match processLoop events (mkFrame w 0) with
      | (Ok _, f) => (Ok (totalNotificationsSent f), world f)
      | (Throw, f) => (Throw, world f)
      end.

(** [processGameUpdate] with the default provider, whose [detectEvents]
    is [detectCommonEvents]. *)
Definition processGameUpdate (oldGame : option Game) (newGame : Game)
    : M World Z :=
  tryCatch
    (fun w =>
       let events := detectCommonEvents (timestampAt env (w_tick w)) oldGame newGame in
       if (length events =? 0)%nat then (Ok 0, w)
       else processEvents events w)
    throw.
End Engine.

(** ** Polling a game over time

    [pollSingleGame] hands the stored snapshot and the fetched one to the
    detector and then stores the fetched one; over a sequence of fetched
    snapshots the detector therefore sees each consecutive pair. *)
Fixpoint detectAlong (clock : nat -> Date) (k : nat) (previous : option Game)
    (snapshots : list Game) : list (list Event) :=
  match snapshots with
  | [] => []
  | current :: rest =>
    detectCommonEvents (clock k) previous current
      :: detectAlong clock (S k) (Some current) rest
  end.

(** The events of one kind in a detection result. *)
Definition eventsOfType (t : EventType) (events : list Event) : list Event :=
  filter (fun e => e_type e = t) events.

(** An event with its two timestamps blanked. *)
Definition eraseTimes (e : Event) : Event :=
  mkEvent (e_id e) (e_type e) (e_priority e) (e_gameId e) (e_sport e) 0
    (option_map (fun _ => 0) (e_occurredAt e)) (e_title e) (e_message e)
    (e_notified e) (e_notifiedAt e) (e_metadata e) (e_targetAudience e).

(** The previous differential, if any, was below the blowout threshold. *)
Definition previousBelowBlowout (previous : option Game) : Prop :=
  match previous with
  | None => True
  | Some p => Z.abs (g_homeScore p - g_awayScore p) < 20
  end.

(** There is no previous snapshot, or it was not live. *)
Definition previousNotLive (previous : option Game) : Prop :=
  match previous with
  | None => True
  | Some p => g_status p <> LIVE
  end.

(** The previous differential, if any, was above the close-game threshold. *)
Definition previousAboveClose (previous : option Game) : Prop :=
  match previous with
  | None => True
  | Some p => 5 < Z.abs (g_homeScore p - g_awayScore p)
  end.

(** ** Sample data *)

(** A Lakers (home) against Celtics (away) snapshot. *)
Definition sampleGame (status : GameStatus) (homeScore awayScore : Z)
    (period : option Z) : Game := {|
  g_id := "nba_0022600800";
  g_sport := NBA;
  g_externalId := "0022600800";
  g_scheduledTime := 0;
  g_lastUpdated := 0;
  g_status := status;
  g_statusDetail := None;
  g_homeTeam := "Los Angeles Lakers";
  g_homeAbbr := "LAL";
  g_homeScore := homeScore;
  g_homeRecord := None;
  g_awayTeam := "Boston Celtics";
  g_awayAbbr := "BOS";
  g_awayScore := awayScore;
  g_awayRecord := None;
  g_period := period;
  g_clock := None;
  g_isPlayoff := None;
  g_notificationsSent := None
|}.

(** An enabled iOS subscriber with the given NBA entry and quiet hours,
    and no other setting. *)
Definition subscriber (userId token : string) (nba : SportPrefs)
    (quietHours : option QuietHours) : UserPreferences :=
  mkPrefs userId token (Some ios) None None true
    (fun s => match s with NBA => Some nba | _ => None end)
    None quietHours None None 0 0.

(** Favourite LAL, rival BOS; the legacy list follows LAL and MIA. *)
Definition lakersFan : UserPreferences :=
  subscriber "u1" "token-u1"
    (mkSportPrefs true (Some ["LAL"; "MIA"]) (Some "LAL") (Some ["BOS"]) None)
    None.

(** No team filter, quiet from 22:00 to 08:00. *)
Definition nightSleeper : UserPreferences :=
  subscriber "u2" "token-u2"
    (mkSportPrefs true None None None None)
    (Some (mkQuietHours true "22:00" "08:00" None)).

(** ** Times of day *)

(** The same preferences with the quiet-hours entry removed. *)
Definition withoutQuietHours (p : UserPreferences) : UserPreferences :=
  mkPrefs (up_userId p) (up_fcmToken p) (up_platform p) (up_appVersion p)
    (up_lastActive p) (up_enabled p) (up_sports p) (up_eventTypePreferences p)
    None (up_isPremium p) (up_subscriptionExpiry p) (up_createdAt p)
    (up_updatedAt p).

(** The [HH:mm] string of an hour and a minute. *)
Definition hhmm (h m : Z) : string := currentTimeOf (mkLocalTime h m).

Definition minuteOfDay (h m : Z) : Z := 60 * h + m.

Definition validClock (h m : Z) : Prop := 0 <= h < 24 /\ 0 <= m < 60.

(** The window the code implements, on minutes of the day: closed at
    both ends. *)
Definition suppressedClosed (start end_ t : Z) : bool :=
  if start >? end_ then (t >=? start) || (t <=? end_)
  else (start <=? t) && (t <=? end_).

(** The half-open window [[start, end)] of the specification. *)
Definition suppressedHalfOpen (start end_ t : Z) : bool :=
  if start >? end_ then (t >=? start) || (t <? end_)
  else (start <=? t) && (t <? end_).

(** Two-digit rendering, [n.toString().padStart(2, '0')]. *)
Definition pad2 (n : Z) : string := padStart 2 "0" (showNum n).

Definition comparison_eqb (c1 c2 : comparison) : bool :=
  match c1, c2 with
  | Eq, Eq | Lt, Lt | Gt, Gt => true
  | _, _ => false
  end.

(** Exhaustive check that [pad2] has two characters and preserves order
    on 0..99. *)
Definition pad2_table_ok : bool :=
  forallb (fun i =>
    (String.length (pad2 (Z.of_nat i)) =? 2)%nat
    && forallb (fun j =>
         comparison_eqb (String.compare (pad2 (Z.of_nat i)) (pad2 (Z.of_nat j)))
                        (Z.of_nat i ?= Z.of_nat j))
       (seq 0 100))
    (seq 0 100).

(** ** The gateway's answers, batch by batch *)

(** The specification's side of the comparison with [invalidCode] and
    [collectInvalid]: what it means that the gateway reports an address as
    permanently invalid, written without the functions of the source.

    The typed failures that say so: the token is malformed, or it is no
    longer registered. Every other failure is transient or of another
    kind. *)
Definition permanentFailureCodes : list string :=
  ["messaging/invalid-registration-token";
   "messaging/registration-token-not-registered"].

(** The response reports its address as permanently invalid: it failed,
    with one of these codes. *)
Definition permanentlyInvalid (response : SendResponse) : bool :=
  negb (sr_success response)
  && match sr_errorCode response with
     | Some code => bool_decide (code ∈ permanentFailureCodes)
     | None => false
     end.

(** The addresses of a batch that the gateway's answer reports as
    permanently invalid, in the order of the batch. *)
Definition reportedInvalid (batch : list string) (response : BatchResponse)
    : list string :=
  map fst
    (List.filter (fun tr => permanentlyInvalid (snd tr))
       (combine batch (br_responses response))).

(** The contract of [sendEachForMulticast]: one response per token, and
    the two counters count the successful and the failed responses. *)
Definition wellFormedReply (batch : list string) (response : BatchResponse) : Prop :=
  length (br_responses response) = length batch
  /\ br_failureCount response
     = Z.of_nat (length (List.filter (fun r => negb (sr_success r)) (br_responses response)))
  /\ br_successCount response
     = Z.of_nat (length (List.filter sr_success (br_responses response))).

(** The batches paired with the answers the gateway gives when they are
    submitted one after the other from interaction [t] on. *)
Fixpoint repliesFrom (env : Env) (t : nat) (batches : list (list string))
    : list (list string * BatchResponse) :=
  match batches with
  | [] => []
  | batch :: rest => (batch, gatewayReply env t batch) :: repliesFrom env (S t) rest
  end.

Definition sumZ (l : list Z) : Z := fold_right Z.add 0 l.

(** ** Observing a run of the engine *)

(** A call that persists, resolves the audience of, dispatches or marks
    the event with identifier [eventId]. Reading the record is not one. *)
Definition concerns (eventId : string) (c : Call) : bool :=
  match c with
  | CSaveEvent e => String.eqb (e_id e) eventId
  | CGetTargetUsers e => String.eqb (e_id e) eventId
  | CSendEventNotification e _ => String.eqb (e_id e) eventId
  | CMarkEventNotified i => String.eqb i eventId
  | _ => false
  end.

(** A call that dispatches the event with identifier [eventId] or marks
    it notified. *)
Definition dispatchesOrMarks (eventId : string) (c : Call) : bool :=
  match c with
  | CSendEventNotification e _ => String.eqb (e_id e) eventId
  | CMarkEventNotified i => String.eqb i eventId
  | _ => false
  end.

(** From [w] to [w'] the stored record of [eventId] is unchanged and every
    call made in between leaves that identifier alone. *)
Definition undisturbed (eventId : string) (w w' : World) : Prop :=
  w_events w' !! eventId = w_events w !! eventId
  /\ exists new, w_calls w' = w_calls w ++ new
                 /\ Forall (fun c => concerns eventId c = false) new.

(** A computation that leaves [eventId] alone from every world. *)
Definition keeps {A} (eventId : string) (m : M World A) : Prop :=
  forall w, undisturbed eventId w (snd (m w)).

Definition keepsF {A} (eventId : string) (m : M Frame A) : Prop :=
  forall f, undisturbed eventId (world f) (world (snd (m f))).

(** The world after a call that used one interaction and changed nothing
    else. *)
Definition afterCalls (w : World) (ticks : nat) (calls : list Call) : World :=
  mkWorld (w_events w) (w_tick w + ticks) (w_calls w ++ calls).

(** The stored record of [eventId] says notified. *)
Definition storedNotified (w : World) (eventId : string) : bool :=
  default false (e_notified <$> (w_events w !! eventId)).

(** A gateway answer in which the address ["stale"] is unregistered and
    every other address succeeds. *)
Definition sampleReply (tokens : list string) : BatchResponse :=
  let responses :=
    map (fun t =>
           if String.eqb t "stale"
           then mkSendResponse false (Some "messaging/registration-token-not-registered")
           else mkSendResponse true None)
        tokens in
  mkBatchResponse
    (Z.of_nat (length (List.filter sr_success responses)))
    (Z.of_nat (length (List.filter (fun r => negb (sr_success r)) responses)))
    responses.

(** An environment in which exactly the interactions listed in [failing]
    fail. *)
Definition sampleEnv (failing : list nat) : Env := {|
  faults := fun n => existsb (Nat.eqb n) failing;
  gatewayReply := fun _ tokens => sampleReply tokens;
  userDocs := [lakersFan; nightSleeper];
  localTimeAt := fun _ => mkLocalTime 20 15;
  timestampAt := fun n => Z.of_nat n
|}.

Definition emptyWorld : World := mkWorld ∅ 0 [].

(** A gateway answer in which ["gone-a"] is malformed, ["gone-b"] is
    unregistered, ["flaky"] fails with a transient error, ["mute"] fails
    without an error code, and every other address succeeds. *)
Definition mixedReply (tokens : list string) : BatchResponse :=
  let responses :=
    map (fun t =>
           if String.eqb t "gone-a"
           then mkSendResponse false (Some "messaging/invalid-registration-token")
           else if String.eqb t "gone-b"
           then mkSendResponse false (Some "messaging/registration-token-not-registered")
           else if String.eqb t "flaky"
           then mkSendResponse false (Some "messaging/internal-error")
           else if String.eqb t "mute"
           then mkSendResponse false None
           else mkSendResponse true None)
        tokens in
  mkBatchResponse
    (Z.of_nat (length (List.filter sr_success responses)))
    (Z.of_nat (length (List.filter (fun r => negb (sr_success r)) responses)))
    responses.

(** An environment without failing calls whose gateway answers with
    [mixedReply]. *)
Definition mixedEnv : Env := {|
  faults := fun _ => false;
  gatewayReply := fun _ tokens => mixedReply tokens;
  userDocs := [];
  localTimeAt := fun _ => mkLocalTime 20 15;
  timestampAt := fun n => Z.of_nat n
|}.

(** 600 addresses: the first batch of 500 holds a malformed, a transient
    and a code-less failure, the second batch of 100 a transient failure
    and an unregistered address. *)
Definition audience600 : list string :=
  ["gone-a"; "flaky"; "mute"] ++ repeat "ok" 497
  ++ repeat "ok" 98 ++ ["flaky"; "gone-b"].

(** The start event of the sample game, as detected on SCHEDULED -> LIVE. *)
Definition sampleStart : Event :=
  default
    (mkEvent "" CUSTOM LOW "" NBA 0 None "" "" false None None None)
    (head (detectCommonEvents 0 (Some (sampleGame SCHEDULED 0 0 None))
             (sampleGame LIVE 0 0 (Some 1)))).

(** The blowout event of the sample game, as detected at 110-88. *)
Definition sampleBlowout : Event :=
  default
    (mkEvent "" CUSTOM LOW "" NBA 0 None "" "" false None None None)
    (head (detectCommonEvents 0 (Some (sampleGame LIVE 100 90 (Some 3)))
             (sampleGame LIVE 110 88 (Some 3)))).

(** A world whose store holds the sample start event, marked notified. *)
Definition notifiedWorld : World :=
  mkWorld
    {[ e_id sampleStart :=
         mkEvent (e_id sampleStart) GAME_START HIGH (e_gameId sampleStart) NBA 0
           (Some 0) (e_title sampleStart) (e_message sampleStart) true (Some 1)
           (e_metadata (asStored sampleStart)) (e_targetAudience sampleStart) ]}
    0 [].

(** What each detector can return. *)
Definition stamped (newGame : Game) (t : EventType) (p : EventPriority)
    (o : option Event) : Prop :=
  forall e, o = Some e ->
    e_type e = t /\ e_priority e = p /\ e_gameId e = g_id newGame
    /\ e_id e = generateEventId (g_id newGame) t None.

(** ** providers/NBAProvider.ts: detectEvents *)

(** [!oldGame || !oldGame.period || oldGame.period <= 4] *)
Definition notYetOvertime (oldGame : option Game) : bool :=
  match oldGame with
  | None => true
  | Some g =>
    match g_period g with
    | None => true
    | Some p => negb (truthyNum p) || (p <=? 4)
    end
  end.

(** The common events, followed by an OVERTIME event on entering a period
    beyond the fourth. *)
Definition nbaDetectEvents (now : Date) (oldGame : option Game) (newGame : Game)
    : list Event :=
  let events := detectCommonEvents now oldGame newGame in
  if match g_period newGame with
     | Some p => truthyNum p && (p >? 4)
     | None => false
     end
  then
    if notYetOvertime oldGame then
      events ++ [{|
        e_id := generateEventId (g_id newGame) OVERTIME None;
        e_type := OVERTIME;
        e_priority := HIGH;
        e_gameId := g_id newGame;
        e_sport := g_sport newGame;
        e_detectedAt := now;
        e_occurredAt := None;
        e_title := "Overtime!";
        e_message := g_awayAbbr newGame +:+ " @ " +:+ g_homeAbbr newGame
                       +:+ " is going to OT!";
        e_notified := false;
        e_notifiedAt := None;
        e_metadata := None;
        e_targetAudience := teamsOf newGame
      |}]
    else events
  else events.

(** ** What a freshly detected event looks like *)

Definition fresh (now : Date) (newGame : Game) (e : Event) : Prop :=
  e_notified e = false
  /\ e_notifiedAt e = None
  /\ e_detectedAt e = now
  /\ e_sport e = g_sport newGame
  /\ e_gameId e = g_id newGame
  /\ e_targetAudience e = teamsOf newGame
  /\ shouldNotify e = true.

(** The previous snapshot exists and was live. *)
Definition previousLive (previous : option Game) : Prop :=
  exists p, previous = Some p /\ g_status p = LIVE.

(** There is no previous snapshot, or its period was not the fourth. *)
Definition previousNotInFourth (previous : option Game) : Prop :=
  match previous with
  | None => True
  | Some p => g_period p <> Some 4
  end.

(** There is no previous snapshot, or its status was not [s]. *)
Definition previousStatusNot (s : GameStatus) (previous : option Game) : Prop :=
  match previous with
  | None => True
  | Some p => g_status p <> s
  end.

(** There is no previous snapshot, or it had no period, or its period was
    at most the fourth. *)
Definition previousInRegulation (previous : option Game) : Prop :=
  match previous with
  | None => True
  | Some p =>
    match g_period p with
    | None => True
    | Some q => q <= 4
    end
  end.

(** The characters of ["_" ++ eventType], the tail of every identifier. *)
Definition kindTail (t : EventType) : list ascii :=
  list_ascii_of_string ("_" +:+ eventTypeName t).

(** The allow-list test of [shouldNotifyUser]: [true] when the sport has
    no allow-list or the list holds the kind. *)
Definition kindAllowed (sp : SportPrefs) (eventType : EventType) : bool :=
  match sp_eventTypes sp with
  | Some kinds => existsb (fun t => bool_decide (t = eventType)) kinds
  | None => true
  end.

(** The global test of [shouldNotifyUser]: [true] when the global map says
    [false] for the kind. *)
Definition kindDenied (prefs : UserPreferences) (eventType : EventType) : bool :=
  match up_eventTypePreferences prefs with
  | Some m => match m eventType with Some false => true | _ => false end
  | None => false
  end.

(** ** More observations of a run *)

(** The dispatches among a list of calls: the event and the users handed
    to [sendEventNotification], in order. *)
Definition dispatchesOf (calls : list Call) : list (Event * list UserPreferences) :=
  flat_map
    (fun c =>
       match c with
       | CSendEventNotification e users => [(e, users)]
       | _ => []
       end)
    calls.

(** No remote call ever fails. *)
Definition noFaults (env : Env) : Prop := forall n, faults env n = false.

(** The record [markEventNotified] writes over a stored record. *)
Definition notifiedCopy (ev : Event) (now : Date) : Event :=
  mkEvent (e_id ev) (e_type ev) (e_priority ev) (e_gameId ev) (e_sport ev)
    (e_detectedAt ev) (e_occurredAt ev) (e_title ev) (e_message ev) true
    (Some now) (e_metadata ev) (e_targetAudience ev).

(** From [w] to [w'] the store is unchanged, the call log has only grown,
    and nothing was dispatched. *)
Definition silent (w w' : World) : Prop :=
  w_events w' = w_events w
  /\ exists new, w_calls w' = w_calls w ++ new /\ dispatchesOf new = [].

(** A computation whose effect from every world is in the relation [R]. *)
Definition respects {A} (R : World -> World -> Prop) (m : M World A) : Prop :=
  forall w, R w (snd (m w)).

(** A computation that returns from every world. *)
Definition succeeds {A} (m : M World A) : Prop :=
  forall w, exists a, fst (m w) = Ok a.

(** The audience of an event names nobody the engine can resolve: it asks
    for all users, or it has neither user identifiers nor teams. *)
Definition noAudience (event : Event) : Prop :=
  default false (e_targetAudience event ≫= ta_allUsers) = true
  \/ ((e_targetAudience event ≫= ta_userIds = None
       \/ e_targetAudience event ≫= ta_userIds = Some [])
      /\ (e_targetAudience event ≫= ta_teams = None
          \/ e_targetAudience event ≫= ta_teams = Some [])).

(** How one round of the engine's loop can end for [event], from world [w]
    to [w'] with the calls [new]: nothing recorded (the record said
    notified, or the lookup or the save failed); recorded only; recorded
    and dispatched but not marked, which takes a failing remote call; or
    recorded, dispatched and marked notified. *)
Inductive RoundOutcome (env : Env) (event : Event) (w w' : World)
    (new : list Call) : Prop :=
  | RoundIdle :
      w_events w' = w_events w ->
      dispatchesOf new = [] ->
      RoundOutcome env event w w' new
  | RoundRecorded :
      storedNotified w (e_id event) = false ->
      w_events w'
        = <[e_id event := mergeEvent (w_events w !! e_id event) event]> (w_events w) ->
      dispatchesOf new = [] ->
      RoundOutcome env event w w' new
  | RoundDispatched (users : list UserPreferences) :
      storedNotified w (e_id event) = false ->
      users <> [] ->
      w_events w'
        = <[e_id event := mergeEvent (w_events w !! e_id event) event]> (w_events w) ->
      dispatchesOf new = [(event, users)] ->
      ~ noFaults env ->
      RoundOutcome env event w w' new
  | RoundNotified (users : list UserPreferences) (now : Date) :
      storedNotified w (e_id event) = false ->
      users <> [] ->
      w_events w'
        = <[e_id event :=
              notifiedCopy (mergeEvent (w_events w !! e_id event) event) now]>
            (w_events w) ->
      dispatchesOf new = [(event, users)] ->
      RoundOutcome env event w w' new.

(** The identifiers of the events dispatched among [calls], oldest first. *)
Definition dispatchedIds (calls : list Call) : list string :=
  map (fun d => e_id (fst d)) (dispatchesOf calls).

(** A call of the bookkeeping kind: a lookup, a save or the resolution of
    an audience. *)
Definition bookkeeping (c : Call) : bool :=
  match c with
  | CGetEvent _ | CSaveEvent _ | CGetTargetUsers _ => true
  | _ => false
  end.

(** [prefs] follows one of [teams] through a legacy team list. *)
Definition followsAny (prefs : UserPreferences) (teams : list string) : bool :=
  existsb (followsTeam prefs) teams.

(** The document [getPreferences] finds for [userId]. *)
Definition preferencesOf (env : Env) (userId : string) : option UserPreferences :=
  List.find (fun p => String.eqb (up_userId p) userId) (userDocs env).

(** An event addressed to all users. *)
Definition sampleBroadcast : Event :=
  mkEvent "maintenance_CUSTOM" CUSTOM HIGH "maintenance" NBA 0 None
    "Service notice" "Scores may be delayed tonight" false None None
    (Some (mkAudience (Some true) None (Some ["LAL"]) None)).

(** The documents [getUsersByTeam] returns for [teamId]: the enabled ones
    whose legacy team list of some sport includes it. *)
Definition teamFollowers (env : Env) (teamId : string) : list UserPreferences :=
  List.filter (fun prefs => followsTeam prefs teamId)
    (List.filter up_enabled (userDocs env)).

(** The users that [shouldNotifyUser] keeps when the clock is read at
    interaction [k] for the first one, [k + 1] for the second, and so on. *)
Fixpoint keptAt (env : Env) (k : nat) (users : list UserPreferences)
    (sport : Sport) (eventType : EventType) (teams : option (list string))
    : list UserPreferences :=
  match users with
  | [] => []
  | user :: rest =>
    if shouldNotifyUser user sport eventType teams (localTimeAt env k)
    then user :: keptAt env (S k) rest sport eventType teams
    else keptAt env (S k) rest sport eventType teams
  end.

(** The audience of [event] is a non-empty list of teams: it does not ask
    for all users and names no user. *)
Definition teamAudience (event : Event) (teams : list string) : Prop :=
  default false (e_targetAudience event ≫= ta_allUsers) = false
  /\ (e_targetAudience event ≫= ta_userIds = None
      \/ e_targetAudience event ≫= ta_userIds = Some [])
  /\ e_targetAudience event ≫= ta_teams = Some teams
  /\ teams <> [].

(** The audience of [event] is a non-empty list of users. *)
Definition userAudience (event : Event) (userIds : list string) : Prop :=
  default false (e_targetAudience event ≫= ta_allUsers) = false
  /\ e_targetAudience event ≫= ta_userIds = Some userIds
  /\ userIds <> [].

(** A subscriber who has switched notifications off. *)
Definition optedOut : UserPreferences :=
  let base := subscriber "u3" "token-u3"
                (mkSportPrefs false (Some ["LAL"]) None None None) None in
  mkPrefs (up_userId base) (up_fcmToken base) (up_platform base)
    (up_appVersion base) (up_lastActive base) false (up_sports base)
    (up_eventTypePreferences base) (up_quietHours base) (up_isPremium base)
    (up_subscriptionExpiry base) (up_createdAt base) (up_updatedAt base).

(** The sample environment with the opted-out subscriber added. *)
Definition directEnv : Env :=
  mkEnv (faults (sampleEnv [])) (gatewayReply (sampleEnv []))
    [lakersFan; nightSleeper; optedOut] (localTimeAt (sampleEnv []))
    (timestampAt (sampleEnv [])).

(** An event addressed to two users by identifier. *)
Definition sampleDirect : Event :=
  mkEvent "promo_CUSTOM" CUSTOM LOW "promo" NBA 0 None
    "Playoff tickets" "Presale opens tomorrow" false None None
    (Some (mkAudience None (Some ["u3"; "nobody"; "u1"]) None None)).

(** The users a team audience resolves to when the clock is first read at
    interaction [k]. *)
Definition teamRecipients (env : Env) (k : nat) (event : Event)
    (teams : list string) : list UserPreferences :=
  keptAt env k (deduplicateUsers (flat_map (teamFollowers env) teams))
    (e_sport event) (e_type event) (Some teams).

(** The sample environment with only subscribers no team query finds: one
    without a team list and one who opted out. *)
Definition quietEnv : Env :=
  mkEnv (faults (sampleEnv [])) (gatewayReply (sampleEnv []))
    [nightSleeper; optedOut] (localTimeAt (sampleEnv []))
    (timestampAt (sampleEnv [])).

(** From the world [w0] at the start of a run to [w'], with the calls
    [new] made in between: records that said notified still do, no
    identifier was dispatched twice, and every identifier dispatched did
    not say notified at the start and says so now. *)
Definition onceOnly (w0 w' : World) (new : list Call) : Prop :=
  (forall i, storedNotified w0 i = true -> storedNotified w' i = true)
  /\ NoDup (dispatchedIds new)
  /\ (forall i, In i (dispatchedIds new) ->
        storedNotified w0 i = false /\ storedNotified w' i = true).

(** * Properties of the detector *)

Lemma generateEventId_plain gameId t :
  generateEventId gameId t None = gameId +:+ "_" +:+ eventTypeName t.
Proof. reflexivity. Qed.

Lemma eventTypeName_inj t1 t2 : eventTypeName t1 = eventTypeName t2 -> t1 = t2.
Proof. destruct t1, t2; simpl; intros H; try reflexivity; discriminate H. Qed.

Lemma append_cancel_l (p a b : string) : p +:+ a = p +:+ b -> a = b.
Proof.
  induction p as [|c p IH]; simpl; intros H; [exact H|].
  injection H as H. auto.
Qed.

Lemma generateEventId_inj gameId t1 t2 :
  generateEventId gameId t1 None = generateEventId gameId t2 None -> t1 = t2.
Proof.
  rewrite !generateEventId_plain. intros H.
  apply append_cancel_l in H. apply (append_cancel_l "_") in H.
  by apply eventTypeName_inj.
Qed.

Ltac detector_cases :=
  repeat match goal with
  | |- context [if ?b then _ else _] => destruct b
  | |- context [match ?o with Some _ => _ | None => _ end] => destruct o
  end; intros ? [=]; subst; simpl; auto.

Lemma detectGameStart_stamped now old new :
  stamped new GAME_START HIGH (detectGameStart now old new).
Proof. unfold stamped, detectGameStart. detector_cases. Qed.

Lemma detectGameEnd_stamped now old new :
  stamped new GAME_END HIGH (detectGameEnd now old new).
Proof. unfold stamped, detectGameEnd. cbv zeta. detector_cases. Qed.

Lemma detectBlowout_stamped now old new :
  stamped new BLOWOUT MEDIUM (detectBlowout now old new).
Proof. unfold stamped, detectBlowout. cbv zeta. detector_cases. Qed.

Lemma detectCloseGame_stamped now old new :
  stamped new CLOSE_GAME HIGH (detectCloseGame now old new).
Proof. unfold stamped, detectCloseGame. cbv zeta. detector_cases. Qed.

Lemma detectFinalPeriod_stamped now old new :
  stamped new FINAL_PERIOD MEDIUM (detectFinalPeriod now old new).
Proof. unfold stamped, detectFinalPeriod. cbv zeta. detector_cases. Qed.

Lemma detectStatusChange_stamped now old new :
  stamped new GAME_POSTPONED MEDIUM (detectStatusChange now old new)
  \/ stamped new GAME_CANCELLED MEDIUM (detectStatusChange now old new).
Proof.
  unfold stamped, detectStatusChange.
  destruct (bool_decide (g_status new = POSTPONED) && oldStatusIsNot old POSTPONED).
  - left. intros ? [=]; subst; simpl; auto.
  - right. destruct (_ && _); intros ? [=]; subst; simpl; auto.
Qed.

(** The result of [detectCommonEvents] is the concatenation, in a fixed
    order, of what the six detectors return. *)
Lemma detectCommonEvents_eq now old new :
  detectCommonEvents now old new =
    option_list (detectGameStart now old new)
    ++ option_list (detectGameEnd now old new)
    ++ (if isGameLive new
        then option_list (detectBlowout now old new)
             ++ option_list (detectCloseGame now old new)
             ++ option_list (detectFinalPeriod now old new)
        else [])
    ++ option_list (detectStatusChange now old new).
Proof.
  unfold detectCommonEvents.
  destruct (detectGameStart now old new), (detectGameEnd now old new),
    (isGameLive new), (detectBlowout now old new), (detectCloseGame now old new),
    (detectFinalPeriod now old new), (detectStatusChange now old new);
    reflexivity.
Qed.

Lemma eventsOfType_app t l1 l2 :
  eventsOfType t (l1 ++ l2) = eventsOfType t l1 ++ eventsOfType t l2.
Proof. apply filter_app. Qed.

Lemma eventsOfType_other new t p o t' :
  stamped new t p o -> t <> t' -> eventsOfType t' (option_list o) = [].
Proof.
  intros Hs Hne. destruct o as [e|]; [|reflexivity].
  destruct (Hs e eq_refl) as [Ht _]. simpl.
  unfold eventsOfType. rewrite filter_cons, filter_nil.
  destruct (decide (e_type e = t')); [congruence | reflexivity].
Qed.

Lemma eventsOfType_same new t p o :
  stamped new t p o -> eventsOfType t (option_list o) = option_list o.
Proof.
  intros Hs. destruct o as [e|]; [|reflexivity].
  destruct (Hs e eq_refl) as [Ht _]. simpl.
  unfold eventsOfType. rewrite filter_cons, filter_nil.
  destruct (decide (e_type e = t)); [reflexivity | congruence].
Qed.

Lemma eventsOfType_statusChange now old new t :
  t <> GAME_POSTPONED -> t <> GAME_CANCELLED ->
  eventsOfType t (option_list (detectStatusChange now old new)) = [].
Proof.
  intros H1 H2.
  destruct (detectStatusChange_stamped now old new) as [H|H];
    eapply eventsOfType_other; eauto.
Qed.

(** Only [detectGameStart] contributes start events. *)
Lemma gameStarts_detectCommonEvents now old new :
  eventsOfType GAME_START (detectCommonEvents now old new)
  = option_list (detectGameStart now old new).
Proof.
  rewrite detectCommonEvents_eq, !eventsOfType_app.
  rewrite (eventsOfType_same _ _ _ _ (detectGameStart_stamped now old new)).
  rewrite (eventsOfType_other _ _ _ _ GAME_START (detectGameEnd_stamped now old new))
    by discriminate.
  rewrite eventsOfType_statusChange by discriminate.
  destruct (isGameLive new); rewrite ?eventsOfType_app.
  - rewrite (eventsOfType_other _ _ _ _ GAME_START (detectBlowout_stamped now old new))
      by discriminate.
    rewrite (eventsOfType_other _ _ _ _ GAME_START (detectCloseGame_stamped now old new))
      by discriminate.
    rewrite (eventsOfType_other _ _ _ _ GAME_START (detectFinalPeriod_stamped now old new))
      by discriminate.
    by rewrite !app_nil_r.
  - by rewrite !app_nil_r.
Qed.

(** Only [detectBlowout] contributes blowout events, and only for a live game. *)
Lemma blowouts_detectCommonEvents now old new :
  eventsOfType BLOWOUT (detectCommonEvents now old new)
  = if isGameLive new then option_list (detectBlowout now old new) else [].
Proof.
  rewrite detectCommonEvents_eq, !eventsOfType_app.
  rewrite (eventsOfType_other _ _ _ _ BLOWOUT (detectGameStart_stamped now old new))
    by discriminate.
  rewrite (eventsOfType_other _ _ _ _ BLOWOUT (detectGameEnd_stamped now old new))
    by discriminate.
  rewrite eventsOfType_statusChange by discriminate.
  destruct (isGameLive new); rewrite ?eventsOfType_app.
  - rewrite (eventsOfType_same _ _ _ _ (detectBlowout_stamped now old new)).
    rewrite (eventsOfType_other _ _ _ _ BLOWOUT (detectCloseGame_stamped now old new))
      by discriminate.
    rewrite (eventsOfType_other _ _ _ _ BLOWOUT (detectFinalPeriod_stamped now old new))
      by discriminate.
    by rewrite !app_nil_r.
  - reflexivity.
Qed.

(** Only [detectCloseGame] contributes close-game events, and only for a
    live game. *)
Lemma closeGames_detectCommonEvents now old new :
  eventsOfType CLOSE_GAME (detectCommonEvents now old new)
  = if isGameLive new then option_list (detectCloseGame now old new) else [].
Proof.
  rewrite detectCommonEvents_eq, !eventsOfType_app.
  rewrite (eventsOfType_other _ _ _ _ CLOSE_GAME (detectGameStart_stamped now old new))
    by discriminate.
  rewrite (eventsOfType_other _ _ _ _ CLOSE_GAME (detectGameEnd_stamped now old new))
    by discriminate.
  rewrite eventsOfType_statusChange by discriminate.
  destruct (isGameLive new); rewrite ?eventsOfType_app.
  - rewrite (eventsOfType_other _ _ _ _ CLOSE_GAME (detectBlowout_stamped now old new))
      by discriminate.
    rewrite (eventsOfType_same _ _ _ _ (detectCloseGame_stamped now old new)).
    rewrite (eventsOfType_other _ _ _ _ CLOSE_GAME (detectFinalPeriod_stamped now old new))
      by discriminate.
    by rewrite !app_nil_r.
  - reflexivity.
Qed.

Lemma detectBlowout_fires now previous current :
  20 <= Z.abs (g_homeScore current - g_awayScore current) ->
  previousBelowBlowout previous ->
  exists e, detectBlowout now previous current = Some e.
Proof.
  intros Hcur Hprev. unfold detectBlowout, getPointDifferential, truthyNum,
    EVENT_THRESHOLDS.BLOWOUT_POINT_DIFFERENTIAL.
  set (d := Z.abs (g_homeScore current - g_awayScore current)) in *.
  replace (d =? 0) with false by (symmetry; apply Z.eqb_neq; lia).
  replace (d <? 20) with false by (symmetry; apply Z.ltb_ge; lia).
  simpl. destruct previous as [p|]; simpl in *.
  - replace (Z.abs (g_homeScore p - g_awayScore p) >=? 20) with false
      by (symmetry; rewrite Z.geb_leb; apply Z.leb_gt; lia).
    rewrite andb_false_r. eauto.
  - eauto.
Qed.

Lemma detectBlowout_silent now p current :
  20 <= Z.abs (g_homeScore p - g_awayScore p) ->
  detectBlowout now (Some p) current = None.
Proof.
  intros Hprev. unfold detectBlowout, getPointDifferential, truthyNum,
    EVENT_THRESHOLDS.BLOWOUT_POINT_DIFFERENTIAL.
  destruct (_ || _); [reflexivity|]. simpl.
  replace (Z.abs (g_homeScore p - g_awayScore p) =? 0) with false
    by (symmetry; apply Z.eqb_neq; lia).
  replace (Z.abs (g_homeScore p - g_awayScore p) >=? 20) with true
    by (symmetry; rewrite Z.geb_leb; apply Z.leb_le; lia).
  reflexivity.
Qed.

Lemma isGameLive_true g : g_status g = LIVE -> isGameLive g = true.
Proof. intros H. unfold isGameLive. by rewrite bool_decide_eq_true. Qed.

(** Over a run of live snapshots that all stay at or above the threshold
    and follow a snapshot that was already there, no blowout fires. *)
Lemma detectAlong_blowout_quiet clock k p snapshots :
  20 <= Z.abs (g_homeScore p - g_awayScore p) ->
  Forall (fun g => g_status g = LIVE
                   /\ 20 <= Z.abs (g_homeScore g - g_awayScore g)) snapshots ->
  map (fun evs => length (eventsOfType BLOWOUT evs))
      (detectAlong clock k (Some p) snapshots)
  = repeat 0%nat (length snapshots).
Proof.
  intros Hp Hall. revert k p Hp.
  induction Hall as [|g rest [Hlive Hg] _ IH]; intros k p Hp; [reflexivity|].
  simpl. rewrite blowouts_detectCommonEvents, (isGameLive_true _ Hlive).
  rewrite (detectBlowout_silent _ _ _ Hp). simpl. f_equal. by apply IH.
Qed.

(** C2. Blowout detection is edge-triggered. For a live current snapshot
    whose absolute differential is at least 20, [detectCommonEvents] yields
    exactly one blowout event (priority MEDIUM, identifier of the game and
    kind) when there is no previous snapshot or the previous differential
    was below 20, and none when the previous differential was already at
    least 20. Hence along a sequence of polled snapshots that stay live and
    at or above the threshold, exactly one blowout event is produced, at
    the first snapshot. *)
Theorem blowout_edge_triggered :
  forall (now : Date) (previous : option Game) (current : Game),
    g_status current = LIVE ->
    20 <= Z.abs (g_homeScore current - g_awayScore current) ->
    (previousBelowBlowout previous ->
       exists e, eventsOfType BLOWOUT (detectCommonEvents now previous current) = [e]
                 /\ e_priority e = MEDIUM
                 /\ e_id e = generateEventId (g_id current) BLOWOUT None)
    /\ (~ previousBelowBlowout previous ->
          eventsOfType BLOWOUT (detectCommonEvents now previous current) = [])
    /\ (forall (clock : nat -> Date) (later : list Game),
          previousBelowBlowout previous ->
          Forall (fun g => g_status g = LIVE
                           /\ 20 <= Z.abs (g_homeScore g - g_awayScore g)) later ->
          map (fun evs => length (eventsOfType BLOWOUT evs))
              (detectAlong clock 0 previous (current :: later))
          = 1%nat :: repeat 0%nat (length later)).
Proof.
  intros now previous current Hlive Hcur. split; [|split].
  - intros Hprev. rewrite blowouts_detectCommonEvents, (isGameLive_true _ Hlive).
    destruct (detectBlowout_fires now previous current Hcur Hprev) as [e He].
    exists e. rewrite He. split; [reflexivity|].
    destruct (detectBlowout_stamped now previous current e He) as (_ & Hp & _ & Hid).
    auto.
  - intros Hnot. rewrite blowouts_detectCommonEvents, (isGameLive_true _ Hlive).
    destruct previous as [p|]; [|exfalso; apply Hnot; exact I].
    simpl in Hnot. rewrite detectBlowout_silent by lia. reflexivity.
  - intros clock later Hprev Hlater. simpl.
    rewrite blowouts_detectCommonEvents, (isGameLive_true _ Hlive).
    destruct (detectBlowout_fires (clock 0%nat) previous current Hcur Hprev) as [e He].
    rewrite He. simpl. f_equal. by apply detectAlong_blowout_quiet.
Qed.

Lemma detectGameStart_fires now previous current :
  g_status current = LIVE -> previousNotLive previous ->
  exists e, detectGameStart now previous current = Some e.
Proof.
  intros Hcur Hprev. unfold detectGameStart.
  rewrite (bool_decide_eq_true_2 _ Hcur), andb_true_r.
  destruct previous as [p|]; simpl in *.
  - rewrite (bool_decide_eq_true_2 _ Hprev). simpl. eauto.
  - eauto.
Qed.

Lemma detectGameStart_silent now previous current :
  ~ (g_status current = LIVE /\ previousNotLive previous) ->
  detectGameStart now previous current = None.
Proof.
  intros Hnot. unfold detectGameStart.
  destruct (bool_decide_reflect (g_status current = LIVE)) as [Hcur|Hcur];
    [|by rewrite andb_false_r].
  destruct previous as [p|]; simpl.
  - destruct (bool_decide_reflect (g_status p <> LIVE)) as [Hp|Hp]; [|reflexivity].
    exfalso. apply Hnot. split; assumption.
  - exfalso. apply Hnot. split; [assumption | exact I].
Qed.

(** C6. [detectCommonEvents] yields a GAME_START event, with priority
    HIGH, exactly when the current snapshot is LIVE and the previous one is
    absent or not LIVE, and then exactly one. In particular
    SCHEDULED -> LIVE yields exactly one start event, and so does the first
    observation of a LIVE game. *)
Theorem game_start_exactly_on_transition :
  forall (now : Date) (previous : option Game) (current : Game),
    (g_status current = LIVE /\ previousNotLive previous ->
       exists e,
         eventsOfType GAME_START (detectCommonEvents now previous current) = [e]
         /\ e_priority e = HIGH
         /\ e_id e = generateEventId (g_id current) GAME_START None)
    /\ (~ (g_status current = LIVE /\ previousNotLive previous) ->
          eventsOfType GAME_START (detectCommonEvents now previous current) = [])
    /\ (forall p, previous = Some p -> g_status p = SCHEDULED ->
          g_status current = LIVE ->
          length (eventsOfType GAME_START (detectCommonEvents now previous current))
          = 1%nat)
    /\ (previous = None -> g_status current = LIVE ->
          length (eventsOfType GAME_START (detectCommonEvents now previous current))
          = 1%nat).
Proof.
  intros now previous current.
  assert (Hfire : g_status current = LIVE -> previousNotLive previous ->
            exists e,
              eventsOfType GAME_START (detectCommonEvents now previous current) = [e]
              /\ e_priority e = HIGH
              /\ e_id e = generateEventId (g_id current) GAME_START None).
  { intros Hcur Hprev. rewrite gameStarts_detectCommonEvents.
    destruct (detectGameStart_fires now previous current Hcur Hprev) as [e He].
    exists e. rewrite He. split; [reflexivity|].
    destruct (detectGameStart_stamped now previous current e He) as (_ & Hp & _ & Hid).
    auto. }
  repeat split.
  - intros [Hcur Hprev]. auto.
  - intros Hnot. rewrite gameStarts_detectCommonEvents.
    by rewrite detectGameStart_silent.
  - intros p -> Hp Hcur.
    destruct (Hfire Hcur) as (e & -> & _); [simpl; congruence | reflexivity].
  - intros -> Hcur.
    destruct (Hfire Hcur) as (e & -> & _); [exact I | reflexivity].
Qed.

(** Each detector returns the same event up to its timestamps whatever the
    clock reads. *)
Ltac clock_free :=
  repeat match goal with
  | |- context [if ?b then _ else _] => destruct b
  | |- context [match ?o with Some _ => _ | None => _ end] => destruct o
  end; reflexivity.

Lemma detectGameStart_clock now1 now2 old new :
  option_map eraseTimes (detectGameStart now1 old new)
  = option_map eraseTimes (detectGameStart now2 old new).
Proof. unfold detectGameStart. clock_free. Qed.

Lemma detectGameEnd_clock now1 now2 old new :
  option_map eraseTimes (detectGameEnd now1 old new)
  = option_map eraseTimes (detectGameEnd now2 old new).
Proof. unfold detectGameEnd. cbv zeta. clock_free. Qed.

Lemma detectBlowout_clock now1 now2 old new :
  option_map eraseTimes (detectBlowout now1 old new)
  = option_map eraseTimes (detectBlowout now2 old new).
Proof. unfold detectBlowout. cbv zeta. clock_free. Qed.

Lemma detectCloseGame_clock now1 now2 old new :
  option_map eraseTimes (detectCloseGame now1 old new)
  = option_map eraseTimes (detectCloseGame now2 old new).
Proof. unfold detectCloseGame. cbv zeta. clock_free. Qed.

Lemma detectFinalPeriod_clock now1 now2 old new :
  option_map eraseTimes (detectFinalPeriod now1 old new)
  = option_map eraseTimes (detectFinalPeriod now2 old new).
Proof. unfold detectFinalPeriod. cbv zeta. clock_free. Qed.

Lemma detectStatusChange_clock now1 now2 old new :
  option_map eraseTimes (detectStatusChange now1 old new)
  = option_map eraseTimes (detectStatusChange now2 old new).
Proof. unfold detectStatusChange. clock_free. Qed.

Lemma map_option_list {A B} (f : A -> B) (o : option A) :
  map f (option_list o) = option_list (option_map f o).
Proof. by destruct o. Qed.

Lemma detectCommonEvents_clock now1 now2 old new :
  map eraseTimes (detectCommonEvents now1 old new)
  = map eraseTimes (detectCommonEvents now2 old new).
Proof.
  rewrite !detectCommonEvents_eq.
  destruct (isGameLive new); rewrite !map_app, !map_option_list;
    rewrite (detectGameStart_clock now1 now2), (detectGameEnd_clock now1 now2),
      ?(detectBlowout_clock now1 now2), ?(detectCloseGame_clock now1 now2),
      ?(detectFinalPeriod_clock now1 now2), (detectStatusChange_clock now1 now2);
    reflexivity.
Qed.

(** Every detected event carries the identifier of its game and kind. *)
Lemma detectCommonEvents_ids now old new :
  Forall (fun e => e_id e = generateEventId (g_id new) (e_type e) None
                   /\ e_gameId e = g_id new)
         (detectCommonEvents now old new).
Proof.
  assert (Hst : forall t p o, stamped new t p o ->
            Forall (fun e => e_id e = generateEventId (g_id new) (e_type e) None
                             /\ e_gameId e = g_id new) (option_list o)).
  { intros t p [e|] Hs; simpl; [|constructor].
    destruct (Hs e eq_refl) as (Ht & _ & Hg & Hid).
    constructor; [|constructor]. by rewrite Ht. }
  rewrite detectCommonEvents_eq. repeat apply Forall_app_2.
  - eapply Hst, detectGameStart_stamped.
  - eapply Hst, detectGameEnd_stamped.
  - destruct (isGameLive new); [repeat apply Forall_app_2|constructor].
    + eapply Hst, detectBlowout_stamped.
    + eapply Hst, detectCloseGame_stamped.
    + eapply Hst, detectFinalPeriod_stamped.
  - destruct (detectStatusChange_stamped now old new); eapply Hst; eauto.
Qed.

(** C7. Detection is idempotent. For a fixed snapshot pair, two runs of
    [detectCommonEvents] (at any two clock readings) return the same
    events, timestamps aside: same kinds, same identifiers, same order;
    and every identifier is [generateEventId] of the game identifier and
    the event kind, which does not depend on the clock. *)
Theorem detection_idempotent :
  forall (now1 now2 : Date) (previous : option Game) (current : Game),
    map eraseTimes (detectCommonEvents now1 previous current)
    = map eraseTimes (detectCommonEvents now2 previous current)
    /\ map e_id (detectCommonEvents now1 previous current)
       = map e_id (detectCommonEvents now2 previous current)
    /\ map e_type (detectCommonEvents now1 previous current)
       = map e_type (detectCommonEvents now2 previous current)
    /\ Forall (fun e => e_id e = generateEventId (g_id current) (e_type e) None)
         (detectCommonEvents now1 previous current).
Proof.
  intros now1 now2 previous current.
  pose proof (detectCommonEvents_clock now1 now2 previous current) as H.
  repeat split.
  - exact H.
  - apply (f_equal (map e_id)) in H. rewrite !map_map in H. exact H.
  - apply (f_equal (map e_type)) in H. rewrite !map_map in H. exact H.
  - eapply Forall_impl; [apply detectCommonEvents_ids|]. by intros e [? _].
Qed.

(** The kinds a detection result can contain, in the order of the
    detectors; the last slot is a postponement or a cancellation. *)
Lemma detectCommonEvents_kinds now old new :
  exists last, (last = GAME_POSTPONED \/ last = GAME_CANCELLED)
    /\ map e_type (detectCommonEvents now old new)
       `sublist_of` [GAME_START; GAME_END; BLOWOUT; CLOSE_GAME; FINAL_PERIOD; last].
Proof.
  assert (Hst : forall t p o, stamped new t p o ->
            map e_type (option_list o) `sublist_of` [t]).
  { intros t p [e|] Hs; simpl; [|apply sublist_nil_l].
    destruct (Hs e eq_refl) as (-> & _). reflexivity. }
  destruct (detectStatusChange_stamped now old new) as [Hlast|Hlast];
    [exists GAME_POSTPONED | exists GAME_CANCELLED];
    (split; [auto|]);
    rewrite detectCommonEvents_eq, !map_app.
  all: change [GAME_START; GAME_END; BLOWOUT; CLOSE_GAME; FINAL_PERIOD; ?l]
         with ([GAME_START] ++ [GAME_END]
               ++ ([BLOWOUT] ++ [CLOSE_GAME] ++ [FINAL_PERIOD]) ++ [l]).
  all: repeat apply sublist_app;
    try (eapply Hst; first [ apply detectGameStart_stamped
                           | apply detectGameEnd_stamped
                           | exact Hlast ]).
  all: destruct (isGameLive new); [|apply sublist_nil_l].
  all: rewrite !map_app; repeat apply sublist_app; eapply Hst;
    first [ apply detectBlowout_stamped | apply detectCloseGame_stamped
          | apply detectFinalPeriod_stamped ].
Qed.

Lemma generateEventId_Inj gameId :
  Inj (=) (=) (fun t => generateEventId gameId t None).
Proof. intros t1 t2. apply generateEventId_inj. Qed.

(** C10. The list returned by [detectCommonEvents] holds at most one event
    of each kind, its identifiers are pairwise distinct, and each
    identifier is the game identifier joined with the kind, with no
    suffix. *)
Theorem detected_events_distinct :
  forall (now : Date) (previous : option Game) (current : Game),
    NoDup (map e_type (detectCommonEvents now previous current))
    /\ NoDup (map e_id (detectCommonEvents now previous current))
    /\ Forall (fun e => e_id e = g_id current +:+ "_" +:+ eventTypeName (e_type e))
         (detectCommonEvents now previous current)
    /\ (forall t, (length (eventsOfType t (detectCommonEvents now previous current))
                   <= 1)%nat).
Proof.
  intros now previous current.
  assert (Hkinds : NoDup (map e_type (detectCommonEvents now previous current))).
  { destruct (detectCommonEvents_kinds now previous current) as (last & Hlast & Hsub).
    eapply sublist_NoDup; [|exact Hsub].
    destruct Hlast as [-> | ->]; apply (bool_decide_unpack _); vm_compute; exact I. }
  pose proof (detectCommonEvents_ids now previous current) as Hids.
  repeat split.
  - exact Hkinds.
  - replace (map e_id (detectCommonEvents now previous current))
      with ((fun t => generateEventId (g_id current) t None)
              <$> map e_type (detectCommonEvents now previous current)).
    + by apply (@NoDup_fmap_2 _ _ _ (generateEventId_Inj (g_id current))).
    + clear Hkinds. induction Hids as [|e l [He _] _ IH]; [reflexivity|].
      simpl. f_equal; [by rewrite He | exact IH].
  - eapply Forall_impl; [exact Hids|]. intros e [-> _]. apply generateEventId_plain.
  - intros t. unfold eventsOfType.
    induction (detectCommonEvents now previous current) as [|e l IH]; [simpl; lia|].
    simpl in Hkinds. apply NoDup_cons in Hkinds as [Hnotin Hnd].
    apply Forall_cons in Hids as [_ Hids].
    rewrite filter_cons. destruct (decide (e_type e = t)) as [Heq|]; [|by apply IH].
    simpl. enough (filter (fun e0 => e_type e0 = t) l = []) as -> by (simpl; lia).
    clear IH Hids Hnd. induction l as [|e' l IHl]; [reflexivity|].
    rewrite filter_cons. destruct (decide (e_type e' = t)) as [Heq'|].
    + exfalso. apply Hnotin. simpl. rewrite Heq, <- Heq'. constructor.
    + apply IHl. intros Hin. apply Hnotin. simpl. by constructor.
Qed.

(** * Close games *)

Lemma detectCloseGame_fires now previous current p :
  1 <= Z.abs (g_homeScore current - g_awayScore current) <= 5 ->
  g_period current = Some p -> 4 <= p ->
  previousAboveClose previous ->
  exists e, detectCloseGame now previous current = Some e.
Proof.
  intros Hcur Hper Hp Hprev.
  unfold detectCloseGame, getPointDifferential, beforeFinalPeriod,
    EVENT_THRESHOLDS.CLOSE_GAME_POINT_DIFFERENTIAL.
  unfold truthyNum.
  set (d := Z.abs (g_homeScore current - g_awayScore current)) in *.
  replace (d =? 0) with false by (symmetry; apply Z.eqb_neq; lia).
  replace (d >? 5) with false by (symmetry; rewrite Z.gtb_ltb; apply Z.ltb_ge; lia).
  rewrite Hper.
  replace (p =? 0) with false by (symmetry; apply Z.eqb_neq; lia).
  replace (p <? 4) with false by (symmetry; apply Z.ltb_ge; lia).
  simpl. destruct previous as [q|]; simpl in *.
  - replace (Z.abs (g_homeScore q - g_awayScore q) <=? 5) with false
      by (symmetry; apply Z.leb_gt; lia).
    eauto.
  - eauto.
Qed.

(** The part of the close-game rule the code does implement: a live game
    in period 4 or later whose differential is between 1 and 5, after a
    previous differential (if any) above 5, yields exactly one close-game
    event, with priority HIGH. *)
Lemma close_game_fires_when_not_tied now previous current p :
  g_status current = LIVE ->
  1 <= Z.abs (g_homeScore current - g_awayScore current) <= 5 ->
  g_period current = Some p -> 4 <= p ->
  previousAboveClose previous ->
  exists e, eventsOfType CLOSE_GAME (detectCommonEvents now previous current) = [e]
            /\ e_priority e = HIGH.
Proof.
  intros Hlive Hcur Hper Hp Hprev.
  rewrite closeGames_detectCommonEvents, (isGameLive_true _ Hlive).
  destruct (detectCloseGame_fires now previous current p Hcur Hper Hp Hprev)
    as [e He].
  exists e. rewrite He. split; [reflexivity|].
  by destruct (detectCloseGame_stamped now previous current e He) as (_ & ? & _).
Qed.

(** A tied current snapshot never yields a close-game event: the test
    [!differential] treats the differential 0 as missing. *)
Lemma close_game_silent_when_tied now previous current :
  g_homeScore current = g_awayScore current ->
  eventsOfType CLOSE_GAME (detectCommonEvents now previous current) = [].
Proof.
  intros Htie. rewrite closeGames_detectCommonEvents.
  destruct (isGameLive current); [|reflexivity].
  unfold detectCloseGame, getPointDifferential.
  rewrite Htie, Z.sub_diag. reflexivity.
Qed.

(** C3 (the code at the failing input). The pair
    (LIVE, period 4, 100-90) -> (LIVE, period 4, 100-100) meets every
    condition of the close-game rule: live, differential 0 <= 5, final
    period, previous differential 10 > 5. The detector returns no
    close-game event for it. *)
Theorem close_game_missed_on_tie :
  let previous := sampleGame LIVE 100 90 (Some 4) in
  let current := sampleGame LIVE 100 100 (Some 4) in
  g_status current = LIVE
  /\ Z.abs (g_homeScore current - g_awayScore current) <= 5
  /\ g_period current = Some 4
  /\ previousAboveClose (Some previous)
  /\ detectCloseGame 0 (Some previous) current = None
  /\ eventsOfType CLOSE_GAME (detectCommonEvents 0 (Some previous) current) = [].
Proof. vm_compute. repeat split; congruence. Qed.

(** * Quiet hours *)

Lemma pad2_table : pad2_table_ok = true.
Proof. vm_compute. reflexivity. Qed.

Lemma comparison_eqb_eq c1 c2 : comparison_eqb c1 c2 = true -> c1 = c2.
Proof. destruct c1, c2; simpl; congruence. Qed.

Lemma pad2_spec a b :
  0 <= a < 100 -> 0 <= b < 100 ->
  String.length (pad2 a) = 2%nat
  /\ String.compare (pad2 a) (pad2 b) = (a ?= b).
Proof.
  intros Ha Hb. pose proof pad2_table as Htab. unfold pad2_table_ok in Htab.
  rewrite forallb_forall in Htab.
  specialize (Htab (Z.to_nat a)).
  rewrite Z2Nat.id in Htab by lia.
  destruct (andb_prop _ _ (Htab ltac:(apply in_seq; lia))) as [Hlen Hcmp].
  split; [by apply Nat.eqb_eq|].
  rewrite forallb_forall in Hcmp.
  specialize (Hcmp (Z.to_nat b) ltac:(apply in_seq; lia)).
  rewrite Z2Nat.id in Hcmp by lia. by apply comparison_eqb_eq.
Qed.

(** Comparison of concatenations whose heads have the same length is
    lexicographic. *)
Lemma compare_append_same_length s1 s2 t1 t2 :
  String.length s1 = String.length s2 ->
  String.compare (s1 +:+ t1) (s2 +:+ t2)
  = match String.compare s1 s2 with
    | Eq => String.compare t1 t2
    | c => c
    end.
Proof.
  revert s2. induction s1 as [|c1 s1 IH]; intros [|c2 s2] Hlen;
    simpl in *; try discriminate; [reflexivity|].
  destruct (Ascii.compare c1 c2); [|reflexivity..].
  apply IH. congruence.
Qed.

Lemma compare_cons_same c s t :
  String.compare (String c s) (String c t) = String.compare s t.
Proof.
  simpl. pose proof (Ascii.compare_antisym c c) as H.
  destruct (Ascii.compare c c); simpl in H; [reflexivity | discriminate..].
Qed.

Lemma hhmm_unfold h m : hhmm h m = pad2 h +:+ String ":" (pad2 m).
Proof. reflexivity. Qed.

Lemma hhmm_compare h m h' m' :
  validClock h m -> validClock h' m' ->
  String.compare (hhmm h m) (hhmm h' m') = (minuteOfDay h m ?= minuteOfDay h' m').
Proof.
  intros [Hh Hm] [Hh' Hm']. rewrite !hhmm_unfold. unfold minuteOfDay.
  destruct (pad2_spec h h' ltac:(lia) ltac:(lia)) as [Hlen Hc].
  destruct (pad2_spec h' h ltac:(lia) ltac:(lia)) as [Hlen' _].
  destruct (pad2_spec m m' ltac:(lia) ltac:(lia)) as [_ Hcm].
  rewrite compare_append_same_length by congruence.
  rewrite Hc, compare_cons_same, Hcm.
  destruct (Z.compare_spec h h') as [->|Hlt|Hgt].
  - destruct (Z.compare_spec m m') as [->|?|?]; symmetry.
    + apply Z.compare_refl.
    + apply Z.compare_lt_iff. lia.
    + apply Z.compare_gt_iff. lia.
  - symmetry. apply Z.compare_lt_iff. lia.
  - symmetry. apply Z.compare_gt_iff. lia.
Qed.

Lemma hhmm_leb h m h' m' :
  validClock h m -> validClock h' m' ->
  String.leb (hhmm h m) (hhmm h' m') = (minuteOfDay h m <=? minuteOfDay h' m').
Proof.
  intros H H'. unfold String.leb, Z.leb. by rewrite hhmm_compare.
Qed.

Lemma hhmm_ltb h m h' m' :
  validClock h m -> validClock h' m' ->
  String.ltb (hhmm h m) (hhmm h' m') = (minuteOfDay h m <? minuteOfDay h' m').
Proof.
  intros H H'. unfold String.ltb, Z.ltb. by rewrite hhmm_compare.
Qed.

(** The quiet-hours block on well-formed [HH:mm] strings, in minutes. *)
Lemma inQuietHours_minutes qh hs ms he me now :
  validClock hs ms -> validClock he me ->
  validClock (getHours now) (getMinutes now) ->
  qh_enabled qh = true -> qh_start qh = hhmm hs ms -> qh_end qh = hhmm he me ->
  inQuietHours (Some qh) now
  = suppressedClosed (minuteOfDay hs ms) (minuteOfDay he me)
      (minuteOfDay (getHours now) (getMinutes now)).
Proof.
  intros Hs He Hn Hen Hstart Hend. unfold inQuietHours, suppressedClosed.
  rewrite Hen, Hstart, Hend.
  replace (currentTimeOf now) with (hhmm (getHours now) (getMinutes now))
    by (by destruct now).
  rewrite hhmm_ltb, !hhmm_leb by assumption.
  rewrite Z.gtb_ltb, Z.geb_leb. reflexivity.
Qed.

(** Quiet hours are the last check: the verdict is the verdict without
    quiet hours, unless the quiet-hours block rejects. *)
Lemma shouldNotifyUser_quiet_last prefs sport eventType teamIds now :
  shouldNotifyUser prefs sport eventType teamIds now
  = shouldNotifyUser (withoutQuietHours prefs) sport eventType teamIds now
    && negb (inQuietHours (up_quietHours prefs) now).
Proof.
  unfold shouldNotifyUser, withoutQuietHours. simpl.
  destruct (negb (up_enabled prefs)); [reflexivity|].
  destruct (up_sports prefs sport) as [sp|]; [|reflexivity].
  destruct (negb (sp_enabled sp)); [reflexivity|].
  repeat match goal with
  | |- context [if ?b then false else _] =>
    lazymatch b with
    | inQuietHours _ _ => fail
    | _ => destruct b; [reflexivity|]
    end
  end.
  by destruct (inQuietHours (up_quietHours prefs) now).
Qed.

(** C4 as the code has it. With quiet hours enabled and [start], [end]
    well-formed [HH:mm] strings, a notification that would otherwise be
    sent is suppressed exactly when the time of day t satisfies
    t >= start or t <= end for an overnight window (start > end), and
    start <= t <= end otherwise: the window is closed at [end]. For
    22:00-08:00, the times 23:30, 07:00 and 08:00 are suppressed and 12:00
    is not. *)
Theorem quiet_hours_closed_window :
  (forall (prefs : UserPreferences) (sport : Sport) (eventType : EventType)
          (teamIds : option (list string)) (qh : QuietHours)
          (hs ms he me : Z) (now : LocalTime),
     validClock hs ms -> validClock he me ->
     validClock (getHours now) (getMinutes now) ->
     up_quietHours prefs = Some qh ->
     qh_enabled qh = true -> qh_start qh = hhmm hs ms -> qh_end qh = hhmm he me ->
     let suppressed :=
       suppressedClosed (minuteOfDay hs ms) (minuteOfDay he me)
         (minuteOfDay (getHours now) (getMinutes now)) in
     inQuietHours (Some qh) now = suppressed
     /\ shouldNotifyUser prefs sport eventType teamIds now
        = shouldNotifyUser (withoutQuietHours prefs) sport eventType teamIds now
          && negb suppressed)
  /\ (let teams := Some ["LAL"; "BOS"] in
      let verdict h m :=
        (shouldNotifyUser (withoutQuietHours nightSleeper) NBA GAME_START teams
           (mkLocalTime h m),
         shouldNotifyUser nightSleeper NBA GAME_START teams (mkLocalTime h m)) in
      verdict 23 30 = (true, false)
      /\ verdict 7 0 = (true, false)
      /\ verdict 8 0 = (true, false)
      /\ verdict 12 0 = (true, true)).
Proof.
  split.
  - intros prefs sport eventType teamIds qh hs ms he me now Hs He Hn Hq Hen Hst Hend.
    simpl. split.
    + by apply inQuietHours_minutes.
    + rewrite shouldNotifyUser_quiet_last, Hq. f_equal. f_equal.
      by apply inQuietHours_minutes.
  - vm_compute. repeat split.
Qed.

(** The general statement of C4 at a concrete subscriber and time. *)
Lemma quiet_hours_closed_window_witness :
  validClock 22 0 /\ validClock 8 0 /\ validClock 23 30
  /\ shouldNotifyUser nightSleeper NBA GAME_START (Some ["LAL"; "BOS"])
       (mkLocalTime 23 30)
     = shouldNotifyUser (withoutQuietHours nightSleeper) NBA GAME_START
         (Some ["LAL"; "BOS"]) (mkLocalTime 23 30)
       && negb (suppressedClosed (minuteOfDay 22 0) (minuteOfDay 8 0)
                  (minuteOfDay 23 30)).
Proof.
  assert (H1 : validClock 22 0) by (unfold validClock; lia).
  assert (H2 : validClock 8 0) by (unfold validClock; lia).
  assert (H3 : validClock 23 30) by (unfold validClock; lia).
  split; [exact H1|]. split; [exact H2|]. split; [exact H3|].
  exact (proj2 (proj1 quiet_hours_closed_window nightSleeper NBA GAME_START
                  (Some ["LAL"; "BOS"]) (mkQuietHours true "22:00" "08:00" None)
                  22 0 8 0 (mkLocalTime 23 30) H1 H2 H3
                  eq_refl eq_refl eq_refl eq_refl)).
Defined.

(** C4 as stated fails. At 08:00, the end of the window 22:00-08:00, the
    half-open window does not suppress, but the subscriber, who is
    notified without quiet hours, is not notified. *)
Lemma quiet_hours_end_is_suppressed :
  let now := mkLocalTime 8 0 in
  let teams := Some ["LAL"; "BOS"] in
  suppressedHalfOpen (minuteOfDay 22 0) (minuteOfDay 8 0) (minuteOfDay 8 0) = false
  /\ shouldNotifyUser (withoutQuietHours nightSleeper) NBA GAME_START teams now = true
  /\ shouldNotifyUser nightSleeper NBA GAME_START teams now = false
  /\ inQuietHours (up_quietHours nightSleeper) now = true.
Proof. vm_compute. repeat split. Qed.

(** * Rivalry mode *)

Lemma includes_In arr x : includes arr x = true -> In x arr.
Proof.
  unfold includes. rewrite existsb_exists. intros (y & Hin & Heq).
  apply String.eqb_eq in Heq. by subst.
Qed.

(** C5. Rivalry mode is exclusive. For a subscriber whose entry for the
    sport has a (non-empty) favourite team and a rival list, and an event
    with participant codes [home; away], [shouldNotifyUser] returns true
    only if one code is the favourite and the other is a listed rival, in
    either orientation, whatever the legacy team list and the other
    settings are. A subscriber with favourite LAL and rival BOS (and a
    legacy list holding LAL and MIA) passes for LAL vs BOS in both
    orientations and fails for LAL vs MIA. *)
Theorem rivalry_mode_exclusive :
  (forall (prefs : UserPreferences) (sport : Sport) (eventType : EventType)
          (home away : string) (now : LocalTime)
          (sp : SportPrefs) (favorite : string) (rivals : list string),
     up_sports prefs sport = Some sp ->
     sp_favoriteTeam sp = Some favorite -> favorite <> "" ->
     sp_rivalTeams sp = Some rivals ->
     shouldNotifyUser prefs sport eventType (Some [home; away]) now = true ->
     (home = favorite /\ In away rivals) \/ (away = favorite /\ In home rivals))
  /\ (forall (eventType : EventType) (now : LocalTime),
        shouldNotifyUser lakersFan NBA eventType (Some ["LAL"; "BOS"]) now = true
        /\ shouldNotifyUser lakersFan NBA eventType (Some ["BOS"; "LAL"]) now = true
        /\ shouldNotifyUser lakersFan NBA eventType (Some ["LAL"; "MIA"]) now = false
        /\ shouldNotifyUser lakersFan NBA eventType (Some ["MIA"; "LAL"]) now = false).
Proof.
  split.
  - intros prefs sport eventType home away now sp favorite rivals
      Hsp Hfav Hne Hriv Hyes.
    assert (Htruthy : truthyStr favorite = true).
    { unfold truthyStr. apply negb_true_iff, String.eqb_neq. exact Hne. }
    unfold shouldNotifyUser, rivalryMode in Hyes.
    rewrite Hsp, Hfav, Hriv, Htruthy in Hyes. simpl in Hyes.
    destruct (negb (up_enabled prefs)); [discriminate|].
    destruct (negb (sp_enabled sp)); [discriminate|].
    destruct ((String.eqb home favorite && includes rivals away)
              || (String.eqb away favorite && includes rivals home)) eqn:Hgame;
      [|discriminate].
    apply orb_true_iff in Hgame as [H|H]; apply andb_true_iff in H as [Heq Hinc];
      apply String.eqb_eq in Heq; apply includes_In in Hinc; auto.
  - intros eventType now. vm_compute. repeat split.
Qed.

(** The boundary of rivalry mode: the code tests the favourite for
    truthiness, so an empty favourite string does not switch rivalry mode
    on, and such a subscriber (here without a legacy list) is notified for
    any game of the sport. *)
Lemma empty_favorite_is_not_rivalry_mode :
  forall now : LocalTime,
    shouldNotifyUser
      (subscriber "u3" "token-u3"
         (mkSportPrefs true None (Some "") (Some ["BOS"]) None) None)
      NBA GAME_START (Some ["LAL"; "MIA"]) now = true.
Proof. intros now. reflexivity. Qed.

(** The general statement of C5 at the sample subscriber. *)
Lemma rivalry_mode_exclusive_witness :
  up_sports lakersFan NBA
    = Some (mkSportPrefs true (Some ["LAL"; "MIA"]) (Some "LAL") (Some ["BOS"]) None)
  /\ "LAL" <> ""
  /\ shouldNotifyUser lakersFan NBA GAME_START (Some ["LAL"; "BOS"])
       (mkLocalTime 20 15) = true
  /\ (("LAL" = "LAL" /\ In "BOS" ["BOS"]) \/ ("BOS" = "LAL" /\ In "LAL" ["BOS"])).
Proof.
  assert (Hne : "LAL" <> "") by discriminate.
  split; [reflexivity|]. split; [exact Hne|]. split; [reflexivity|].
  exact (proj1 rivalry_mode_exclusive lakersFan NBA GAME_START "LAL" "BOS"
           (mkLocalTime 20 15) _ "LAL" ["BOS"] eq_refl eq_refl Hne eq_refl eq_refl).
Defined.

(** * Batched delivery *)

Lemma slice_batch {A} i (l : list A) :
  slice i (i + batchSize) l = firstn batchSize (skipn i l).
Proof. unfold slice. f_equal. lia. Qed.

Lemma batchLoop_concat fuel l i :
  (length l - i <= fuel)%nat -> concat (batchLoop fuel l i) = skipn i l.
Proof.
  revert i. induction fuel as [|fuel IH]; intros i Hfuel; simpl.
  - symmetry. apply skipn_all2. lia.
  - destruct (Nat.ltb_spec i (length l)) as [Hlt|Hge].
    + simpl. rewrite slice_batch, IH by (unfold batchSize; lia).
      rewrite (Nat.add_comm i batchSize), <- skipn_skipn.
      apply firstn_skipn.
    + symmetry. apply skipn_all2. lia.
Qed.

Lemma batchLoop_sizes fuel l i :
  Forall (fun b => (0 < length b <= batchSize)%nat) (batchLoop fuel l i).
Proof.
  revert i. induction fuel as [|fuel IH]; intros i; simpl; [constructor|].
  destruct (Nat.ltb_spec i (length l)) as [Hlt|Hge]; [|constructor].
  constructor; [|apply IH].
  rewrite slice_batch, length_firstn, length_skipn. unfold batchSize. lia.
Qed.

Lemma ceil_step n :
  (1 <= n)%nat -> ((n + 499) / 500 = S ((n - 500 + 499) / 500))%nat.
Proof.
  intros Hn. destruct (Nat.le_gt_cases 500 n) as [Hbig|Hsmall].
  - replace (n + 499)%nat with ((n - 500 + 499) + 1 * 500)%nat by lia.
    rewrite Nat.div_add by lia. lia.
  - replace (n - 500 + 499)%nat with 499%nat by lia.
    rewrite (Nat.div_small 499 500) by lia.
    symmetry. apply (Nat.div_unique (n + 499) 500 1 (n - 1)); lia.
Qed.

Lemma batchLoop_length fuel l i :
  (length l - i <= fuel)%nat ->
  length (batchLoop fuel l i) = ((length l - i + 499) / 500)%nat.
Proof.
  revert i. induction fuel as [|fuel IH]; intros i Hfuel; cbn [batchLoop].
  - replace (length l - i)%nat with 0%nat by lia. reflexivity.
  - destruct (Nat.ltb_spec i (length l)) as [Hlt|Hge].
    + cbn [length]. rewrite IH by (unfold batchSize; lia).
      rewrite (ceil_step (length l - i)) by lia.
      unfold batchSize. do 3 f_equal. lia.
    + replace (length l - i)%nat with 0%nat by lia. reflexivity.
Qed.

(** The split into batches: consecutive, complete, each of 1 to 500
    addresses, and ceil(n/500) of them. *)
Lemma makeBatches_spec (fcmTokens : list string) :
  concat (makeBatches fcmTokens) = fcmTokens
  /\ Forall (fun b => (0 < length b <= 500)%nat) (makeBatches fcmTokens)
  /\ length (makeBatches fcmTokens) = ((length fcmTokens + 499) / 500)%nat.
Proof.
  unfold makeBatches. split; [|split].
  - rewrite batchLoop_concat by lia. reflexivity.
  - apply batchLoop_sizes.
  - rewrite batchLoop_length by lia. by rewrite Nat.sub_0_r.
Qed.

(** With one response per token, the indexed walk over the responses
    collects the reported addresses. *)
Lemma collectInvalid_reported batch responses idx :
  (idx + length responses <= length batch)%nat ->
  collectInvalid batch responses idx
  = map Some
      (map fst
         (List.filter
            (fun tr => negb (sr_success (snd tr)) && invalidCode (sr_errorCode (snd tr)))
            (combine (skipn idx batch) responses))).
Proof.
  revert idx. induction responses as [|resp rest IH]; intros idx Hlen; simpl.
  - by rewrite combine_nil.
  - simpl in Hlen.
    destruct (skipn idx batch) as [|tok tail] eqn:Hskip.
    { apply (f_equal (@length _)) in Hskip. rewrite length_skipn in Hskip.
      simpl in Hskip. lia. }
    assert (Hnth : nth_error batch idx = Some tok).
    { rewrite <- (firstn_skipn idx batch), Hskip.
      rewrite nth_error_app2 by (rewrite length_firstn; lia).
      rewrite length_firstn. replace (idx - Nat.min idx (length batch))%nat with 0%nat by lia.
      reflexivity. }
    assert (Htail : skipn (S idx) batch = tail).
    { replace (S idx) with (1 + idx)%nat by lia.
      rewrite <- skipn_skipn, Hskip. reflexivity. }
    rewrite IH by lia. rewrite Htail, Hnth. simpl.
    destruct (negb (sr_success resp) && invalidCode (sr_errorCode resp)); reflexivity.
Qed.

(** The test of the code picks exactly the responses that report a
    permanently invalid address. *)
Lemma invalidCode_permanent (resp : SendResponse) :
  negb (sr_success resp) && invalidCode (sr_errorCode resp)
  = permanentlyInvalid resp.
Proof.
  unfold permanentlyInvalid, invalidCode, permanentFailureCodes.
  destruct (sr_success resp); [reflexivity|]. cbn [negb andb].
  destruct (sr_errorCode resp) as [code|]; [|reflexivity].
  destruct (String.eqb_spec code "messaging/invalid-registration-token") as [->|H1].
  { by rewrite bool_decide_eq_true_2 by (by left). }
  destruct (String.eqb_spec code "messaging/registration-token-not-registered")
    as [->|H2].
  { by rewrite bool_decide_eq_true_2 by (right; by left). }
  rewrite bool_decide_eq_false_2; [reflexivity|].
  intros Hin. apply list_elem_of_In in Hin. destruct Hin as [<- | [<- | []]];
    congruence.
Qed.

Lemma reportedInvalid_In batch response t :
  In t (reportedInvalid batch response)
  <-> exists resp,
        In (t, resp) (combine batch (br_responses response))
        /\ sr_success resp = false
        /\ (sr_errorCode resp = Some "messaging/invalid-registration-token"
            \/ sr_errorCode resp
               = Some "messaging/registration-token-not-registered").
Proof.
  unfold reportedInvalid. rewrite in_map_iff. split.
  - intros ([t' resp] & <- & Hin). apply filter_In in Hin as [Hin Hperm].
    exists resp. split; [exact Hin|]. cbn [snd] in Hperm.
    unfold permanentlyInvalid in Hperm. apply andb_true_iff in Hperm as [Hs Hc].
    split; [by destruct (sr_success resp)|].
    destruct (sr_errorCode resp) as [code|]; [|discriminate].
    apply bool_decide_eq_true in Hc. apply list_elem_of_In in Hc.
    destruct Hc as [<- | [<- | []]]; auto.
  - intros (resp & Hin & Hs & Hc). exists (t, resp). split; [reflexivity|].
    apply filter_In. split; [exact Hin|]. cbn [snd].
    unfold permanentlyInvalid. rewrite Hs. cbn [negb andb].
    destruct Hc as [-> | ->]; apply bool_decide_eq_true_2, list_elem_of_In;
      cbn; auto.
Qed.

Lemma no_failures_nothing_reported batch response :
  wellFormedReply batch response ->
  (br_failureCount response >? 0) = false ->
  reportedInvalid batch response = [].
Proof.
  intros (Hlen & Hfail & _) Hzero. unfold reportedInvalid.
  assert (Hnone : List.filter (fun r => negb (sr_success r)) (br_responses response) = []).
  { apply length_zero_iff_nil. rewrite Z.gtb_ltb in Hzero.
    apply Z.ltb_ge in Hzero. lia. }
  clear Hfail Hzero Hlen. revert batch.
  induction (br_responses response) as [|r rs IH]; intros batch.
  - by rewrite combine_nil.
  - destruct batch as [|tok batch]; [reflexivity|]. simpl in *.
    unfold permanentlyInvalid at 1.
    destruct (negb (sr_success r)); [discriminate|]. simpl. by apply IH.
Qed.

Lemma batchLoop_S fuel l i :
  batchLoop (S fuel) l i
  = if (i <? length l)%nat
    then slice i (i + batchSize) l :: batchLoop fuel l (i + batchSize)
    else [].
Proof. reflexivity. Qed.

Lemma makeBatches_600 (fcmTokens : list string) :
  length fcmTokens = 600%nat ->
  makeBatches fcmTokens = [firstn 500 fcmTokens; skipn 500 fcmTokens].
Proof.
  intros Hlen. unfold makeBatches. rewrite Hlen.
  rewrite (batchLoop_S 599), Hlen. change (0 <? 600)%nat with true. cbv iota.
  rewrite (batchLoop_S 598), Hlen. change (0 + batchSize <? 600)%nat with true.
  cbv iota.
  rewrite (batchLoop_S 597), Hlen.
  change (0 + batchSize + batchSize <? 600)%nat with false. cbv iota.
  rewrite !slice_batch. unfold batchSize. cbn [skipn Nat.add].
  do 2 f_equal. apply firstn_all2. rewrite length_skipn. lia.
Qed.

Lemma sendEachForMulticast_ok env batch w :
  faults env (w_tick w) = false ->
  sendEachForMulticast env batch w
  = (Ok (gatewayReply env (w_tick w) batch),
     mkWorld (w_events w) (S (w_tick w)) (w_calls w ++ [CSendEachForMulticast batch])).
Proof.
  intros Hok. unfold sendEachForMulticast, bind, record, modifyState. simpl.
  by rewrite Hok.
Qed.

Lemma sendEachForMulticast_fault env batch w :
  faults env (w_tick w) = true ->
  sendEachForMulticast env batch w
  = (Throw,
     mkWorld (w_events w) (S (w_tick w)) (w_calls w ++ [CSendEachForMulticast batch])).
Proof.
  intros Hko. unfold sendEachForMulticast, bind, record, modifyState. simpl.
  by rewrite Hko.
Qed.

(** The guarded collection step of the batch loop adds exactly the
    reported addresses. *)
Lemma collected_is_reported batch response invalid :
  wellFormedReply batch response ->
  (if br_failureCount response >? 0
   then invalid ++ collectInvalid batch (br_responses response) 0
   else invalid)
  = invalid ++ map Some (reportedInvalid batch response).
Proof.
  intros Hwf. destruct (br_failureCount response >? 0) eqn:Hfc.
  - rewrite collectInvalid_reported by (destruct Hwf as [Hl _]; lia).
    unfold reportedInvalid. cbn [skipn]. do 3 f_equal.
    apply List.filter_ext. intros [tok resp]. apply invalidCode_permanent.
  - rewrite (no_failures_nothing_reported _ _ Hwf Hfc). by rewrite app_nil_r.
Qed.

(** The batch loop when the gateway answers every submission. *)
Lemma sendBatches_ok env batches :
  (forall n b, wellFormedReply b (gatewayReply env n b)) ->
  forall totalSuccess totalFailure invalid w,
    (forall k, (k < length batches)%nat -> faults env (w_tick w + k) = false) ->
    sendBatches env batches totalSuccess totalFailure invalid w
    = (Ok {|
         successCount :=
           totalSuccess
           + sumZ (map (fun br => br_successCount (snd br))
                     (repliesFrom env (w_tick w) batches));
         failureCount :=
           totalFailure
           + sumZ (map (fun br => br_failureCount (snd br))
                     (repliesFrom env (w_tick w) batches));
         invalidTokens :=
           invalid
           ++ map Some (flat_map (fun br => reportedInvalid (fst br) (snd br))
                          (repliesFrom env (w_tick w) batches))
       |},
       mkWorld (w_events w) (w_tick w + length batches)
         (w_calls w ++ map CSendEachForMulticast batches)).
Proof.
  intros Hwf. induction batches as [|batch rest IH];
    intros totalSuccess totalFailure invalid w Hok.
  - simpl. unfold ret. rewrite !Z.add_0_r, !app_nil_r, Nat.add_0_r.
    by destruct w.
  - cbn [sendBatches]. unfold bind at 1.
    rewrite sendEachForMulticast_ok
      by (specialize (Hok 0%nat); rewrite Nat.add_0_r in Hok; apply Hok; simpl; lia).
    rewrite IH.
    2:{ intros k Hk. cbn [w_tick].
        replace (S (w_tick w) + k)%nat with (w_tick w + S k)%nat by lia.
        apply Hok. simpl. lia. }
    cbn [w_tick w_events w_calls repliesFrom map flat_map sumZ fold_right fst snd length].
    fold (sumZ (map (fun br => br_successCount (snd br))
                  (repliesFrom env (S (w_tick w)) rest))).
    fold (sumZ (map (fun br => br_failureCount (snd br))
                  (repliesFrom env (S (w_tick w)) rest))).
    rewrite (collected_is_reported _ _ invalid (Hwf (w_tick w) batch)). f_equal.
    + f_equal. f_equal; [lia | lia |].
      by rewrite <- app_assoc, map_app.
    + f_equal; [lia|]. by rewrite <- app_assoc.
Qed.

(** C8. [sendBatchNotifications] splits the tokens into ceil(n/500)
    consecutive batches of 1 to 500 tokens whose concatenation is the
    token list (two batches, of 500 and 100, for 600 tokens). When the
    gateway answers every submission, with one response per token and
    consistent counters, exactly these batches are submitted, in order,
    and the returned [invalidTokens] is the concatenation, batch after
    batch, of the addresses the gateway reported as permanently invalid;
    the counters are the sums of the per-batch counters. An empty token
    list returns the zero outcome and leaves the world untouched: nothing
    is submitted. An address is reported as permanently invalid by a batch
    exactly when its response in that batch failed with the code
    [messaging/invalid-registration-token] or
    [messaging/registration-token-not-registered]: an address that failed
    with another code, or with none, is not returned. *)
Theorem batch_notifications_split_and_aggregate :
  (forall fcmTokens : list string,
     concat (makeBatches fcmTokens) = fcmTokens
     /\ Forall (fun b => (0 < length b <= 500)%nat) (makeBatches fcmTokens)
     /\ length (makeBatches fcmTokens) = ((length fcmTokens + 499) / 500)%nat)
  /\ (forall fcmTokens : list string,
        length fcmTokens = 600%nat ->
        makeBatches fcmTokens = [firstn 500 fcmTokens; skipn 500 fcmTokens]
        /\ length (makeBatches fcmTokens) = 2%nat)
  /\ (forall (env : Env) (fcmTokens : list string) (payload : NotificationPayload)
             (options : option NotificationOptions) (w : World),
        (forall n b, wellFormedReply b (gatewayReply env n b)) ->
        (forall k, (k < length (makeBatches fcmTokens))%nat ->
                   faults env (w_tick w + k) = false) ->
        let replies := repliesFrom env (w_tick w) (makeBatches fcmTokens) in
        sendBatchNotifications env fcmTokens payload options w
        = (Ok {|
             successCount := sumZ (map (fun br => br_successCount (snd br)) replies);
             failureCount := sumZ (map (fun br => br_failureCount (snd br)) replies);
             invalidTokens :=
               map Some (flat_map (fun br => reportedInvalid (fst br) (snd br)) replies)
           |},
           mkWorld (w_events w) (w_tick w + length (makeBatches fcmTokens))
             (w_calls w ++ map CSendEachForMulticast (makeBatches fcmTokens))))
  /\ (forall (env : Env) (payload : NotificationPayload)
             (options : option NotificationOptions) (w : World),
        sendBatchNotifications env [] payload options w
        = (Ok (mkBatchResult 0 0 []), w))
  /\ (forall (batch : list string) (response : BatchResponse) (t : string),
        In t (reportedInvalid batch response)
        <-> exists resp,
              In (t, resp) (combine batch (br_responses response))
              /\ sr_success resp = false
              /\ (sr_errorCode resp = Some "messaging/invalid-registration-token"
                  \/ sr_errorCode resp
                     = Some "messaging/registration-token-not-registered")).
Proof.
  split; [exact makeBatches_spec|]. split; [|split; [|split]].
  4: exact reportedInvalid_In.
  - intros fcmTokens Hlen. rewrite (makeBatches_600 _ Hlen). auto.
  - intros env fcmTokens payload options w Hwf Hok replies.
    unfold sendBatchNotifications, tryCatch.
    destruct fcmTokens as [|tok rest].
    + simpl. unfold ret. rewrite Nat.add_0_r, app_nil_r. by destruct w.
    + cbn [length Nat.eqb]. rewrite (sendBatches_ok env _ Hwf 0 0 [] w Hok).
      reflexivity.
  - intros env payload options w. reflexivity.
Qed.

(** * The notification engine *)

Lemma undisturbed_refl eventId w : undisturbed eventId w w.
Proof. split; [reflexivity|]. exists []. by rewrite app_nil_r. Qed.

Lemma undisturbed_trans eventId w1 w2 w3 :
  undisturbed eventId w1 w2 -> undisturbed eventId w2 w3 ->
  undisturbed eventId w1 w3.
Proof.
  intros [He1 (n1 & Hc1 & Hf1)] [He2 (n2 & Hc2 & Hf2)]. split; [congruence|].
  exists (n1 ++ n2). split; [by rewrite Hc2, Hc1, app_assoc|].
  by apply Forall_app_2.
Qed.

Lemma undisturbed_tick eventId w : undisturbed eventId w (tick w).
Proof. split; [reflexivity|]. exists []. simpl. by rewrite app_nil_r. Qed.

Lemma keeps_ret {A} eventId (a : A) : keeps eventId (ret a).
Proof. intros w. apply undisturbed_refl. Qed.

Lemma keeps_throw {A} eventId : keeps eventId (@throw World A).
Proof. intros w. apply undisturbed_refl. Qed.

Lemma keeps_bind {A B} eventId (m : M World A) (k : A -> M World B) :
  keeps eventId m -> (forall a, keeps eventId (k a)) -> keeps eventId (bind m k).
Proof.
  intros Hm Hk w. unfold bind. specialize (Hm w).
  destruct (m w) as [[a|] w1]; simpl in *; [|exact Hm].
  eapply undisturbed_trans; [exact Hm | apply Hk].
Qed.

Lemma keeps_tryCatch {A} eventId (m handler : M World A) :
  keeps eventId m -> keeps eventId handler -> keeps eventId (tryCatch m handler).
Proof.
  intros Hm Hh w. unfold tryCatch. specialize (Hm w).
  destruct (m w) as [[a|] w1]; simpl in *; [exact Hm|].
  eapply undisturbed_trans; [exact Hm | apply Hh].
Qed.

Lemma keeps_remote {A} env eventId (body : M World A) :
  keeps eventId body -> keeps eventId (remote env body).
Proof.
  intros Hb w. unfold remote. destruct (faults env (w_tick w)); simpl.
  - apply undisturbed_tick.
  - eapply undisturbed_trans; [apply undisturbed_tick | apply Hb].
Qed.

Lemma keeps_record eventId c :
  concerns eventId c = false -> keeps eventId (record c).
Proof.
  intros Hc w. split; [reflexivity|]. exists [c]. simpl. split; [reflexivity|].
  by constructor.
Qed.

Lemma keeps_getState eventId : keeps eventId getState.
Proof. intros w. apply undisturbed_refl. Qed.

Lemma keeps_setEvents eventId f :
  (forall m, f m !! eventId = m !! eventId) -> keeps eventId (setEvents f).
Proof.
  intros Hf w. split; [apply Hf|]. exists []. simpl. by rewrite app_nil_r.
Qed.

Lemma keeps_newLocalTime env eventId : keeps eventId (newLocalTime env).
Proof. intros w. apply undisturbed_tick. Qed.

Lemma keeps_timestampNow env eventId : keeps eventId (timestampNow env).
Proof. intros w. apply undisturbed_tick. Qed.

Lemma eqb_false_of_ne (a b : string) : a <> b -> String.eqb a b = false.
Proof. apply String.eqb_neq. Qed.

Lemma keeps_getEvent env eventId i : keeps eventId (getEvent env i).
Proof.
  unfold getEvent. apply keeps_bind; [by apply keeps_record|]. intros _.
  apply keeps_tryCatch; [|apply keeps_throw].
  apply keeps_remote, keeps_bind; [apply keeps_getState|]. intros w.
  apply keeps_ret.
Qed.

Lemma keeps_saveEvent env eventId event :
  e_id event <> eventId -> keeps eventId (saveEvent env event).
Proof.
  intros Hne. unfold saveEvent.
  apply keeps_bind; [apply keeps_record; simpl; by apply eqb_false_of_ne|].
  intros _. apply keeps_tryCatch; [|apply keeps_throw].
  apply keeps_remote, keeps_setEvents. intros m. by apply lookup_insert_ne.
Qed.

Lemma keeps_markEventNotified env eventId i :
  i <> eventId -> keeps eventId (markEventNotified env i).
Proof.
  intros Hne. unfold markEventNotified.
  apply keeps_bind; [apply keeps_record; simpl; by apply eqb_false_of_ne|].
  intros _. apply keeps_tryCatch; [|apply keeps_throw].
  apply keeps_bind; [apply keeps_timestampNow|]. intros now.
  apply keeps_remote, keeps_bind; [apply keeps_getState|]. intros w.
  destruct (w_events w !! i); [|apply keeps_throw].
  apply keeps_setEvents. intros m. by apply lookup_insert_ne.
Qed.

Lemma keeps_getPreferences env eventId userId :
  keeps eventId (getPreferences env userId).
Proof.
  unfold getPreferences. apply keeps_bind; [by apply keeps_record|]. intros _.
  apply keeps_tryCatch; [|apply keeps_throw]. apply keeps_remote, keeps_ret.
Qed.

Lemma keeps_getUsersByTeam env eventId teamId :
  keeps eventId (getUsersByTeam env teamId).
Proof.
  unfold getUsersByTeam. apply keeps_bind; [by apply keeps_record|]. intros _.
  apply keeps_tryCatch; [|apply keeps_throw]. apply keeps_remote, keeps_ret.
Qed.

Lemma keeps_collectPreferences env eventId userIds users :
  keeps eventId (collectPreferences env userIds users).
Proof.
  revert users. induction userIds as [|u rest IH]; intros users; simpl.
  - apply keeps_ret.
  - apply keeps_bind; [apply keeps_getPreferences|]. intros prefs. apply IH.
Qed.

Lemma keeps_collectTeamUsers env eventId teams allUsers :
  keeps eventId (collectTeamUsers env teams allUsers).
Proof.
  revert allUsers. induction teams as [|t rest IH]; intros allUsers; simpl.
  - apply keeps_ret.
  - apply keeps_bind; [apply keeps_getUsersByTeam|]. intros us. apply IH.
Qed.

Lemma keeps_filterUsers env eventId users sport eventType teams :
  keeps eventId (filterUsers env users sport eventType teams).
Proof.
  induction users as [|u rest IH]; simpl.
  - apply keeps_ret.
  - apply keeps_bind; [apply keeps_newLocalTime|]. intros now.
    apply keeps_bind; [apply IH|]. intros kept. apply keeps_ret.
Qed.

Lemma keeps_getTargetUsers env eventId event :
  e_id event <> eventId -> keeps eventId (getTargetUsers env event).
Proof.
  intros Hne. unfold getTargetUsers.
  apply keeps_bind; [apply keeps_record; simpl; by apply eqb_false_of_ne|].
  intros _. apply keeps_tryCatch; [|apply keeps_throw].
  destruct (default false _); [apply keeps_ret|].
  destruct (e_targetAudience event ≫= ta_userIds) as [[|u us]|].
  2: apply keeps_collectPreferences.
  all: destruct (e_targetAudience event ≫= ta_teams) as [[|t ts]|];
    try apply keeps_ret.
  all: apply keeps_bind; [apply keeps_collectTeamUsers|]; intros allUsers;
    apply keeps_filterUsers.
Qed.

Lemma keeps_sendEachForMulticast env eventId tokens :
  keeps eventId (sendEachForMulticast env tokens).
Proof.
  unfold sendEachForMulticast. apply keeps_bind; [by apply keeps_record|].
  intros _ w. destruct (faults env (w_tick w)); apply undisturbed_tick.
Qed.

Lemma keeps_sendBatches env eventId batches ts tf invalid :
  keeps eventId (sendBatches env batches ts tf invalid).
Proof.
  revert ts tf invalid. induction batches as [|b rest IH]; intros ts tf invalid.
  - apply keeps_ret.
  - cbn [sendBatches]. apply keeps_bind; [apply keeps_sendEachForMulticast|].
    intros response. apply IH.
Qed.

Lemma keeps_sendBatchNotifications env eventId tokens payload options :
  keeps eventId (sendBatchNotifications env tokens payload options).
Proof.
  unfold sendBatchNotifications. apply keeps_tryCatch; [|apply keeps_throw].
  destruct (length tokens =? 0)%nat; [apply keeps_ret | apply keeps_sendBatches].
Qed.

Lemma keeps_sendEventNotification env eventId event users :
  e_id event <> eventId -> keeps eventId (sendEventNotification env event users).
Proof.
  intros Hne. unfold sendEventNotification.
  apply keeps_bind; [apply keeps_record; simpl; by apply eqb_false_of_ne|].
  intros _. apply keeps_tryCatch; [|apply keeps_throw].
  destruct (length users =? 0)%nat; [apply keeps_ret|].
  apply keeps_bind; [apply keeps_sendBatchNotifications|]. intros r.
  apply keeps_ret.
Qed.

Lemma keepsF_lift {A} eventId (m : M World A) :
  keeps eventId m -> keepsF eventId (lift m).
Proof.
  intros Hm f. unfold lift. specialize (Hm (world f)).
  by destruct (m (world f)) as [r w'].
Qed.

Lemma keepsF_ret {A} eventId (a : A) : keepsF eventId (ret a).
Proof. intros f. apply undisturbed_refl. Qed.

Lemma keepsF_bind {A B} eventId (m : M Frame A) (k : A -> M Frame B) :
  keepsF eventId m -> (forall a, keepsF eventId (k a)) -> keepsF eventId (bind m k).
Proof.
  intros Hm Hk f. unfold bind. specialize (Hm f).
  destruct (m f) as [[a|] f1]; simpl in *; [|exact Hm].
  eapply undisturbed_trans; [exact Hm | apply Hk].
Qed.

Lemma keepsF_tryCatch {A} eventId (m handler : M Frame A) :
  keepsF eventId m -> keepsF eventId handler -> keepsF eventId (tryCatch m handler).
Proof.
  intros Hm Hh f. unfold tryCatch. specialize (Hm f).
  destruct (m f) as [[a|] f1]; simpl in *; [exact Hm|].
  eapply undisturbed_trans; [exact Hm | apply Hh].
Qed.

(** A round for an event with another identifier leaves [eventId] alone,
    whichever way the round goes. *)
Lemma keepsF_processOne env eventId event :
  e_id event <> eventId -> keepsF eventId (processOne env event).
Proof.
  intros Hne. unfold processOne.
  apply keepsF_bind; [apply keepsF_lift, keeps_getEvent|]. intros existing.
  destruct (default false _); [apply keepsF_ret|].
  apply keepsF_bind; [by apply keepsF_lift, keeps_saveEvent|]. intros _.
  apply keepsF_bind; [by apply keepsF_lift, keeps_getTargetUsers|]. intros users.
  destruct (length users =? 0)%nat; [apply keepsF_ret|].
  apply keepsF_bind; [by apply keepsF_lift, keeps_sendEventNotification|].
  intros result.
  apply keepsF_bind; [intros f; apply undisturbed_refl|]. intros _.
  by apply keepsF_lift, keeps_markEventNotified.
Qed.

(** A round for an event whose stored record says notified: the record is
    read and nothing else happens, whether or not the read fails. *)
Lemma processOne_skips env event f :
  storedNotified (world f) (e_id event) = true ->
  tryCatch (processOne env event) (ret tt) f
  = (Ok tt, mkFrame (afterCalls (world f) 1 [CGetEvent (e_id event)])
              (totalNotificationsSent f)).
Proof.
  intros Hnot. unfold storedNotified in Hnot.
  unfold tryCatch, processOne, bind, lift, getEvent, bind, record, modifyState,
    tryCatch, remote, getState, ret, throw, afterCalls.
  simpl. destruct (faults env (w_tick (world f))); simpl.
  - by rewrite Nat.add_1_r.
  - rewrite Hnot. by rewrite Nat.add_1_r.
Qed.

(** A round in which the record is read, says not notified, and the save
    throws: the round ends there and the store is as before. *)
Lemma processOne_save_fails env event f :
  faults env (w_tick (world f)) = false ->
  storedNotified (world f) (e_id event) = false ->
  faults env (S (w_tick (world f))) = true ->
  tryCatch (processOne env event) (ret tt) f
  = (Ok tt, mkFrame (afterCalls (world f) 2
                       [CGetEvent (e_id event); CSaveEvent event])
              (totalNotificationsSent f)).
Proof.
  intros Hget Hnot Hsave. unfold storedNotified in Hnot.
  unfold tryCatch, processOne, bind, lift, getEvent, saveEvent, bind, record,
    modifyState, tryCatch, remote, getState, ret, throw, afterCalls.
  simpl. rewrite Hget. simpl. rewrite Hnot. simpl. rewrite Hsave. simpl.
  rewrite <- app_assoc. simpl. unfold tick. simpl.
  replace (w_tick (world f) + 2)%nat with (S (S (w_tick (world f)))) by lia.
  reflexivity.
Qed.

Lemma processLoop_cons env event rest f :
  processLoop env (event :: rest) f
  = processLoop env rest (snd (tryCatch (processOne env event) (ret tt) f)).
Proof.
  cbn [processLoop]. unfold bind at 1.
  destruct (tryCatch (processOne env event) (ret tt) f) as [[[]|] f1] eqn:Hround;
    [reflexivity|].
  exfalso. unfold tryCatch, ret in Hround.
  destruct (processOne env event f) as [[[]|] f2]; discriminate.
Qed.

(** The loop never throws: every round catches its own failure. *)
Lemma processLoop_total env events f :
  fst (processLoop env events f) = Ok tt.
Proof.
  revert f. induction events as [|event rest IH]; intros f; [reflexivity|].
  rewrite processLoop_cons. apply IH.
Qed.

Lemma processLoop_app env pre post f :
  processLoop env (pre ++ post) f
  = processLoop env post (snd (processLoop env pre f)).
Proof.
  revert f. induction pre as [|event rest IH]; intros f; [reflexivity|].
  rewrite <- app_comm_cons, !processLoop_cons. apply IH.
Qed.

Lemma processEvents_loop env events w :
  processEvents env events w
  = (Ok (totalNotificationsSent (snd (processLoop env events (mkFrame w 0)))),
     world (snd (processLoop env events (mkFrame w 0)))).
Proof.
  unfold processEvents. destruct events as [|event rest]; [reflexivity|].
  cbn [length Nat.eqb].
  pose proof (processLoop_total env (event :: rest) (mkFrame w 0)) as Htot.
  destruct (processLoop env (event :: rest) (mkFrame w 0)) as [[[]|] f];
    [reflexivity | discriminate].
Qed.

Lemma undisturbed_notified eventId w w' :
  undisturbed eventId w w' -> storedNotified w' eventId = storedNotified w eventId.
Proof. intros [He _]. unfold storedNotified. by rewrite He. Qed.

(** Once the stored record says notified, a whole loop leaves the
    identifier alone. *)
Lemma processLoop_undisturbed env eventId events f :
  storedNotified (world f) eventId = true ->
  undisturbed eventId (world f) (world (snd (processLoop env events f))).
Proof.
  revert f. induction events as [|event rest IH]; intros f Hnot.
  - apply undisturbed_refl.
  - rewrite processLoop_cons.
    assert (Hround : undisturbed eventId (world f)
              (world (snd (tryCatch (processOne env event) (ret tt) f)))).
    { destruct (String.eqb_spec (e_id event) eventId) as [Heq|Hne].
      - rewrite processOne_skips by (by rewrite Heq). simpl.
        split; [reflexivity|]. exists [CGetEvent (e_id event)].
        split; [reflexivity|]. by constructor.
      - apply (keepsF_tryCatch eventId); [by apply keepsF_processOne|].
        apply keepsF_ret. }
    eapply undisturbed_trans; [exact Hround|]. apply IH.
    by rewrite (undisturbed_notified _ _ _ Hround).
Qed.

Lemma concerns_false_not_In eventId new :
  Forall (fun c => concerns eventId c = false) new ->
  forall event users, e_id event = eventId ->
    ~ In (CSaveEvent event) new
    /\ ~ In (CGetTargetUsers event) new
    /\ ~ In (CSendEventNotification event users) new
    /\ ~ In (CMarkEventNotified eventId) new.
Proof.
  intros Hall event users Heq. rewrite Forall_forall in Hall.
  assert (Hrefl : String.eqb eventId eventId = true) by apply String.eqb_refl.
  repeat split; intros Hin; apply list_elem_of_In, Hall in Hin; simpl in Hin;
    rewrite ?Heq in Hin; congruence.
Qed.

(** C1. If the stored record of an identifier says notified when
    [processEvents] starts, then during that run the engine makes no save,
    no audience resolution, no dispatch (and no marking) for that
    identifier, whatever events are processed and whichever remote calls
    fail; the stored record stays as it is; and a round for an event with
    that identifier consists of the lookup alone. *)
Theorem notified_event_skipped :
  forall (env : Env) (events : list Event) (w : World) (eventId : string),
    storedNotified w eventId = true ->
    let w' := snd (processEvents env events w) in
    (exists total, fst (processEvents env events w) = Ok total)
    /\ w_events w' !! eventId = w_events w !! eventId
    /\ (exists new,
          w_calls w' = w_calls w ++ new
          /\ Forall (fun c => concerns eventId c = false) new
          /\ forall event users, e_id event = eventId ->
               ~ In (CSaveEvent event) new
               /\ ~ In (CGetTargetUsers event) new
               /\ ~ In (CSendEventNotification event users) new
               /\ ~ In (CMarkEventNotified eventId) new)
    /\ (forall event rest total,
          e_id event = eventId ->
          processLoop env (event :: rest) (mkFrame w total)
          = processLoop env rest
              (mkFrame (afterCalls w 1 [CGetEvent eventId]) total)).
Proof.
  intros env events w eventId Hnot. cbv zeta. rewrite processEvents_loop.
  cbn [fst snd].
  destruct (processLoop_undisturbed env eventId events (mkFrame w 0) Hnot)
    as [Hstore (new & Hcalls & Hall)].
  split; [eauto|]. split; [exact Hstore|]. split.
  - exists new. split; [exact Hcalls|]. split; [exact Hall|].
    by apply concerns_false_not_In.
  - intros event rest total Heq. rewrite processLoop_cons.
    rewrite processOne_skips by (simpl; by rewrite Heq). by rewrite Heq.
Qed.

(** A loop over events with other identifiers leaves [eventId] alone. *)
Lemma processLoop_others env eventId events f :
  Forall (fun e => e_id e <> eventId) events ->
  undisturbed eventId (world f) (world (snd (processLoop env events f))).
Proof.
  intros Hall. revert f. induction Hall as [|event rest Hne _ IH]; intros f.
  - apply undisturbed_refl.
  - rewrite processLoop_cons.
    eapply undisturbed_trans; [|apply IH].
    apply (keepsF_tryCatch eventId); [by apply keepsF_processOne|].
    apply keepsF_ret.
Qed.

Lemma concerns_dispatchesOrMarks eventId c :
  concerns eventId c = false -> dispatchesOrMarks eventId c = false.
Proof. by destruct c. Qed.

(** C9. When, in the round of an event, the record is read, says not
    notified, and the save throws, the round consists of the lookup and
    the failed save: nothing is dispatched, nothing is marked, the store
    is unchanged. The loop goes on with the remaining events from there
    and [processEvents] returns. When no other event of the batch has the
    same identifier, the whole run contains no dispatch and no marking for
    that identifier and leaves its stored record as it was. *)
Theorem save_failure_isolated :
  forall (env : Env) (pre : list Event) (event : Event) (post : list Event)
         (w : World),
    let f1 := snd (processLoop env pre (mkFrame w 0)) in
    faults env (w_tick (world f1)) = false ->
    storedNotified (world f1) (e_id event) = false ->
    faults env (S (w_tick (world f1))) = true ->
    let f2 :=
      mkFrame (afterCalls (world f1) 2 [CGetEvent (e_id event); CSaveEvent event])
        (totalNotificationsSent f1) in
    let f3 := snd (processLoop env post f2) in
    processLoop env (pre ++ event :: post) (mkFrame w 0) = processLoop env post f2
    /\ processEvents env (pre ++ event :: post) w
       = (Ok (totalNotificationsSent f3), world f3)
    /\ (Forall (fun e => e_id e <> e_id event) (pre ++ post) ->
        w_events (world f3) !! e_id event = w_events w !! e_id event
        /\ exists new,
             w_calls (world f3) = w_calls w ++ new
             /\ Forall (fun c => dispatchesOrMarks (e_id event) c = false) new
             /\ In (CSaveEvent event) new).
Proof.
  intros env pre event post w f1 Hget Hnot Hsave f2 f3.
  assert (Hloop : processLoop env (pre ++ event :: post) (mkFrame w 0)
                  = processLoop env post f2).
  { rewrite processLoop_app, processLoop_cons. fold f1.
    by rewrite (processOne_save_fails env event f1 Hget Hnot Hsave). }
  split; [exact Hloop|]. split.
  - rewrite processEvents_loop, Hloop. reflexivity.
  - intros Hothers. apply Forall_app in Hothers as [Hpre Hpost].
    destruct (processLoop_others env (e_id event) pre (mkFrame w 0) Hpre)
      as [Hs1 (n1 & Hc1 & Hf1)].
    destruct (processLoop_others env (e_id event) post f2 Hpost)
      as [Hs2 (n2 & Hc2 & Hf2)].
    fold f1 in Hs1, Hc1. fold f3 in Hs2, Hc2. simpl in Hs1, Hc1, Hs2, Hc2.
    split; [congruence|].
    exists (n1 ++ [CGetEvent (e_id event); CSaveEvent event] ++ n2).
    split; [|split].
    + rewrite Hc2, Hc1. by rewrite <- !app_assoc.
    + apply Forall_app_2; [|apply Forall_app_2].
      * eapply Forall_impl; [exact Hf1|]. apply concerns_dispatchesOrMarks.
      * by repeat constructor.
      * eapply Forall_impl; [exact Hf2|]. apply concerns_dispatchesOrMarks.
    + apply in_or_app. right. simpl. auto.
Qed.

(** * The theorems at concrete inputs *)

(** C2 at the first observation of a live game at 110-88. *)
Lemma blowout_edge_triggered_witness :
  let current := sampleGame LIVE 110 88 (Some 3) in
  g_status current = LIVE
  /\ 20 <= Z.abs (g_homeScore current - g_awayScore current)
  /\ exists e, eventsOfType BLOWOUT (detectCommonEvents 0 None current) = [e]
               /\ e_priority e = MEDIUM
               /\ e_id e = generateEventId (g_id current) BLOWOUT None.
Proof.
  assert (H20 : 20 <= Z.abs (110 - 88)) by (simpl; lia).
  split; [reflexivity|]. split; [exact H20|].
  exact (proj1 (blowout_edge_triggered 0 None (sampleGame LIVE 110 88 (Some 3))
                  eq_refl H20) I).
Defined.

(** C6 at the pair SCHEDULED 0-0 -> LIVE 0-0. *)
Lemma game_start_exactly_on_transition_witness :
  let previous := sampleGame SCHEDULED 0 0 None in
  let current := sampleGame LIVE 0 0 (Some 1) in
  g_status previous = SCHEDULED /\ g_status current = LIVE
  /\ length (eventsOfType GAME_START (detectCommonEvents 0 (Some previous) current))
     = 1%nat.
Proof.
  split; [reflexivity|]. split; [reflexivity|].
  exact (proj1 (proj2 (proj2
           (game_start_exactly_on_transition 0
              (Some (sampleGame SCHEDULED 0 0 None)) (sampleGame LIVE 0 0 (Some 1)))))
           _ eq_refl eq_refl eq_refl).
Defined.

Lemma mixedEnv_wellFormed n b : wellFormedReply b (gatewayReply mixedEnv n b).
Proof.
  unfold wellFormedReply. simpl. split; [apply length_map|]. split; reflexivity.
Qed.

(** C8 at 600 addresses: two batches, of 500 and 100. Both batches hold a
    permanently invalid address and a transient failure; the two
    permanently invalid addresses are returned, in batch order, and the
    three other failures are counted but not returned. *)
Lemma batch_notifications_split_and_aggregate_witness :
  length audience600 = 600%nat
  /\ makeBatches audience600 = [firstn 500 audience600; skipn 500 audience600]
  /\ In "gone-a" (firstn 500 audience600)
  /\ In "gone-b" (skipn 500 audience600)
  /\ fst (sendBatchNotifications mixedEnv audience600
            (mkPayload "Game Started" "BOS @ LAL is now live!" None None) None
            emptyWorld)
     = Ok (mkBatchResult 595 5 [Some "gone-a"; Some "gone-b"]).
Proof.
  split; [reflexivity|].
  split; [exact (proj1 (proj1 (proj2 batch_notifications_split_and_aggregate)
                          audience600 eq_refl))|].
  split; [by left|].
  split; [vm_compute; tauto|].
  refine (eq_trans
            (f_equal fst
               (proj1 (proj2 (proj2 batch_notifications_split_and_aggregate))
                  mixedEnv audience600
                  (mkPayload "Game Started" "BOS @ LAL is now live!" None None) None
                  emptyWorld mixedEnv_wellFormed (fun k _ => eq_refl)))
            _).
  vm_compute. reflexivity.
Defined.

(** C1 on a store that already holds the start event as notified. *)
Lemma notified_event_skipped_witness :
  storedNotified notifiedWorld (e_id sampleStart) = true
  /\ w_events (snd (processEvents (sampleEnv []) [sampleStart; sampleBlowout]
                      notifiedWorld)) !! e_id sampleStart
     = w_events notifiedWorld !! e_id sampleStart.
Proof.
  split; [reflexivity|].
  exact (proj1 (proj2
           (notified_event_skipped (sampleEnv []) [sampleStart; sampleBlowout]
              notifiedWorld (e_id sampleStart) eq_refl))).
Defined.

(** C9 on a batch of two events where the save of the first one throws:
    the second one is still delivered. *)
Lemma save_failure_isolated_witness :
  faults (sampleEnv [1%nat]) 0 = false
  /\ storedNotified emptyWorld (e_id sampleStart) = false
  /\ faults (sampleEnv [1%nat]) 1 = true
  /\ fst (processEvents (sampleEnv [1%nat]) [sampleStart; sampleBlowout] emptyWorld)
     = Ok 1.
Proof.
  split; [reflexivity|]. split; [reflexivity|]. split; [reflexivity|].
  exact (f_equal fst
           (proj1 (proj2
              (save_failure_isolated (sampleEnv [1%nat]) [] sampleStart
                 [sampleBlowout] emptyWorld eq_refl eq_refl eq_refl)))).
Defined.

(** * Further properties of the detector *)

Lemma eventsOfType_detect t now old new :
  eventsOfType t (detectCommonEvents now old new)
  = eventsOfType t (option_list (detectGameStart now old new))
    ++ eventsOfType t (option_list (detectGameEnd now old new))
    ++ (if isGameLive new
        then eventsOfType t (option_list (detectBlowout now old new))
             ++ eventsOfType t (option_list (detectCloseGame now old new))
             ++ eventsOfType t (option_list (detectFinalPeriod now old new))
        else [])
    ++ eventsOfType t (option_list (detectStatusChange now old new)).
Proof.
  rewrite detectCommonEvents_eq, !eventsOfType_app.
  destruct (isGameLive new); [by rewrite !eventsOfType_app | reflexivity].
Qed.

Ltac other_kinds now old new t :=
  rewrite ?(eventsOfType_other _ _ _ _ t (detectGameStart_stamped now old new))
    by discriminate;
  rewrite ?(eventsOfType_other _ _ _ _ t (detectGameEnd_stamped now old new))
    by discriminate;
  rewrite ?(eventsOfType_other _ _ _ _ t (detectBlowout_stamped now old new))
    by discriminate;
  rewrite ?(eventsOfType_other _ _ _ _ t (detectCloseGame_stamped now old new))
    by discriminate;
  rewrite ?(eventsOfType_other _ _ _ _ t (detectFinalPeriod_stamped now old new))
    by discriminate;
  rewrite ?eventsOfType_statusChange by discriminate.

Lemma gameEnds_detectCommonEvents now old new :
  eventsOfType GAME_END (detectCommonEvents now old new)
  = option_list (detectGameEnd now old new).
Proof.
  rewrite eventsOfType_detect. other_kinds now old new GAME_END.
  rewrite (eventsOfType_same _ _ _ _ (detectGameEnd_stamped now old new)).
  destruct (isGameLive new); simpl; by rewrite app_nil_r.
Qed.

Lemma finalPeriods_detectCommonEvents now old new :
  eventsOfType FINAL_PERIOD (detectCommonEvents now old new)
  = if isGameLive new then option_list (detectFinalPeriod now old new) else [].
Proof.
  rewrite eventsOfType_detect. other_kinds now old new FINAL_PERIOD.
  rewrite (eventsOfType_same _ _ _ _ (detectFinalPeriod_stamped now old new)).
  destruct (isGameLive new); simpl; by rewrite ?app_nil_r.
Qed.

Lemma isGameLive_false g : g_status g <> LIVE -> isGameLive g = false.
Proof. intros H. unfold isGameLive. by rewrite bool_decide_eq_false. Qed.

Lemma detectGameEnd_fires now previous current :
  previousLive previous -> g_status current = FINAL ->
  exists e, detectGameEnd now previous current = Some e
            /\ e_metadata e
               = Some (MetaFinalScore (g_homeScore current) (g_awayScore current)).
Proof.
  intros (p & -> & Hp) Hcur. unfold detectGameEnd. simpl.
  rewrite (bool_decide_eq_true_2 _ Hp), (bool_decide_eq_true_2 _ Hcur). simpl.
  eexists. split; reflexivity.
Qed.

Lemma detectGameEnd_silent now previous current :
  ~ (previousLive previous /\ g_status current = FINAL) ->
  detectGameEnd now previous current = None.
Proof.
  intros Hnot. unfold detectGameEnd.
  destruct (bool_decide_reflect (g_status current = FINAL)) as [Hcur|Hcur];
    [|by rewrite andb_false_r].
  destruct previous as [p|]; simpl; [|reflexivity].
  destruct (bool_decide_reflect (g_status p = LIVE)) as [Hp|Hp]; [|reflexivity].
  exfalso. apply Hnot. split; [by exists p | assumption].
Qed.

(** X1. GAME_END: exactly one event, of priority HIGH and carrying the final
    score, when the previous snapshot was LIVE and the current one is
    FINAL; none otherwise, in particular none when a finished game is seen
    for the first time. *)
Theorem game_end_exactly_on_finish :
  forall (now : Date) (previous : option Game) (current : Game),
    (previousLive previous /\ g_status current = FINAL ->
       exists e,
         eventsOfType GAME_END (detectCommonEvents now previous current) = [e]
         /\ e_priority e = HIGH
         /\ e_id e = generateEventId (g_id current) GAME_END None
         /\ e_metadata e
            = Some (MetaFinalScore (g_homeScore current) (g_awayScore current)))
    /\ (~ (previousLive previous /\ g_status current = FINAL) ->
          eventsOfType GAME_END (detectCommonEvents now previous current) = [])
    /\ eventsOfType GAME_END (detectCommonEvents now None current) = [].
Proof.
  intros now previous current. split; [|split].
  - intros [Hprev Hcur]. rewrite gameEnds_detectCommonEvents.
    destruct (detectGameEnd_fires now previous current Hprev Hcur) as (e & He & Hm).
    exists e. rewrite He.
    destruct (detectGameEnd_stamped now previous current e He) as (_ & Hp & _ & Hid).
    auto.
  - intros Hnot. rewrite gameEnds_detectCommonEvents.
    by rewrite detectGameEnd_silent.
  - rewrite gameEnds_detectCommonEvents. reflexivity.
Qed.

Lemma detectFinalPeriod_fires now previous current :
  g_period current = Some 4 -> previousNotInFourth previous ->
  exists e, detectFinalPeriod now previous current = Some e.
Proof.
  intros Hcur Hprev. unfold detectFinalPeriod. rewrite Hcur. simpl.
  destruct previous as [p|]; simpl in *; [|eauto].
  destruct (g_period p) as [q|]; [|eauto].
  destruct (Z.eqb_spec q 4) as [->|Hq]; [congruence | simpl; eauto].
Qed.

Lemma detectFinalPeriod_silent now previous current :
  ~ (g_period current = Some 4 /\ previousNotInFourth previous) ->
  detectFinalPeriod now previous current = None.
Proof.
  intros Hnot. unfold detectFinalPeriod.
  destruct (g_period current) as [c|] eqn:Hc; [|reflexivity].
  destruct (negb (truthyNum c)); [reflexivity|].
  destruct (Z.eqb_spec c 4) as [->|Hc4]; [|reflexivity].
  destruct previous as [p|]; simpl.
  - destruct (g_period p) as [q|] eqn:Hq.
    + destruct (Z.eqb_spec q 4) as [->|Hq4]; [reflexivity|].
      exfalso. apply Hnot. split; [reflexivity|]. simpl. rewrite Hq. congruence.
    + exfalso. apply Hnot. split; [reflexivity|]. simpl. rewrite Hq. congruence.
  - exfalso. apply Hnot. split; [reflexivity | exact I].
Qed.

(** X2. FINAL_PERIOD: for a LIVE current snapshot, exactly one event (priority
    MEDIUM) when the current period is 4 and the previous snapshot is
    absent or was not in period 4, none otherwise; for a current snapshot
    that is not LIVE, none. *)
Theorem final_period_exactly_on_entry :
  forall (now : Date) (previous : option Game) (current : Game),
    (g_status current = LIVE /\ g_period current = Some 4
     /\ previousNotInFourth previous ->
       exists e,
         eventsOfType FINAL_PERIOD (detectCommonEvents now previous current) = [e]
         /\ e_priority e = MEDIUM
         /\ e_id e = generateEventId (g_id current) FINAL_PERIOD None)
    /\ (~ (g_status current = LIVE /\ g_period current = Some 4
           /\ previousNotInFourth previous) ->
          eventsOfType FINAL_PERIOD (detectCommonEvents now previous current) = []).
Proof.
  intros now previous current. split.
  - intros (Hlive & Hcur & Hprev).
    rewrite finalPeriods_detectCommonEvents, (isGameLive_true _ Hlive).
    destruct (detectFinalPeriod_fires now previous current Hcur Hprev) as [e He].
    exists e. rewrite He.
    destruct (detectFinalPeriod_stamped now previous current e He)
      as (_ & Hp & _ & Hid).
    auto.
  - intros Hnot. rewrite finalPeriods_detectCommonEvents.
    destruct (decide (g_status current = LIVE)) as [Hlive|Hlive].
    + rewrite (isGameLive_true _ Hlive), detectFinalPeriod_silent; [reflexivity|].
      intros [? ?]. apply Hnot. auto.
    + by rewrite (isGameLive_false _ Hlive).
Qed.

Lemma statusChanges_detectCommonEvents t now old new :
  t = GAME_POSTPONED \/ t = GAME_CANCELLED ->
  eventsOfType t (detectCommonEvents now old new)
  = eventsOfType t (option_list (detectStatusChange now old new)).
Proof.
  intros Ht. rewrite eventsOfType_detect.
  destruct Ht as [-> | ->].
  - other_kinds now old new GAME_POSTPONED.
    destruct (isGameLive new); reflexivity.
  - other_kinds now old new GAME_CANCELLED.
    destruct (isGameLive new); reflexivity.
Qed.

(** X3. Postponement and cancellation: exactly one GAME_POSTPONED event
    (priority MEDIUM) when the current status is POSTPONED and the previous
    snapshot is absent or was not POSTPONED, none otherwise; the same for
    GAME_CANCELLED with CANCELLED. *)
Theorem status_change_exactly_on_transition :
  forall (now : Date) (previous : option Game) (current : Game),
    (g_status current = POSTPONED /\ previousStatusNot POSTPONED previous ->
       exists e,
         eventsOfType GAME_POSTPONED (detectCommonEvents now previous current) = [e]
         /\ e_priority e = MEDIUM
         /\ e_id e = generateEventId (g_id current) GAME_POSTPONED None)
    /\ (~ (g_status current = POSTPONED /\ previousStatusNot POSTPONED previous) ->
          eventsOfType GAME_POSTPONED (detectCommonEvents now previous current) = [])
    /\ (g_status current = CANCELLED /\ previousStatusNot CANCELLED previous ->
          exists e,
            eventsOfType GAME_CANCELLED (detectCommonEvents now previous current) = [e]
            /\ e_priority e = MEDIUM
            /\ e_id e = generateEventId (g_id current) GAME_CANCELLED None)
    /\ (~ (g_status current = CANCELLED /\ previousStatusNot CANCELLED previous) ->
          eventsOfType GAME_CANCELLED (detectCommonEvents now previous current) = []).
Proof.
  intros now previous current.
  rewrite !statusChanges_detectCommonEvents by auto.
  unfold detectStatusChange, eventsOfType.
  destruct (bool_decide_reflect (g_status current = POSTPONED)) as [Hp|Hp];
    destruct (bool_decide_reflect (g_status current = CANCELLED)) as [Hc|Hc];
    try congruence.
  - assert (Hprev : oldStatusIsNot previous POSTPONED = true
                    <-> previousStatusNot POSTPONED previous).
    { destruct previous as [p|]; simpl; [apply bool_decide_eq_true | tauto]. }
    destruct (oldStatusIsNot previous POSTPONED) eqn:Hold; simpl.
    + repeat split; try (intros [? ?]; congruence).
      * intros _. eexists. split; [reflexivity|]. auto.
      * intros Hnot. exfalso. apply Hnot. split; [assumption | by apply Hprev].
    + repeat split; try (intros [? ?]; congruence); try reflexivity.
      intros [_ H]. apply Hprev in H. discriminate.
  - assert (Hprev : oldStatusIsNot previous CANCELLED = true
                    <-> previousStatusNot CANCELLED previous).
    { destruct previous as [p|]; simpl; [apply bool_decide_eq_true | tauto]. }
    destruct (oldStatusIsNot previous CANCELLED) eqn:Hold; simpl.
    + repeat split; try (intros [? ?]; congruence).
      * intros _. eexists. split; [reflexivity|]. auto.
      * intros Hnot. exfalso. apply Hnot. split; [assumption | by apply Hprev].
    + repeat split; try (intros [? ?]; congruence); try reflexivity.
      intros [_ H]. apply Hprev in H. discriminate.
  - simpl. repeat split; try (intros [? ?]; congruence); reflexivity.
Qed.

Lemma detectBlowout_unchanged now g : detectBlowout now (Some g) g = None.
Proof.
  unfold detectBlowout. simpl.
  destruct (truthyNum (getPointDifferential g)); simpl; [|reflexivity].
  unfold EVENT_THRESHOLDS.BLOWOUT_POINT_DIFFERENTIAL.
  destruct (Z.ltb_spec (getPointDifferential g) 20) as [Hlt|Hge]; [reflexivity|].
  replace (getPointDifferential g >=? 20) with true
    by (symmetry; rewrite Z.geb_leb; apply Z.leb_le; lia).
  reflexivity.
Qed.

Lemma detectCloseGame_unchanged now g : detectCloseGame now (Some g) g = None.
Proof.
  unfold detectCloseGame. simpl.
  unfold EVENT_THRESHOLDS.CLOSE_GAME_POINT_DIFFERENTIAL.
  destruct (negb (truthyNum (getPointDifferential g))); simpl; [reflexivity|].
  rewrite Z.gtb_ltb.
  destruct (Z.ltb_spec 5 (getPointDifferential g)) as [Hlt|Hge]; [reflexivity|].
  destruct (beforeFinalPeriod (g_period g)); [reflexivity|].
  replace (getPointDifferential g <=? 5) with true
    by (symmetry; apply Z.leb_le; lia).
  reflexivity.
Qed.

Lemma detectCommonEvents_unchanged (now : Date) (g : Game) :
  detectCommonEvents now (Some g) g = [].
Proof.
  rewrite detectCommonEvents_eq.
  rewrite detectBlowout_unchanged, detectCloseGame_unchanged.
  assert (Hstart : detectGameStart now (Some g) g = None).
  { unfold detectGameStart. simpl.
    destruct (bool_decide_reflect (g_status g = LIVE)) as [H|H].
    - rewrite bool_decide_eq_false_2 by tauto. reflexivity.
    - by rewrite andb_false_r. }
  assert (Hend : detectGameEnd now (Some g) g = None).
  { apply detectGameEnd_silent. intros [(p & [= <-] & Hp) Hf]. congruence. }
  assert (Hfinal : detectFinalPeriod now (Some g) g = None).
  { apply detectFinalPeriod_silent. intros [H4 Hn]. simpl in Hn. congruence. }
  assert (Hstatus : detectStatusChange now (Some g) g = None).
  { unfold detectStatusChange. simpl.
    destruct (bool_decide_reflect (g_status g = POSTPONED)) as [H|H].
    - rewrite (bool_decide_eq_false_2 (g_status g <> POSTPONED)) by tauto. simpl.
      rewrite (bool_decide_eq_false_2 (g_status g = CANCELLED)) by congruence.
      reflexivity.
    - simpl. destruct (bool_decide_reflect (g_status g = CANCELLED)) as [H'|H'].
      + rewrite (bool_decide_eq_false_2 (g_status g <> CANCELLED)) by tauto.
        reflexivity.
      + reflexivity. }
  rewrite Hstart, Hend, Hfinal, Hstatus. by destruct (isGameLive g).
Qed.

(** X4. Polling an unchanged snapshot yields no event: when the fetched
    snapshot equals the stored one, [detectCommonEvents] returns the empty
    list, whatever the state of the game. *)
Theorem unchanged_snapshot_is_silent :
  forall (now : Date) (g : Game), detectCommonEvents now (Some g) g = [].
Proof. exact detectCommonEvents_unchanged. Qed.

Lemma detectGameStart_live now old new e :
  detectGameStart now old new = Some e -> g_status new = LIVE.
Proof.
  unfold detectGameStart.
  destruct (bool_decide_reflect (g_status new = LIVE)) as [H|H]; [auto|].
  by rewrite andb_false_r.
Qed.

Lemma detectGameEnd_final now old new e :
  detectGameEnd now old new = Some e -> g_status new = FINAL.
Proof.
  unfold detectGameEnd.
  destruct (bool_decide_reflect (g_status new = FINAL)) as [H|H]; [auto|].
  by rewrite andb_false_r.
Qed.

Lemma detectStatusChange_status now old new e :
  detectStatusChange now old new = Some e ->
  g_status new = POSTPONED \/ g_status new = CANCELLED.
Proof.
  unfold detectStatusChange.
  destruct (bool_decide_reflect (g_status new = POSTPONED)) as [H|H]; [auto|].
  destruct (bool_decide_reflect (g_status new = CANCELLED)) as [H'|H']; [auto|].
  discriminate.
Qed.

Lemma detectBlowout_wide now old new e :
  detectBlowout now old new = Some e -> 20 <= getPointDifferential new.
Proof.
  unfold detectBlowout, EVENT_THRESHOLDS.BLOWOUT_POINT_DIFFERENTIAL.
  destruct (Z.ltb_spec (getPointDifferential new) 20) as [Hlt|Hge]; [|auto].
  by rewrite orb_true_r.
Qed.

Lemma detectCloseGame_narrow now old new e :
  detectCloseGame now old new = Some e ->
  1 <= getPointDifferential new <= 5.
Proof.
  unfold detectCloseGame, EVENT_THRESHOLDS.CLOSE_GAME_POINT_DIFFERENTIAL, truthyNum.
  destruct (Z.eqb_spec (getPointDifferential new) 0) as [H0|H0]; [discriminate|].
  rewrite Z.gtb_ltb.
  destruct (Z.ltb_spec 5 (getPointDifferential new)) as [Hlt|Hge]; [discriminate|].
  intros _. unfold getPointDifferential in *. lia.
Qed.

Lemma length_option_list {A} (o : option A) : (length (option_list o) <= 1)%nat.
Proof. destruct o; simpl; lia. Qed.

(** X5. One poll yields at most three events, and never a blowout together
    with a close game; a current snapshot that is not LIVE yields at most
    one event. *)
Theorem at_most_three_events_per_poll :
  forall (now : Date) (previous : option Game) (current : Game),
    (length (detectCommonEvents now previous current) <= 3)%nat
    /\ (g_status current <> LIVE ->
        (length (detectCommonEvents now previous current) <= 1)%nat)
    /\ (eventsOfType BLOWOUT (detectCommonEvents now previous current) = []
        \/ eventsOfType CLOSE_GAME (detectCommonEvents now previous current) = []).
Proof.
  intros now previous current.
  assert (Hexcl : detectBlowout now previous current = None
                  \/ detectCloseGame now previous current = None).
  { destruct (detectBlowout now previous current) as [b|] eqn:Hb; [|auto].
    destruct (detectCloseGame now previous current) as [c|] eqn:Hc; [|auto].
    apply detectBlowout_wide in Hb. apply detectCloseGame_narrow in Hc. lia. }
  assert (Hnonlive : g_status current <> LIVE ->
            (length (detectCommonEvents now previous current) <= 1)%nat).
  { intros Hnl. rewrite detectCommonEvents_eq, (isGameLive_false _ Hnl).
    destruct (detectGameStart now previous current) as [s|] eqn:Hs.
    { apply detectGameStart_live in Hs. congruence. }
    destruct (detectGameEnd now previous current) as [en|] eqn:He;
      destruct (detectStatusChange now previous current) as [c|] eqn:Hc;
      simpl; try lia.
    apply detectGameEnd_final in He.
    apply detectStatusChange_status in Hc as [Hc|Hc]; congruence. }
  split; [|split; [exact Hnonlive|]].
  - destruct (decide (g_status current = LIVE)) as [Hlive|Hnl];
      [|specialize (Hnonlive Hnl); lia].
    rewrite detectCommonEvents_eq, (isGameLive_true _ Hlive).
    destruct (detectGameEnd now previous current) as [en|] eqn:He.
    { apply detectGameEnd_final in He. congruence. }
    destruct (detectStatusChange now previous current) as [c|] eqn:Hc.
    { apply detectStatusChange_status in Hc as [Hc|Hc]; congruence. }
    rewrite !length_app. simpl.
    pose proof (length_option_list (detectGameStart now previous current)).
    pose proof (length_option_list (detectFinalPeriod now previous current)).
    destruct Hexcl as [-> | ->]; simpl.
    + pose proof (length_option_list (detectCloseGame now previous current)). lia.
    + pose proof (length_option_list (detectBlowout now previous current)). lia.
  - rewrite blowouts_detectCommonEvents, closeGames_detectCommonEvents.
    destruct (isGameLive current); [|auto].
    destruct Hexcl as [-> | ->]; auto.
Qed.

(** X6. The first observation of a game is silent exactly when the game is
    SCHEDULED or FINAL: a game first seen LIVE, POSTPONED or CANCELLED
    yields an event at once, a game first seen finished yields none. *)
Theorem first_observation_silent_iff :
  forall (now : Date) (current : Game),
    detectCommonEvents now None current = []
    <-> g_status current = SCHEDULED \/ g_status current = FINAL.
Proof.
  intros now current. rewrite detectCommonEvents_eq.
  unfold detectGameStart, detectGameEnd, detectStatusChange, isGameLive. simpl.
  destruct (g_status current); simpl; split;
    try (intros [H|H]; discriminate H); try (intros H; discriminate H);
    try (intros _; auto); try reflexivity.
Qed.

Ltac fresh_cases :=
  repeat match goal with
  | |- context [if ?b then _ else _] => destruct b
  | |- context [match ?o with Some _ => _ | None => _ end] => destruct o
  end; intros ? [=]; subst; repeat split.

Lemma detectGameStart_fresh now old new e :
  detectGameStart now old new = Some e -> fresh now new e.
Proof. revert e. unfold fresh, detectGameStart. fresh_cases. Qed.

Lemma detectGameEnd_fresh now old new e :
  detectGameEnd now old new = Some e -> fresh now new e.
Proof. revert e. unfold fresh, detectGameEnd. cbv zeta. fresh_cases. Qed.

Lemma detectBlowout_fresh now old new e :
  detectBlowout now old new = Some e -> fresh now new e.
Proof. revert e. unfold fresh, detectBlowout. cbv zeta. fresh_cases. Qed.

Lemma detectCloseGame_fresh now old new e :
  detectCloseGame now old new = Some e -> fresh now new e.
Proof. revert e. unfold fresh, detectCloseGame. cbv zeta. fresh_cases. Qed.

Lemma detectFinalPeriod_fresh now old new e :
  detectFinalPeriod now old new = Some e -> fresh now new e.
Proof. revert e. unfold fresh, detectFinalPeriod. cbv zeta. fresh_cases. Qed.

Lemma detectStatusChange_fresh now old new e :
  detectStatusChange now old new = Some e -> fresh now new e.
Proof. revert e. unfold fresh, detectStatusChange. fresh_cases. Qed.

Lemma Forall_option_list {A} (P : A -> Prop) (o : option A) :
  (forall a, o = Some a -> P a) -> Forall P (option_list o).
Proof. destruct o; simpl; intros H; constructor; auto. Qed.

(** X7. Every detected event is ready for the engine: not yet notified,
    stamped with the detection time, tied to the game and its sport,
    addressed to the two teams of the game, and of a priority for which
    [shouldNotify] holds. *)
Theorem detected_events_are_fresh :
  forall (now : Date) (previous : option Game) (current : Game),
    Forall
      (fun e =>
         e_notified e = false
         /\ e_notifiedAt e = None
         /\ e_detectedAt e = now
         /\ e_sport e = g_sport current
         /\ e_gameId e = g_id current
         /\ e_targetAudience e
            = Some (mkAudience None None
                      (Some [g_homeAbbr current; g_awayAbbr current]) None)
         /\ shouldNotify e = true)
      (detectCommonEvents now previous current).
Proof.
  intros now previous current. change (Forall (fresh now current)
    (detectCommonEvents now previous current)).
  rewrite detectCommonEvents_eq. repeat apply Forall_app_2.
  - apply Forall_option_list. intros e. apply detectGameStart_fresh.
  - apply Forall_option_list. intros e. apply detectGameEnd_fresh.
  - destruct (isGameLive current); [repeat apply Forall_app_2|constructor].
    + apply Forall_option_list. intros e. apply detectBlowout_fresh.
    + apply Forall_option_list. intros e. apply detectCloseGame_fresh.
    + apply Forall_option_list. intros e. apply detectFinalPeriod_fresh.
  - apply Forall_option_list. intros e. apply detectStatusChange_fresh.
Qed.

Lemma detectCloseGame_silent now previous current :
  ~ (1 <= Z.abs (g_homeScore current - g_awayScore current) <= 5
     /\ (exists p, g_period current = Some p /\ 4 <= p)
     /\ previousAboveClose previous) ->
  detectCloseGame now previous current = None.
Proof.
  intros Hnot.
  destruct (detectCloseGame now previous current) as [e|] eqn:He; [|reflexivity].
  exfalso. apply Hnot. pose proof (detectCloseGame_narrow _ _ _ _ He) as Hd.
  unfold detectCloseGame, EVENT_THRESHOLDS.CLOSE_GAME_POINT_DIFFERENTIAL in He.
  destruct (_ || _); [discriminate|].
  unfold beforeFinalPeriod, truthyNum in He.
  destruct (g_period current) as [p|]; [|discriminate].
  destruct (Z.eqb_spec p 0) as [Hp0|Hp0]; [discriminate|]. simpl in He.
  destruct (Z.ltb_spec p 4) as [Hp4|Hp4]; [discriminate|].
  split; [exact Hd|]. split; [by exists p|].
  destruct previous as [q|]; simpl in *; [|exact I].
  unfold getPointDifferential in He.
  destruct (Z.leb_spec (Z.abs (g_homeScore q - g_awayScore q)) 5); [discriminate|].
  lia.
Qed.

(** X8. CLOSE_GAME as the code decides it: for a LIVE current snapshot,
    exactly one event when the differential is between 1 and 5, the
    period is 4 or later and the previous differential (if any) was above
    5; none otherwise. The period of the previous snapshot plays no part:
    a game already within 5 points before the final period yields no
    close-game event on entering it. *)
Theorem close_game_exactly :
  forall (now : Date) (previous : option Game) (current : Game),
    let fires :=
      g_status current = LIVE
      /\ 1 <= Z.abs (g_homeScore current - g_awayScore current) <= 5
      /\ (exists p, g_period current = Some p /\ 4 <= p)
      /\ previousAboveClose previous in
    (fires ->
       exists e,
         eventsOfType CLOSE_GAME (detectCommonEvents now previous current) = [e]
         /\ e_priority e = HIGH
         /\ e_id e = generateEventId (g_id current) CLOSE_GAME None)
    /\ (~ fires ->
          eventsOfType CLOSE_GAME (detectCommonEvents now previous current) = [])
    /\ (forall p, previous = Some p ->
          Z.abs (g_homeScore p - g_awayScore p) <= 5 ->
          eventsOfType CLOSE_GAME (detectCommonEvents now previous current) = []).
Proof.
  intros now previous current fires.
  assert (Hsilent : ~ fires ->
            eventsOfType CLOSE_GAME (detectCommonEvents now previous current) = []).
  { intros Hnot. rewrite closeGames_detectCommonEvents.
    destruct (decide (g_status current = LIVE)) as [Hlive|Hlive].
    - rewrite (isGameLive_true _ Hlive), detectCloseGame_silent; [reflexivity|].
      intros H. apply Hnot. split; assumption.
    - by rewrite (isGameLive_false _ Hlive). }
  split; [|split; [exact Hsilent|]].
  - intros (Hlive & Hd & (p & Hp & Hp4) & Hprev).
    rewrite closeGames_detectCommonEvents, (isGameLive_true _ Hlive).
    destruct (detectCloseGame_fires now previous current p Hd Hp Hp4 Hprev)
      as [e He].
    exists e. rewrite He.
    destruct (detectCloseGame_stamped now previous current e He)
      as (_ & Hpr & _ & Hid).
    auto.
  - intros p -> Hclose. apply Hsilent. intros (_ & _ & _ & Hprev).
    simpl in Hprev. lia.
Qed.

(** * The NBA provider *)

Lemma ids_NoDup_of_kinds gameId (events : list Event) :
  Forall (fun e => e_id e = generateEventId gameId (e_type e) None) events ->
  NoDup (map e_type events) -> NoDup (map e_id events).
Proof.
  intros Hids Hkinds.
  replace (map e_id events)
    with ((fun t => generateEventId gameId t None) <$> map e_type events).
  - by apply (@NoDup_fmap_2 _ _ _ (generateEventId_Inj gameId)).
  - clear Hkinds. induction Hids as [|e l He _ IH]; [reflexivity|].
    simpl. f_equal; [by rewrite He | exact IH].
Qed.

Lemma notYetOvertime_spec previous :
  notYetOvertime previous = true <-> previousInRegulation previous.
Proof.
  unfold notYetOvertime, previousInRegulation, truthyNum.
  destruct previous as [p|]; [|tauto].
  destruct (g_period p) as [q|]; [|tauto].
  destruct (Z.eqb_spec q 0) as [->|Hq]; simpl; [split; [lia|auto]|].
  apply Z.leb_le.
Qed.

(** X9. OVERTIME in the NBA provider: the provider returns the common events
    and appends exactly one OVERTIME event (priority HIGH) when the current
    period is beyond the fourth and the previous snapshot is absent, has
    no period, or was in period 4 or earlier; otherwise it returns the
    common events unchanged. The status of the game plays no part. The
    identifiers of the returned events are pairwise distinct. *)
Theorem overtime_exactly_on_entry :
  forall (now : Date) (previous : option Game) (current : Game),
    let fires :=
      (exists p, g_period current = Some p /\ 4 < p)
      /\ previousInRegulation previous in
    (fires ->
       exists e,
         nbaDetectEvents now previous current
         = detectCommonEvents now previous current ++ [e]
         /\ e_type e = OVERTIME
         /\ e_priority e = HIGH
         /\ e_id e = generateEventId (g_id current) OVERTIME None)
    /\ (~ fires ->
          nbaDetectEvents now previous current
          = detectCommonEvents now previous current)
    /\ NoDup (map e_id (nbaDetectEvents now previous current)).
Proof.
  intros now previous current fires.
  assert (Hcond : (match g_period current with
                   | Some p => truthyNum p && (p >? 4)
                   | None => false
                   end) && notYetOvertime previous = true <-> fires).
  { unfold fires. rewrite andb_true_iff, notYetOvertime_spec.
    destruct (g_period current) as [p|].
    - unfold truthyNum. rewrite andb_true_iff, negb_true_iff, Z.eqb_neq, Z.gtb_ltb,
        Z.ltb_lt.
      split.
      + intros [[_ Hp] Hprev]. split; [by exists p | exact Hprev].
      + intros [(q & [= <-] & Hq) Hprev]. repeat split; [lia | lia | exact Hprev].
    - split; [intros [H _]; discriminate|].
      intros [(q & Hq & _) _]. discriminate. }
  unfold nbaDetectEvents.
  destruct (match g_period current with
            | Some p => truthyNum p && (p >? 4)
            | None => false
            end) eqn:Hot;
    destruct (notYetOvertime previous) eqn:Hprev; simpl in Hcond.
  2-4: assert (Hno : ~ fires) by (intros H; apply Hcond in H; discriminate).
  2-4: split; [intros H; contradiction|]; split; [reflexivity|].
  2-4: apply (ids_NoDup_of_kinds (g_id current));
    [ eapply Forall_impl; [apply detectCommonEvents_ids|]; by intros e [? _]
    | destruct (detectCommonEvents_kinds now previous current)
        as (last & Hlast & Hsub);
      eapply sublist_NoDup; [|exact Hsub];
      destruct Hlast as [-> | ->]; apply (bool_decide_unpack _); vm_compute;
      exact I ].
  split; [|split].
  - intros _. eexists. split; [reflexivity|]. auto.
  - intros Hno. exfalso. apply Hno, Hcond. reflexivity.
  - apply (ids_NoDup_of_kinds (g_id current)).
    + apply Forall_app_2.
      * eapply Forall_impl; [apply detectCommonEvents_ids|]. by intros e [? _].
      * by repeat constructor.
    + rewrite map_app. simpl.
      destruct (detectCommonEvents_kinds now previous current)
        as (last & Hlast & Hsub).
      eapply sublist_NoDup;
        [|apply (sublist_app _ _ [OVERTIME] [OVERTIME] Hsub); reflexivity].
      destruct Hlast as [-> | ->]; apply (bool_decide_unpack _); vm_compute;
        exact I.
Qed.

(** * Event identifiers *)

Lemma list_ascii_of_string_app (a b : string) :
  list_ascii_of_string (a +:+ b) = list_ascii_of_string a ++ list_ascii_of_string b.
Proof. induction a as [|c a IH]; simpl; [reflexivity | by rewrite IH]. Qed.

Lemma list_ascii_of_string_inj (a b : string) :
  list_ascii_of_string a = list_ascii_of_string b -> a = b.
Proof.
  intros H. rewrite <- (string_of_list_ascii_of_string a),
    <- (string_of_list_ascii_of_string b). by rewrite H.
Qed.

Lemma append_assoc_string (a b c : string) :
  (a +:+ b) +:+ c = a +:+ (b +:+ c).
Proof.
  induction a as [|x a IH]; [reflexivity|].
  change (String x ((a +:+ b) +:+ c) = String x (a +:+ (b +:+ c))).
  by rewrite IH.
Qed.

(** No kind tail is the end of another one. *)
Lemma kindTail_suffix t1 t2 : kindTail t1 `suffix_of` kindTail t2 -> t1 = t2.
Proof.
  destruct (decide (t1 = t2)) as [|Hne]; [auto|]. intros Hsuf. exfalso.
  revert Hsuf. destruct t1, t2; try congruence;
    apply (bool_decide_unpack _); vm_compute; exact I.
Qed.

(** X10. Identifiers without a suffix determine the game and the kind: two
    events share an identifier only if they are of the same game and the
    same kind. An empty suffix is ignored. With a non-empty suffix this is
    lost: the identifier of game [a] for PLAYOFF_GAME with suffix [START]
    is the identifier of game [a_PLAYOFF] for GAME_START. *)
Theorem event_id_determines_game_and_kind :
  (forall (gameId1 gameId2 : string) (t1 t2 : EventType),
     generateEventId gameId1 t1 None = generateEventId gameId2 t2 None
     <-> gameId1 = gameId2 /\ t1 = t2)
  /\ (forall (gameId : string) (t : EventType),
        generateEventId gameId t (Some "") = generateEventId gameId t None)
  /\ (forall (gameId : string) (t : EventType) (s : string), s <> "" ->
        generateEventId gameId t (Some s)
        = generateEventId gameId t None +:+ "_" +:+ s)
  /\ generateEventId "a" PLAYOFF_GAME (Some "START")
     = generateEventId "a_PLAYOFF" GAME_START None.
Proof.
  split; [|split; [|split]].
  - intros gameId1 gameId2 t1 t2. split; [|by intros [-> ->]].
    rewrite !generateEventId_plain. intros H.
    apply (f_equal list_ascii_of_string) in H.
    rewrite !list_ascii_of_string_app in H.
    fold (list_ascii_of_string ("_" +:+ eventTypeName t1)) in H.
    change (list_ascii_of_string "_" ++ list_ascii_of_string (eventTypeName t1))
      with (kindTail t1) in H.
    change (list_ascii_of_string "_" ++ list_ascii_of_string (eventTypeName t2))
      with (kindTail t2) in H.
    assert (Ht : t1 = t2).
    { assert (H1 : kindTail t1 `suffix_of`
                     list_ascii_of_string gameId1 ++ kindTail t1)
        by apply suffix_app_r, reflexivity.
      assert (H2 : kindTail t2 `suffix_of`
                     list_ascii_of_string gameId1 ++ kindTail t1)
        by (rewrite H; apply suffix_app_r; reflexivity).
      destruct (suffix_weak_total _ _ _ H1 H2) as [Hs|Hs].
      - by apply kindTail_suffix.
      - symmetry. by apply kindTail_suffix. }
    split; [|exact Ht]. subst t2.
    apply app_inv_tail in H. by apply list_ascii_of_string_inj.
  - reflexivity.
  - intros gameId t s Hs. unfold generateEventId.
    assert (Htr : truthyStr s = true)
      by (unfold truthyStr; apply negb_true_iff, String.eqb_neq; exact Hs).
    rewrite Htr. cbn [app String.concat].
    by rewrite !append_assoc_string.
  - reflexivity.
Qed.

(** * Further properties of the subscriber filter *)

Lemma rivalryMode_no_codes sp : rivalryMode sp None = None.
Proof.
  unfold rivalryMode. by destruct (sp_favoriteTeam sp), (sp_rivalTeams sp).
Qed.

Lemma existsb_kind_In (eventType : EventType) (l : list EventType) :
  existsb (fun t => bool_decide (t = eventType)) l = true <-> In eventType l.
Proof.
  rewrite existsb_exists. split.
  - intros (t & Hin & Ht). apply bool_decide_eq_true in Ht. by subst.
  - intros Hin. exists eventType. split; [exact Hin|]. by apply bool_decide_eq_true.
Qed.

(** The verdict without team codes, as a conjunction of the switches. *)
Lemma shouldNotifyUser_no_codes prefs sport eventType now :
  shouldNotifyUser prefs sport eventType None now
  = up_enabled prefs
    && match up_sports prefs sport with
       | Some sp => sp_enabled sp && kindAllowed sp eventType
       | None => false
       end
    && negb (kindDenied prefs eventType)
    && negb (inQuietHours (up_quietHours prefs) now).
Proof.
  unfold shouldNotifyUser, kindAllowed, kindDenied.
  destruct (up_enabled prefs); [|reflexivity]. simpl.
  destruct (up_sports prefs sport) as [sp|]; [|reflexivity].
  rewrite rivalryMode_no_codes.
  destruct (sp_enabled sp); [|reflexivity]. simpl.
  destruct (sp_eventTypes sp) as [kinds|];
    [destruct (existsb _ kinds); [|reflexivity]|]; simpl;
    (destruct (up_eventTypePreferences prefs) as [m|];
     [destruct (m eventType) as [[|]|]|]); simpl;
    by destruct (inQuietHours (up_quietHours prefs) now).
Qed.

Lemma kindAllowed_spec sp eventType :
  kindAllowed sp eventType = true
  <-> forall kinds, sp_eventTypes sp = Some kinds -> In eventType kinds.
Proof.
  unfold kindAllowed. destruct (sp_eventTypes sp) as [l|].
  - rewrite existsb_kind_In. split; [by intros H k [= <-] | auto].
  - split; [by intros _ k | reflexivity].
Qed.

Lemma kindDenied_spec prefs eventType :
  kindDenied prefs eventType = false
  <-> forall m, up_eventTypePreferences prefs = Some m -> m eventType <> Some false.
Proof.
  unfold kindDenied. destruct (up_eventTypePreferences prefs) as [m|].
  - destruct (m eventType) as [[|]|] eqn:Hm; split; try discriminate;
      try (intros _ m' [= <-]; congruence); try reflexivity.
    intros H. exfalso. by apply (H m).
  - split; [by intros _ m | reflexivity].
Qed.

(** X11. Without team codes no team check is made, rivalry mode included: the
    subscriber is notified exactly when the master switch is on, the sport
    entry exists and is enabled, the kind is in the sport's allow-list (if
    there is one), the global per-kind map does not say [false] for the
    kind, and the quiet-hours block does not reject. An explicit [false]
    in the global map therefore wins over the allow-list. *)
Theorem without_team_codes_only_switches_count :
  forall (prefs : UserPreferences) (sport : Sport) (eventType : EventType)
         (now : LocalTime),
    shouldNotifyUser prefs sport eventType None now = true
    <-> up_enabled prefs = true
        /\ (exists sp,
              up_sports prefs sport = Some sp
              /\ sp_enabled sp = true
              /\ (forall kinds, sp_eventTypes sp = Some kinds -> In eventType kinds))
        /\ (forall m, up_eventTypePreferences prefs = Some m ->
              m eventType <> Some false)
        /\ inQuietHours (up_quietHours prefs) now = false.
Proof.
  intros prefs sport eventType now.
  rewrite shouldNotifyUser_no_codes, !andb_true_iff, !negb_true_iff.
  rewrite kindDenied_spec.
  split.
  - intros [[[Hen Hsp] Hden] Hq]. repeat split; try assumption.
    destruct (up_sports prefs sport) as [sp|]; [|discriminate].
    apply andb_true_iff in Hsp as [He Ha]. exists sp.
    repeat split; [exact He | by apply kindAllowed_spec].
  - intros (Hen & (sp & Hsp & He & Ha) & Hden & Hq). repeat split; try assumption.
    rewrite Hsp, He. by apply kindAllowed_spec.
Qed.

Lemma existsb_includes_In teams ids :
  existsb (includes teams) ids = true -> exists t, In t ids /\ In t teams.
Proof.
  rewrite existsb_exists. intros (t & Hin & Hinc). exists t.
  split; [exact Hin | by apply includes_In].
Qed.

(** X12. Team codes only restrict. A subscriber notified for an event with
    team codes is also notified for the same event without them; and
    outside rivalry mode (no favourite, an empty favourite, or no rival
    list), a configured legacy list must hold one of the codes. *)
Theorem team_codes_only_restrict :
  forall (prefs : UserPreferences) (sport : Sport) (eventType : EventType)
         (ids : list string) (now : LocalTime),
    shouldNotifyUser prefs sport eventType (Some ids) now = true ->
    shouldNotifyUser prefs sport eventType None now = true
    /\ (forall sp teams,
          up_sports prefs sport = Some sp ->
          sp_favoriteTeam sp = None \/ sp_favoriteTeam sp = Some ""
          \/ sp_rivalTeams sp = None ->
          sp_teams sp = Some teams ->
          exists t, In t ids /\ In t teams).
Proof.
  intros prefs sport eventType ids now Hyes. split.
  - unfold shouldNotifyUser in *.
    destruct (negb (up_enabled prefs)); [discriminate|].
    destruct (up_sports prefs sport) as [sp|]; [|discriminate].
    destruct (negb (sp_enabled sp)); [discriminate|].
    rewrite rivalryMode_no_codes.
    destruct (rivalryMode sp (Some ids)) as [[[f r] i]|]; cbv zeta in Hyes.
    + destruct (negb _); [discriminate | exact Hyes].
    + destruct (sp_teams sp) as [teams|]; [|exact Hyes].
      destruct (negb _); [discriminate | exact Hyes].
  - intros sp teams Hsp Hlegacy Hteams. unfold shouldNotifyUser in Hyes.
    destruct (negb (up_enabled prefs)); [discriminate|].
    rewrite Hsp in Hyes. destruct (negb (sp_enabled sp)); [discriminate|].
    assert (Hmode : rivalryMode sp (Some ids) = None).
    { unfold rivalryMode. destruct Hlegacy as [-> | [-> | ->]]; [reflexivity| |].
      - by destruct (sp_rivalTeams sp).
      - by destruct (sp_favoriteTeam sp). }
    rewrite Hmode, Hteams in Hyes. cbv zeta in Hyes.
    destruct (existsb (includes teams) ids) eqn:Hex; [|discriminate].
    by apply existsb_includes_In.
Qed.

(** [team_codes_only_restrict] at the sample subscriber of the legacy kind. *)
Lemma team_codes_only_restrict_witness :
  let follower :=
    subscriber "u4" "token-u4"
      (mkSportPrefs true (Some ["LAL"; "MIA"]) None None None) None in
  shouldNotifyUser follower NBA BLOWOUT (Some ["LAL"; "BOS"]) (mkLocalTime 9 0) = true
  /\ shouldNotifyUser follower NBA BLOWOUT None (mkLocalTime 9 0) = true.
Proof.
  split; [reflexivity|].
  exact (proj1 (team_codes_only_restrict
                  (subscriber "u4" "token-u4"
                     (mkSportPrefs true (Some ["LAL"; "MIA"]) None None None) None)
                  NBA BLOWOUT ["LAL"; "BOS"] (mkLocalTime 9 0) eq_refl)).
Defined.

(** X13. [createDefaultPreferences] never returns preferences: for every
    user, token and platform the call throws while the object is built,
    because the key [Sport.NBA] reads a member of [Sport], which the module
    imports from [./Event], and that module exports no [Sport] (the enum
    is exported by [./Game], from which the same expression evaluates). *)
Theorem default_preferences_never_created :
  (forall (created : Date) (userId fcmToken : string) (platform : option Platform),
     createDefaultPreferences created userId fcmToken platform = Throw)
  /\ sportMember eventModuleExports NBA = Throw
  /\ sportMember gameModuleExports NBA = Ok NBA.
Proof.
  split; [|split].
  - intros created userId fcmToken platform. unfold createDefaultPreferences.
    assert (Hkey : sportMember eventModuleExports NBA = Throw) by reflexivity.
    by rewrite Hkey.
  - reflexivity.
  - reflexivity.
Qed.

(** * Deduplication of subscribers *)

Lemma dedupLoop_acc users seen unique :
  dedupLoop users seen unique = unique ++ dedupLoop users seen [].
Proof.
  revert seen unique. induction users as [|u rest IH]; intros seen unique; simpl.
  - by rewrite app_nil_r.
  - destruct (decide (up_userId u ∈ seen)); [apply IH|].
    rewrite (IH _ (unique ++ [u])), (IH _ [u]). by rewrite <- app_assoc.
Qed.

Lemma dedupLoop_cons u rest seen :
  dedupLoop (u :: rest) seen []
  = if decide (up_userId u ∈ seen) then dedupLoop rest seen []
    else u :: dedupLoop rest ({[up_userId u]} ∪ seen) [].
Proof.
  simpl. destruct (decide (up_userId u ∈ seen)); [reflexivity|].
  by rewrite dedupLoop_acc.
Qed.

Lemma dedupLoop_sublist users seen :
  dedupLoop users seen [] `sublist_of` users.
Proof.
  revert seen. induction users as [|u rest IH]; intros seen; [reflexivity|].
  rewrite dedupLoop_cons. destruct (decide (up_userId u ∈ seen)).
  - apply sublist_cons, IH.
  - apply sublist_skip, IH.
Qed.

Lemma dedupLoop_unseen users seen u :
  In u (dedupLoop users seen []) -> up_userId u ∉ seen.
Proof.
  revert seen. induction users as [|v rest IH]; intros seen; [intros []|].
  rewrite dedupLoop_cons. destruct (decide (up_userId v ∈ seen)).
  - apply IH.
  - intros [<- | Hin]; [assumption|]. apply IH in Hin. set_solver.
Qed.

Lemma dedupLoop_NoDup users seen :
  NoDup (map up_userId (dedupLoop users seen [])).
Proof.
  revert seen. induction users as [|u rest IH]; intros seen; [constructor|].
  rewrite dedupLoop_cons. destruct (decide (up_userId u ∈ seen)); [apply IH|].
  simpl. constructor; [|apply IH].
  intros Hin. apply list_elem_of_In, in_map_iff in Hin as (v & Hid & Hv).
  apply dedupLoop_unseen in Hv. set_solver.
Qed.

Lemma dedupLoop_covers users seen u :
  In u users ->
  up_userId u ∈ seen \/ In (up_userId u) (map up_userId (dedupLoop users seen [])).
Proof.
  revert seen. induction users as [|v rest IH]; intros seen; [intros []|].
  rewrite dedupLoop_cons. intros [-> | Hin].
  - destruct (decide (up_userId u ∈ seen)); [auto | right; simpl; auto].
  - destruct (decide (up_userId v ∈ seen)); [by apply IH|].
    destruct (IH ({[up_userId v]} ∪ seen) Hin) as [Hs|Hd].
    + apply elem_of_union in Hs as [Hs|Hs]; [|auto].
      apply elem_of_singleton in Hs. right. simpl. auto.
    + right. simpl. auto.
Qed.

Lemma dedupLoop_id users seen :
  NoDup (map up_userId users) ->
  (forall u, In u users -> up_userId u ∉ seen) ->
  dedupLoop users seen [] = users.
Proof.
  revert seen. induction users as [|u rest IH]; intros seen Hnd Hfresh;
    [reflexivity|].
  rewrite dedupLoop_cons. simpl in Hnd. apply NoDup_cons in Hnd as [Hu Hnd].
  destruct (decide (up_userId u ∈ seen)) as [Hin|_].
  - exfalso. apply (Hfresh u); simpl; auto.
  - f_equal. apply IH; [exact Hnd|]. intros v Hv Hs.
    apply elem_of_union in Hs as [Hs|Hs].
    + apply elem_of_singleton in Hs. apply Hu. rewrite <- Hs.
      apply list_elem_of_In, in_map. exact Hv.
    + apply (Hfresh v); simpl; auto.
Qed.

(** X14. [deduplicateUsers] keeps the first document of every [userId]: the
    result is a sublist of the input (order kept), its userIds are
    pairwise distinct, every userId of the input occurs in it, it starts
    with the first document of the input, and an input without repeated
    userIds is returned as it is. *)
Theorem deduplicate_users_keeps_first :
  forall users : list UserPreferences,
    deduplicateUsers users `sublist_of` users
    /\ NoDup (map up_userId (deduplicateUsers users))
    /\ (forall u, In u users ->
          In (up_userId u) (map up_userId (deduplicateUsers users)))
    /\ head (deduplicateUsers users) = head users
    /\ (NoDup (map up_userId users) -> deduplicateUsers users = users).
Proof.
  intros users. unfold deduplicateUsers. repeat split.
  - apply dedupLoop_sublist.
  - apply dedupLoop_NoDup.
  - intros u Hin. destruct (dedupLoop_covers users ∅ u Hin) as [H|H];
      [set_solver | exact H].
  - destruct users as [|u rest]; [reflexivity|]. rewrite dedupLoop_cons.
    destruct (decide (up_userId u ∈ (∅ : gset string))); [set_solver | reflexivity].
  - intros Hnd. apply dedupLoop_id; [exact Hnd | set_solver].
Qed.

(** * Effects of the services, relation by relation *)

Section Respects.
Variable env : Env.
Variable R : World -> World -> Prop.
Hypothesis R_refl : forall w, R w w.
Hypothesis R_trans : forall w1 w2 w3, R w1 w2 -> R w2 w3 -> R w1 w3.
Hypothesis R_tick : forall w, R w (tick w).

Lemma respects_ret {A} (a : A) : respects R (ret a).
Proof. intros w. apply R_refl. Qed.

Lemma respects_throw {A} : respects R (@throw World A).
Proof. intros w. apply R_refl. Qed.

Lemma respects_getState : respects R getState.
Proof. intros w. apply R_refl. Qed.

Lemma respects_bind {A B} (m : M World A) (k : A -> M World B) :
  respects R m -> (forall a, respects R (k a)) -> respects R (bind m k).
Proof.
  intros Hm Hk w. unfold bind. specialize (Hm w).
  destruct (m w) as [[a|] w1]; simpl in *; [|exact Hm].
  eapply R_trans; [exact Hm | apply Hk].
Qed.

Lemma respects_tryCatch {A} (m handler : M World A) :
  respects R m -> respects R handler -> respects R (tryCatch m handler).
Proof.
  intros Hm Hh w. unfold tryCatch. specialize (Hm w).
  destruct (m w) as [[a|] w1]; simpl in *; [exact Hm|].
  eapply R_trans; [exact Hm | apply Hh].
Qed.

Lemma respects_remote {A} (body : M World A) :
  respects R body -> respects R (remote env body).
Proof.
  intros Hb w. unfold remote. destruct (faults env (w_tick w)); simpl.
  - apply R_tick.
  - eapply R_trans; [apply R_tick | apply Hb].
Qed.

Lemma respects_newLocalTime : respects R (newLocalTime env).
Proof. intros w. apply R_tick. Qed.

Lemma respects_timestampNow : respects R (timestampNow env).
Proof. intros w. apply R_tick. Qed.

Hypothesis R_lookup :
  forall w c,
    (match c with
     | CGetEvent _ | CGetPreferences _ | CGetUsersByTeam _
     | CGetTargetUsers _ | CSendEachForMulticast _ => True
     | _ => False
     end) ->
    R w (mkWorld (w_events w) (w_tick w) (w_calls w ++ [c])).

Lemma respects_record c :
  (match c with
   | CGetEvent _ | CGetPreferences _ | CGetUsersByTeam _
   | CGetTargetUsers _ | CSendEachForMulticast _ => True
   | _ => False
   end) ->
  respects R (record c).
Proof. intros Hc w. by apply R_lookup. Qed.

Lemma respects_getEvent i : respects R (getEvent env i).
Proof.
  unfold getEvent. apply respects_bind; [by apply respects_record|]. intros _.
  apply respects_tryCatch; [|apply respects_throw].
  apply respects_remote, respects_bind; [apply respects_getState|]. intros w.
  apply respects_ret.
Qed.

Lemma respects_getPreferences userId : respects R (getPreferences env userId).
Proof.
  unfold getPreferences. apply respects_bind; [by apply respects_record|].
  intros _. apply respects_tryCatch; [|apply respects_throw].
  apply respects_remote, respects_ret.
Qed.

Lemma respects_getUsersByTeam teamId : respects R (getUsersByTeam env teamId).
Proof.
  unfold getUsersByTeam. apply respects_bind; [by apply respects_record|].
  intros _. apply respects_tryCatch; [|apply respects_throw].
  apply respects_remote, respects_ret.
Qed.

Lemma respects_collectPreferences userIds users :
  respects R (collectPreferences env userIds users).
Proof.
  revert users. induction userIds as [|u rest IH]; intros users; simpl.
  - apply respects_ret.
  - apply respects_bind; [apply respects_getPreferences|]. intros prefs. apply IH.
Qed.

Lemma respects_collectTeamUsers teams allUsers :
  respects R (collectTeamUsers env teams allUsers).
Proof.
  revert allUsers. induction teams as [|t rest IH]; intros allUsers; simpl.
  - apply respects_ret.
  - apply respects_bind; [apply respects_getUsersByTeam|]. intros us. apply IH.
Qed.

Lemma respects_filterUsers users sport eventType teams :
  respects R (filterUsers env users sport eventType teams).
Proof.
  induction users as [|u rest IH]; simpl.
  - apply respects_ret.
  - apply respects_bind; [apply respects_newLocalTime|]. intros now.
    apply respects_bind; [apply IH|]. intros kept. apply respects_ret.
Qed.

Lemma respects_getTargetUsers event : respects R (getTargetUsers env event).
Proof.
  unfold getTargetUsers. apply respects_bind; [by apply respects_record|].
  intros _. apply respects_tryCatch; [|apply respects_throw].
  destruct (default false _); [apply respects_ret|].
  destruct (e_targetAudience event ≫= ta_userIds) as [[|u us]|].
  2: apply respects_collectPreferences.
  all: destruct (e_targetAudience event ≫= ta_teams) as [[|t ts]|];
    try apply respects_ret.
  all: apply respects_bind; [apply respects_collectTeamUsers|]; intros allUsers;
    apply respects_filterUsers.
Qed.

Lemma respects_sendEachForMulticast tokens :
  respects R (sendEachForMulticast env tokens).
Proof.
  unfold sendEachForMulticast. apply respects_bind; [by apply respects_record|].
  intros _ w. destruct (faults env (w_tick w)); apply R_tick.
Qed.

Lemma respects_sendBatches batches ts tf invalid :
  respects R (sendBatches env batches ts tf invalid).
Proof.
  revert ts tf invalid. induction batches as [|b rest IH]; intros ts tf invalid.
  - apply respects_ret.
  - cbn [sendBatches]. apply respects_bind; [apply respects_sendEachForMulticast|].
    intros response. apply IH.
Qed.

Lemma respects_sendBatchNotifications tokens payload options :
  respects R (sendBatchNotifications env tokens payload options).
Proof.
  unfold sendBatchNotifications. apply respects_tryCatch; [|apply respects_throw].
  destruct (length tokens =? 0)%nat; [apply respects_ret | apply respects_sendBatches].
Qed.
End Respects.

Lemma dispatchesOf_app l1 l2 :
  dispatchesOf (l1 ++ l2) = dispatchesOf l1 ++ dispatchesOf l2.
Proof. unfold dispatchesOf. apply flat_map_app. Qed.

Lemma silent_refl w : silent w w.
Proof. split; [reflexivity|]. exists []. by rewrite app_nil_r. Qed.

Lemma silent_trans w1 w2 w3 : silent w1 w2 -> silent w2 w3 -> silent w1 w3.
Proof.
  intros [He1 (n1 & Hc1 & Hd1)] [He2 (n2 & Hc2 & Hd2)]. split; [congruence|].
  exists (n1 ++ n2). split; [by rewrite Hc2, Hc1, app_assoc|].
  by rewrite dispatchesOf_app, Hd1, Hd2.
Qed.

Lemma silent_tick w : silent w (tick w).
Proof. split; [reflexivity|]. exists []. simpl. by rewrite app_nil_r. Qed.

Lemma silent_lookup w c :
  (match c with
   | CGetEvent _ | CGetPreferences _ | CGetUsersByTeam _
   | CGetTargetUsers _ | CSendEachForMulticast _ => True
   | _ => False
   end) ->
  silent w (mkWorld (w_events w) (w_tick w) (w_calls w ++ [c])).
Proof.
  intros Hc. split; [reflexivity|]. exists [c]. split; [reflexivity|].
  by destruct c.
Qed.

Lemma getEvent_silent env i : respects silent (getEvent env i).
Proof.
  apply respects_getEvent;
    first [ exact silent_refl | exact silent_trans | exact silent_tick
          | exact silent_lookup ].
Qed.

Lemma getTargetUsers_silent env event : respects silent (getTargetUsers env event).
Proof.
  apply respects_getTargetUsers;
    first [ exact silent_refl | exact silent_trans | exact silent_tick
          | exact silent_lookup ].
Qed.

Lemma sendBatchNotifications_silent env tokens payload options :
  respects silent (sendBatchNotifications env tokens payload options).
Proof.
  apply respects_sendBatchNotifications;
    first [ exact silent_refl | exact silent_trans | exact silent_tick
          | exact silent_lookup ].
Qed.

(** * When nothing fails *)

Section Succeeds.
Variable env : Env.
Hypothesis Hno : noFaults env.

Lemma succeeds_ret {A} (a : A) : succeeds (@ret World A a).
Proof. intros w. by exists a. Qed.

Lemma succeeds_bind {A B} (m : M World A) (k : A -> M World B) :
  succeeds m -> (forall a, succeeds (k a)) -> succeeds (bind m k).
Proof.
  intros Hm Hk w. unfold bind. destruct (Hm w) as [a Ha].
  destruct (m w) as [[a'|] w1]; simpl in Ha; [|discriminate]. apply Hk.
Qed.

Lemma succeeds_tryCatch {A} (m handler : M World A) :
  succeeds m -> succeeds (tryCatch m handler).
Proof.
  intros Hm w. unfold tryCatch. destruct (Hm w) as [a Ha].
  destruct (m w) as [[a'|] w1]; simpl in Ha; [|discriminate]. by exists a'.
Qed.

Lemma succeeds_remote {A} (body : M World A) :
  succeeds body -> succeeds (remote env body).
Proof. intros Hb w. unfold remote. rewrite Hno. apply Hb. Qed.

Lemma succeeds_record c : succeeds (record c).
Proof. intros w. by exists tt. Qed.

Lemma succeeds_getEvent i : succeeds (getEvent env i).
Proof.
  unfold getEvent. apply succeeds_bind; [apply succeeds_record|]. intros _.
  apply succeeds_tryCatch, succeeds_remote, succeeds_bind.
  - intros w. by exists w.
  - intros w. apply succeeds_ret.
Qed.

Lemma succeeds_saveEvent event : succeeds (saveEvent env event).
Proof.
  unfold saveEvent. apply succeeds_bind; [apply succeeds_record|]. intros _.
  apply succeeds_tryCatch, succeeds_remote. intros w. by exists tt.
Qed.

Lemma succeeds_getPreferences userId : succeeds (getPreferences env userId).
Proof.
  unfold getPreferences. apply succeeds_bind; [apply succeeds_record|]. intros _.
  apply succeeds_tryCatch, succeeds_remote, succeeds_ret.
Qed.

Lemma succeeds_getUsersByTeam teamId : succeeds (getUsersByTeam env teamId).
Proof.
  unfold getUsersByTeam. apply succeeds_bind; [apply succeeds_record|]. intros _.
  apply succeeds_tryCatch, succeeds_remote, succeeds_ret.
Qed.

Lemma succeeds_collectPreferences userIds users :
  succeeds (collectPreferences env userIds users).
Proof.
  revert users. induction userIds as [|u rest IH]; intros users; simpl.
  - apply succeeds_ret.
  - apply succeeds_bind; [apply succeeds_getPreferences|]. intros prefs. apply IH.
Qed.

Lemma succeeds_collectTeamUsers teams allUsers :
  succeeds (collectTeamUsers env teams allUsers).
Proof.
  revert allUsers. induction teams as [|t rest IH]; intros allUsers; simpl.
  - apply succeeds_ret.
  - apply succeeds_bind; [apply succeeds_getUsersByTeam|]. intros us. apply IH.
Qed.

Lemma succeeds_filterUsers users sport eventType teams :
  succeeds (filterUsers env users sport eventType teams).
Proof.
  induction users as [|u rest IH]; simpl.
  - apply succeeds_ret.
  - apply succeeds_bind; [intros w; by eexists|]. intros now.
    apply succeeds_bind; [apply IH|]. intros kept. apply succeeds_ret.
Qed.

Lemma succeeds_getTargetUsers event : succeeds (getTargetUsers env event).
Proof.
  unfold getTargetUsers. apply succeeds_bind; [apply succeeds_record|]. intros _.
  apply succeeds_tryCatch.
  destruct (default false _); [apply succeeds_ret|].
  destruct (e_targetAudience event ≫= ta_userIds) as [[|u us]|].
  2: apply succeeds_collectPreferences.
  all: destruct (e_targetAudience event ≫= ta_teams) as [[|t ts]|];
    try apply succeeds_ret.
  all: apply succeeds_bind; [apply succeeds_collectTeamUsers|]; intros allUsers;
    apply succeeds_filterUsers.
Qed.

Lemma succeeds_sendEachForMulticast tokens :
  succeeds (sendEachForMulticast env tokens).
Proof.
  unfold sendEachForMulticast. apply succeeds_bind; [apply succeeds_record|].
  intros _ w. rewrite Hno. by eexists.
Qed.

Lemma succeeds_sendBatches batches ts tf invalid :
  succeeds (sendBatches env batches ts tf invalid).
Proof.
  revert ts tf invalid. induction batches as [|b rest IH]; intros ts tf invalid.
  - apply succeeds_ret.
  - cbn [sendBatches]. apply succeeds_bind; [apply succeeds_sendEachForMulticast|].
    intros response. apply IH.
Qed.

Lemma succeeds_sendEventNotification event users :
  succeeds (sendEventNotification env event users).
Proof.
  unfold sendEventNotification. apply succeeds_bind; [apply succeeds_record|].
  intros _. apply succeeds_tryCatch.
  destruct (length users =? 0)%nat; [apply succeeds_ret|].
  apply succeeds_bind; [|intros r; apply succeeds_ret].
  unfold sendBatchNotifications. apply succeeds_tryCatch.
  destruct (length _ =? 0)%nat; [apply succeeds_ret | apply succeeds_sendBatches].
Qed.
End Succeeds.

(** * One round of the engine, case by case *)

Lemma getEvent_result env i w :
  fst (getEvent env i w) = Throw \/ fst (getEvent env i w) = Ok (w_events w !! i).
Proof.
  unfold getEvent, bind, record, modifyState, tryCatch, remote, getState, ret, throw.
  simpl. destruct (faults env (w_tick w)); simpl; auto.
Qed.

Lemma saveEvent_result env event w :
  w_calls (snd (saveEvent env event w)) = w_calls w ++ [CSaveEvent event]
  /\ ((fst (saveEvent env event w) = Throw
       /\ w_events (snd (saveEvent env event w)) = w_events w
       /\ faults env (w_tick w) = true)
      \/ (fst (saveEvent env event w) = Ok tt
          /\ w_events (snd (saveEvent env event w))
             = <[e_id event := mergeEvent (w_events w !! e_id event) event]>
                 (w_events w)
          /\ faults env (w_tick w) = false)).
Proof.
  unfold saveEvent, bind, record, modifyState, tryCatch, remote, setEvents, throw.
  simpl. destruct (faults env (w_tick w)); simpl; auto.
Qed.

Lemma markEventNotified_result env i w :
  w_calls (snd (markEventNotified env i w)) = w_calls w ++ [CMarkEventNotified i]
  /\ ((fst (markEventNotified env i w) = Throw
       /\ w_events (snd (markEventNotified env i w)) = w_events w
       /\ (w_events w !! i = None \/ faults env (S (w_tick w)) = true))
      \/ (exists ev,
            w_events w !! i = Some ev
            /\ fst (markEventNotified env i w) = Ok tt
            /\ w_events (snd (markEventNotified env i w))
               = <[i := notifiedCopy ev (timestampAt env (w_tick w))]> (w_events w)
            /\ faults env (S (w_tick w)) = false)).
Proof.
  unfold markEventNotified, bind, record, modifyState, tryCatch, remote, setEvents,
    timestampNow, getState, ret, throw.
  simpl. destruct (faults env (S (w_tick w))) eqn:Hf;
    destruct (w_events w !! i) as [ev|] eqn:Hev; simpl;
    (split; [reflexivity|]).
  - left. auto.
  - left. auto.
  - right. exists ev. auto.
  - left. auto.
Qed.

Lemma sendEventNotification_effect env event users w :
  w_events (snd (sendEventNotification env event users w)) = w_events w
  /\ (exists new,
        w_calls (snd (sendEventNotification env event users w)) = w_calls w ++ new
        /\ dispatchesOf new = [(event, users)])
  /\ (fst (sendEventNotification env event users w) = Throw -> ~ noFaults env).
Proof.
  split; [|split].
  - unfold sendEventNotification, bind at 1. simpl.
    match goal with |- w_events (snd (tryCatch ?m throw ?w1)) = _ =>
      assert (Hs : respects silent (tryCatch m throw)) end.
    { apply respects_tryCatch; [exact silent_trans| |intros w'; apply silent_refl].
      destruct (length users =? 0)%nat; [intros w'; apply silent_refl|].
      apply respects_bind; [exact silent_trans| |intros r w'; apply silent_refl].
      apply sendBatchNotifications_silent. }
    destruct (Hs {| w_events := w_events w; w_tick := w_tick w;
                    w_calls := w_calls w ++ [CSendEventNotification event users] |})
      as [He _].
    exact He.
  - unfold sendEventNotification, bind at 1. simpl.
    match goal with |- exists new, w_calls (snd (tryCatch ?m throw ?w1)) = _ /\ _ =>
      assert (Hs : respects silent (tryCatch m throw)) end.
    { apply respects_tryCatch; [exact silent_trans| |intros w'; apply silent_refl].
      destruct (length users =? 0)%nat; [intros w'; apply silent_refl|].
      apply respects_bind; [exact silent_trans| |intros r w'; apply silent_refl].
      apply sendBatchNotifications_silent. }
    destruct (Hs {| w_events := w_events w; w_tick := w_tick w;
                    w_calls := w_calls w ++ [CSendEventNotification event users] |})
      as [_ (new & Hc & Hd)].
    exists (CSendEventNotification event users :: new). simpl in Hc.
    split; [by rewrite Hc, <- app_assoc|]. simpl. by rewrite Hd.
  - intros Hthrow Hno.
    destruct (succeeds_sendEventNotification env Hno event users w) as [a Ha].
    congruence.
Qed.

Lemma silent_calls w w' :
  silent w w' -> exists new, w_calls w' = w_calls w ++ new /\ dispatchesOf new = [].
Proof. by intros [_ H]. Qed.

(** One round of the loop, with the [try]/[catch] and the early exits
    written out call by call. *)
Lemma round_unfold env event w total :
  tryCatch (processOne env event) (ret tt) (mkFrame w total)
  = match getEvent env (e_id event) w with
    | (Throw, w1) => (Ok tt, mkFrame w1 total)
    | (Ok existingEvent, w1) =>
      if default false (e_notified <$> existingEvent)
      then (Ok tt, mkFrame w1 total)
      else
        match saveEvent env event w1 with
        | (Throw, w2) => (Ok tt, mkFrame w2 total)
        | (Ok _, w2) =>
          match getTargetUsers env event w2 with
          | (Throw, w3) => (Ok tt, mkFrame w3 total)
          | (Ok targetUsers, w3) =>
            if (length targetUsers =? 0)%nat
            then (Ok tt, mkFrame w3 total)
            else
              match sendEventNotification env event targetUsers w3 with
              | (Throw, w4) => (Ok tt, mkFrame w4 total)
              | (Ok result, w4) =>
                (Ok tt,
                 mkFrame (snd (markEventNotified env (e_id event) w4))
                   (total + sent_successCount result))
              end
          end
        end
    end.
Proof.
  unfold tryCatch, processOne, bind, lift, modifyState, ret.
  cbn [world totalNotificationsSent].
  destruct (getEvent env (e_id event) w) as [[ex|] w1];
    cbn [world totalNotificationsSent]; [|reflexivity].
  destruct (default false (e_notified <$> ex)); [reflexivity|].
  cbn [world totalNotificationsSent].
  destruct (saveEvent env event w1) as [[[]|] w2];
    cbn [world totalNotificationsSent]; [|reflexivity].
  destruct (getTargetUsers env event w2) as [[users|] w3];
    cbn [world totalNotificationsSent]; [|reflexivity].
  destruct (length users =? 0)%nat; [reflexivity|].
  cbn [world totalNotificationsSent].
  destruct (sendEventNotification env event users w3) as [[result|] w4];
    cbn [world totalNotificationsSent]; [|reflexivity].
  by destruct (markEventNotified env (e_id event) w4) as [[[]|] w5].
Qed.

(** Every round ends in one of the four ways of [RoundOutcome]. *)
Lemma round_outcome env event f :
  exists new,
    w_calls (world (snd (tryCatch (processOne env event) (ret tt) f)))
    = w_calls (world f) ++ new
    /\ RoundOutcome env event (world f)
         (world (snd (tryCatch (processOne env event) (ret tt) f))) new.
Proof.
  destruct f as [w total]. rewrite round_unfold. cbn [world].
  (* the lookup *)
  destruct (getEvent_silent env (e_id event) w) as [He1 (n1 & Hc1 & Hd1)].
  pose proof (getEvent_result env (e_id event) w) as Hr1.
  destruct (getEvent env (e_id event) w) as [r1 w1]. cbn [fst snd world] in *.
  destruct Hr1 as [-> | ->]; cbn [fst snd world].
  { exists n1. split; [exact Hc1|]. by apply RoundIdle. }
  destruct (default false (e_notified <$> w_events w !! e_id event)) eqn:Hnot;
    cbn [fst snd world].
  { exists n1. split; [exact Hc1|]. by apply RoundIdle. }
  (* the save *)
  destruct (saveEvent_result env event w1) as [Hc2 Hr2].
  destruct (saveEvent env event w1) as [r2 w2]. cbn [fst snd world] in *.
  destruct Hr2 as [(-> & He2 & _) | (-> & He2 & _)]; cbn [fst snd world].
  { exists (n1 ++ [CSaveEvent event]).
    split; [by rewrite Hc2, Hc1, app_assoc|].
    apply RoundIdle; [cbn; congruence|]. by rewrite dispatchesOf_app, Hd1. }
  rewrite He1 in He2.
  (* the audience *)
  destruct (getTargetUsers_silent env event w2) as [He3 (n3 & Hc3 & Hd3)].
  destruct (getTargetUsers env event w2) as [[users|] w3]; cbn [fst snd world] in *.
  2:{ exists (n1 ++ [CSaveEvent event] ++ n3).
      split; [cbn; by rewrite Hc3, Hc2, Hc1, <- !app_assoc|].
      apply RoundRecorded; [exact Hnot | cbn; congruence |].
      by rewrite !dispatchesOf_app, Hd1, Hd3. }
  destruct (length users =? 0)%nat eqn:Hlen; cbn [fst snd world].
  { exists (n1 ++ [CSaveEvent event] ++ n3).
    split; [cbn; by rewrite Hc3, Hc2, Hc1, <- !app_assoc|].
    apply RoundRecorded; [exact Hnot | cbn; congruence |].
    by rewrite !dispatchesOf_app, Hd1, Hd3. }
  assert (Husers : users <> []).
  { intros ->. discriminate. }
  (* the dispatch *)
  destruct (sendEventNotification_effect env event users w3)
    as (He4 & (n4 & Hc4 & Hd4) & Hthrow).
  destruct (sendEventNotification env event users w3) as [[result|] w4];
    cbn [fst snd world] in *.
  2:{ exists (n1 ++ [CSaveEvent event] ++ n3 ++ n4).
      split; [cbn; by rewrite Hc4, Hc3, Hc2, Hc1, <- !app_assoc|].
      apply (RoundDispatched _ _ _ _ _ users);
        [exact Hnot | exact Husers | cbn; congruence | | by apply Hthrow].
      by rewrite !dispatchesOf_app, Hd1, Hd3, Hd4. }
  (* the marking *)
  destruct (markEventNotified_result env (e_id event) w4) as [Hc5 Hr5].
  destruct (markEventNotified env (e_id event) w4) as [r5 w5]. cbn [fst snd world] in *.
  assert (Hstored : w_events w4 !! e_id event
                    = Some (mergeEvent (w_events w !! e_id event) event)).
  { rewrite He4, He3, He2. apply lookup_insert_eq. }
  exists (n1 ++ [CSaveEvent event] ++ n3 ++ n4 ++ [CMarkEventNotified (e_id event)]).
  assert (Hcalls : w_calls w5
                   = w_calls w ++ n1 ++ [CSaveEvent event] ++ n3 ++ n4
                       ++ [CMarkEventNotified (e_id event)]).
  { by rewrite Hc5, Hc4, Hc3, Hc2, Hc1, <- !app_assoc. }
  assert (Hdisp : dispatchesOf (n1 ++ [CSaveEvent event] ++ n3 ++ n4
                                  ++ [CMarkEventNotified (e_id event)])
                  = [(event, users)]).
  { by rewrite !dispatchesOf_app, Hd1, Hd3, Hd4. }
  split; [exact Hcalls|].
  destruct Hr5 as [(-> & He5 & Hwhy) | (ev & Hev & -> & He5 & _)].
  - apply (RoundDispatched _ _ _ _ _ users);
      [exact Hnot | exact Husers | congruence | exact Hdisp |].
    intros Hno. destruct Hwhy as [Hnone | Hfault]; [congruence|].
    rewrite Hno in Hfault. discriminate.
  - rewrite Hstored in Hev. injection Hev as <-.
    apply (RoundNotified _ _ _ _ _ users (timestampAt env (w_tick w4)));
      [exact Hnot | exact Husers | | exact Hdisp].
    rewrite He5, He4, He3, He2. apply insert_insert_eq.
Qed.

(** * A whole run of the engine, round by round *)

(** What holds before the loop and is kept by every possible round holds
    after the loop. *)
Lemma processLoop_rounds env (P : World -> list Call -> Prop) w0 events :
  (forall event w w' new new',
      In event events -> P w new -> RoundOutcome env event w w' new' ->
      P w' (new ++ new')) ->
  forall f new0,
    w_calls (world f) = w_calls w0 ++ new0 ->
    P (world f) new0 ->
    exists new,
      w_calls (world (snd (processLoop env events f))) = w_calls w0 ++ new
      /\ P (world (snd (processLoop env events f))) new.
Proof.
  induction events as [|event rest IH]; intros Hstep f new0 Hcalls HP.
  - exists new0. by split.
  - rewrite processLoop_cons.
    destruct (round_outcome env event f) as (new1 & Hc1 & Hround).
    apply (IH (fun e w w' new new' Hin => Hstep e w w' new new' (or_intror Hin))
              _ (new0 ++ new1)).
    + by rewrite Hc1, Hcalls, app_assoc.
    + apply (Hstep event (world f)); [by left | exact HP | exact Hround].
Qed.

Lemma processEvents_rounds env (P : World -> list Call -> Prop) events w :
  (forall event w1 w2 new new',
      In event events -> P w1 new -> RoundOutcome env event w1 w2 new' ->
      P w2 (new ++ new')) ->
  P w [] ->
  exists new,
    w_calls (snd (processEvents env events w)) = w_calls w ++ new
    /\ P (snd (processEvents env events w)) new.
Proof.
  intros Hstep HP. rewrite processEvents_loop. cbn [snd].
  apply (processLoop_rounds env P w events Hstep (mkFrame w 0) []);
    [by rewrite app_nil_r | exact HP].
Qed.

(** A round never clears a notified flag. *)
Lemma round_keeps_notified env event w w' new i :
  RoundOutcome env event w w' new ->
  storedNotified w i = true -> storedNotified w' i = true.
Proof.
  unfold storedNotified.
  intros [He _ | Hnot He _ | users Hnot _ He _ _ | users now Hnot _ He _] Hi;
    rewrite He; try exact Hi.
  all: destruct (decide (e_id event = i)) as [<-|Hne];
    [unfold storedNotified in Hnot; congruence|].
  all: by rewrite lookup_insert_ne.
Qed.

(** A round that sets a notified flag is a round for that identifier that
    dispatched the event to a non-empty audience. *)
Lemma round_sets_notified env event w w' new i :
  e_notified event = false ->
  RoundOutcome env event w w' new ->
  storedNotified w i = false -> storedNotified w' i = true ->
  e_id event = i
  /\ exists users, users <> [] /\ dispatchesOf new = [(event, users)].
Proof.
  unfold storedNotified. intros Hfresh Hround Hbefore Hafter.
  destruct Hround as [He _ | Hnot He _ | users Hnot Hu He Hd _
                     | users now Hnot Hu He Hd];
    rewrite He in Hafter.
  - congruence.
  - destruct (decide (e_id event = i)) as [<-|Hne].
    + rewrite lookup_insert_eq in Hafter. simpl in Hafter. congruence.
    + rewrite lookup_insert_ne in Hafter by exact Hne. congruence.
  - destruct (decide (e_id event = i)) as [<-|Hne].
    + rewrite lookup_insert_eq in Hafter. simpl in Hafter. congruence.
    + rewrite lookup_insert_ne in Hafter by exact Hne. congruence.
  - destruct (decide (e_id event = i)) as [<-|Hne].
    + split; [reflexivity|]. by exists users.
    + rewrite lookup_insert_ne in Hafter by exact Hne. congruence.
Qed.

(** X15. A stored record is marked notified only after a dispatch: if a
    run over freshly detected events (their own flag is false) ends with
    the record of an identifier saying notified while it did not before,
    then during the run one of the given events with that identifier was
    handed to the gateway service with a non-empty audience.  This holds
    whatever remote call fails. *)
Theorem notified_only_after_dispatch env events w eventId :
  Forall (fun e => e_notified e = false) events ->
  storedNotified w eventId = false ->
  storedNotified (snd (processEvents env events w)) eventId = true ->
  exists new event users,
    w_calls (snd (processEvents env events w)) = w_calls w ++ new
    /\ In (event, users) (dispatchesOf new)
    /\ In event events /\ e_id event = eventId /\ users <> [].
Proof.
  intros Hfresh Hbefore Hafter.
  destruct (processEvents_rounds env
              (fun w' new =>
                 storedNotified w' eventId = true ->
                 exists event users,
                   In (event, users) (dispatchesOf new)
                   /\ In event events /\ e_id event = eventId /\ users <> [])
              events w) as (new & Hcalls & HP).
  - intros event w1 w2 new new' Hin HP Hround Hnow.
    destruct (storedNotified w1 eventId) eqn:Hthen.
    + destruct (HP eq_refl) as (e & us & Hd & He & Hid & Hus).
      exists e, us. rewrite dispatchesOf_app, in_app_iff. auto.
    + rewrite List.Forall_forall in Hfresh.
      destruct (round_sets_notified env event w1 w2 new' eventId
                  (Hfresh event Hin) Hround Hthen Hnow)
        as (Hid & us & Hus & Hd).
      exists event, us. rewrite dispatchesOf_app, in_app_iff, Hd.
      split; [right; by left|]. auto.
  - congruence.
  - destruct (HP Hafter) as (e & us & H). exists new, e, us. tauto.
Qed.

Lemma notified_only_after_dispatch_witness :
  Forall (fun e => e_notified e = false) [sampleStart]
  /\ storedNotified emptyWorld (e_id sampleStart) = false
  /\ storedNotified (snd (processEvents (sampleEnv []) [sampleStart] emptyWorld))
       (e_id sampleStart) = true
  /\ exists new event users,
       w_calls (snd (processEvents (sampleEnv []) [sampleStart] emptyWorld))
       = w_calls emptyWorld ++ new
       /\ In (event, users) (dispatchesOf new)
       /\ In event [sampleStart] /\ e_id event = e_id sampleStart /\ users <> [].
Proof.
  assert (H1 : Forall (fun e => e_notified e = false) [sampleStart]).
  { constructor; [reflexivity | constructor]. }
  assert (H3 : storedNotified
                 (snd (processEvents (sampleEnv []) [sampleStart] emptyWorld))
                 (e_id sampleStart) = true).
  { vm_compute. reflexivity. }
  split; [exact H1|]. split; [reflexivity|]. split; [exact H3|].
  exact (notified_only_after_dispatch (sampleEnv []) [sampleStart] emptyWorld
           (e_id sampleStart) H1 eq_refl H3).
Defined.

Lemma dispatchedIds_app l1 l2 :
  dispatchedIds (l1 ++ l2) = dispatchedIds l1 ++ dispatchedIds l2.
Proof. unfold dispatchedIds. by rewrite dispatchesOf_app, map_app. Qed.

Lemma noFaults_sampleEnv : noFaults (sampleEnv []).
Proof. intros n. reflexivity. Qed.

(** Without failing calls every round keeps [onceOnly]. *)
Lemma onceOnly_round env event w0 w1 w2 new new' :
  noFaults env ->
  onceOnly w0 w1 new -> RoundOutcome env event w1 w2 new' ->
  onceOnly w0 w2 (new ++ new').
Proof.
  intros Hno (Hmono & Hnd & Hall) Hround.
  pose proof (round_keeps_notified env event w1 w2 new') as Hkeep.
  split; [intros i Hi; by apply (Hkeep i Hround), Hmono|].
  rewrite dispatchedIds_app.
  assert (Hold : forall i, In i (dispatchedIds new) ->
                   storedNotified w0 i = false /\ storedNotified w2 i = true).
  { intros i Hi. destruct (Hall i Hi) as [H0 H1]. split; [exact H0|].
    by apply (Hkeep i Hround). }
  destruct Hround as [He Hd | Hnot He Hd | users Hnot Hu He Hd Hf
                     | users now Hnot Hu He Hd].
  - unfold dispatchedIds at 2 4. rewrite Hd. simpl. rewrite app_nil_r. auto.
  - unfold dispatchedIds at 2 4. rewrite Hd. simpl. rewrite app_nil_r. auto.
  - contradiction.
  - unfold dispatchedIds at 2 4. rewrite Hd. cbn [map fst]. split.
    + apply NoDup_app. split; [exact Hnd|]. split; [|apply NoDup_singleton].
      intros i Hi Hi'. apply list_elem_of_In in Hi.
      apply list_elem_of_singleton in Hi'. subst i.
      destruct (Hall _ Hi) as [_ H1]. congruence.
    + intros i Hi. apply in_app_iff in Hi as [Hi | [<- | []]]; [by apply Hold|].
      split.
      * destruct (storedNotified w0 (e_id event)) eqn:H0; [|reflexivity].
        rewrite (Hmono _ H0) in Hnot. discriminate.
      * unfold storedNotified. rewrite He, lookup_insert_eq. reflexivity.
Qed.

Lemma processEvents_onceOnly env events w :
  noFaults env ->
  exists new,
    w_calls (snd (processEvents env events w)) = w_calls w ++ new
    /\ onceOnly w (snd (processEvents env events w)) new.
Proof.
  intros Hno. apply (processEvents_rounds env (onceOnly w) events w).
  - intros event w1 w2 new new' _. by apply onceOnly_round.
  - split; [auto|]. split; [constructor|]. intros i [].
Qed.

(** X16. When no remote call fails, a run dispatches each identifier at
    most once, only identifiers whose stored record did not say notified
    before the run, and every identifier it dispatched ends with a stored
    record that says notified; records that said notified still do. *)
Theorem dispatched_once_and_marked env events w :
  noFaults env ->
  exists new,
    w_calls (snd (processEvents env events w)) = w_calls w ++ new
    /\ NoDup (dispatchedIds new)
    /\ (forall i, In i (dispatchedIds new) ->
          storedNotified w i = false
          /\ storedNotified (snd (processEvents env events w)) i = true)
    /\ (forall i, storedNotified w i = true ->
          storedNotified (snd (processEvents env events w)) i = true).
Proof.
  intros Hno.
  destruct (processEvents_onceOnly env events w Hno)
    as (new & Hcalls & Hmono & Hnd & Hall).
  exists new. split; [exact Hcalls|]. split; [exact Hnd|].
  split; [exact Hall | exact Hmono].
Qed.

Lemma dispatched_once_and_marked_witness :
  noFaults (sampleEnv [])
  /\ exists new,
       w_calls (snd (processEvents (sampleEnv []) [sampleStart; sampleStart]
                       emptyWorld))
       = w_calls emptyWorld ++ new
       /\ NoDup (dispatchedIds new).
Proof.
  split; [exact noFaults_sampleEnv|].
  destruct (dispatched_once_and_marked (sampleEnv []) [sampleStart; sampleStart]
              emptyWorld noFaults_sampleEnv) as (new & Hcalls & Hnd & _).
  exists new. split; [exact Hcalls | exact Hnd].
Defined.

(** * Events without a resolvable audience *)

Lemma getEvent_calls env i w :
  w_calls (snd (getEvent env i w)) = w_calls w ++ [CGetEvent i].
Proof.
  unfold getEvent, bind, record, modifyState, tryCatch, remote, getState, ret, throw.
  simpl. by destruct (faults env (w_tick w)).
Qed.

Lemma getTargetUsers_noAudience env event w :
  noAudience event ->
  getTargetUsers env event w
  = (Ok [], mkWorld (w_events w) (w_tick w) (w_calls w ++ [CGetTargetUsers event])).
Proof.
  unfold noAudience, getTargetUsers, bind, record, modifyState, tryCatch, ret.
  cbn [fst snd]. intros [Hall | [Hids Hteams]].
  - by rewrite Hall.
  - destruct (default false _); [reflexivity|].
    destruct Hids as [-> | ->], Hteams as [-> | ->]; reflexivity.
Qed.

Lemma round_noAudience env event f :
  noAudience event ->
  totalNotificationsSent (snd (tryCatch (processOne env event) (ret tt) f))
  = totalNotificationsSent f
  /\ exists new,
       w_calls (world (snd (tryCatch (processOne env event) (ret tt) f)))
       = w_calls (world f) ++ new
       /\ Forall (fun c => bookkeeping c = true) new.
Proof.
  intros Hnone. destruct f as [w total]. rewrite round_unfold.
  pose proof (getEvent_calls env (e_id event) w) as Hc1.
  destruct (getEvent env (e_id event) w) as [[existing|] w1]; cbn [fst snd] in *.
  2:{ split; [reflexivity|]. exists [CGetEvent (e_id event)].
      split; [exact Hc1 | by repeat constructor]. }
  destruct (default false (e_notified <$> existing)); cbn [fst snd world].
  { split; [reflexivity|]. exists [CGetEvent (e_id event)].
    split; [exact Hc1 | by repeat constructor]. }
  destruct (saveEvent_result env event w1) as [Hc2 _].
  destruct (saveEvent env event w1) as [[[]|] w2]; cbn [fst snd world] in *.
  2:{ split; [reflexivity|]. exists [CGetEvent (e_id event); CSaveEvent event].
      split; [by rewrite Hc2, Hc1, <- app_assoc | by repeat constructor]. }
  rewrite (getTargetUsers_noAudience env event w2 Hnone).
  cbn [length Nat.eqb fst snd world totalNotificationsSent w_calls].
  split; [reflexivity|].
  exists [CGetEvent (e_id event); CSaveEvent event; CGetTargetUsers event].
  split; [by rewrite Hc2, Hc1, <- !app_assoc | by repeat constructor].
Qed.

(** X17. Events without a resolvable audience are never delivered: when
    every event of a run asks for all users (which the engine does not
    implement) or names neither users nor teams, the run returns 0 and
    makes only lookups, saves and audience resolutions: nothing is handed
    to the gateway, no subscriber document is read and no record is marked
    notified, whatever remote call fails. *)
Theorem unresolved_audience_never_dispatched env events w :
  Forall noAudience events ->
  fst (processEvents env events w) = Ok 0
  /\ exists new,
       w_calls (snd (processEvents env events w)) = w_calls w ++ new
       /\ Forall (fun c => bookkeeping c = true) new.
Proof.
  intros Hall. rewrite processEvents_loop. cbn [fst snd].
  assert (Hloop : forall f,
             totalNotificationsSent (snd (processLoop env events f))
             = totalNotificationsSent f
             /\ exists new,
                  w_calls (world (snd (processLoop env events f)))
                  = w_calls (world f) ++ new
                  /\ Forall (fun c => bookkeeping c = true) new).
  { induction Hall as [|event rest Hnone _ IH]; intros f.
    - split; [reflexivity|]. exists []. split; [by rewrite app_nil_r | constructor].
    - rewrite processLoop_cons.
      destruct (round_noAudience env event f Hnone) as (Ht1 & n1 & Hc1 & Hb1).
      destruct (IH (snd (tryCatch (processOne env event) (ret tt) f)))
        as (Ht2 & n2 & Hc2 & Hb2).
      split; [congruence|]. exists (n1 ++ n2).
      split; [by rewrite Hc2, Hc1, app_assoc | by apply Forall_app]. }
  destruct (Hloop (mkFrame w 0)) as (Ht & new & Hc & Hb).
  split; [by rewrite Ht | by exists new].
Qed.

Lemma unresolved_audience_never_dispatched_witness :
  Forall noAudience [sampleBroadcast]
  /\ fst (processEvents (sampleEnv []) [sampleBroadcast] emptyWorld) = Ok 0.
Proof.
  assert (H : Forall noAudience [sampleBroadcast]).
  { constructor; [by left | constructor]. }
  split; [exact H|].
  exact (proj1 (unresolved_audience_never_dispatched (sampleEnv [])
                  [sampleBroadcast] emptyWorld H)).
Defined.

(** * What a run hands to the gateway *)

Lemma processLoop_dispatches env events f :
  exists new,
    w_calls (world (snd (processLoop env events f))) = w_calls (world f) ++ new
    /\ map fst (dispatchesOf new) `sublist_of` events
    /\ Forall (fun d => snd d <> []) (dispatchesOf new).
Proof.
  revert f. induction events as [|event rest IH]; intros f.
  - exists []. split; [by rewrite app_nil_r|]. split; [reflexivity | constructor].
  - rewrite processLoop_cons.
    destruct (round_outcome env event f) as (n1 & Hc1 & Hround).
    destruct (IH (snd (tryCatch (processOne env event) (ret tt) f)))
      as (n2 & Hc2 & Hsub & Hall).
    exists (n1 ++ n2). split; [by rewrite Hc2, Hc1, app_assoc|].
    rewrite dispatchesOf_app.
    destruct Hround as [_ Hd | _ _ Hd | users _ Hu _ Hd _ | users now _ Hu _ Hd];
      rewrite Hd; cbn [app map fst].
    + split; [by apply sublist_cons | exact Hall].
    + split; [by apply sublist_cons | exact Hall].
    + split; [by apply sublist_skip | by constructor].
    + split; [by apply sublist_skip | by constructor].
Qed.

Lemma processEvents_dispatches env events w :
  exists new,
    w_calls (snd (processEvents env events w)) = w_calls w ++ new
    /\ map fst (dispatchesOf new) `sublist_of` events
    /\ Forall (fun d => snd d <> []) (dispatchesOf new).
Proof.
  rewrite processEvents_loop. cbn [snd].
  apply (processLoop_dispatches env events (mkFrame w 0)).
Qed.

(** X19. A run hands to the gateway service only events it was given, in
    the order given, each at most once per occurrence in the list, and
    never with an empty audience; and it never throws, whatever remote call
    fails. *)
Theorem run_dispatches_given_events_in_order env events w :
  (exists sent, fst (processEvents env events w) = Ok sent)
  /\ exists new,
       w_calls (snd (processEvents env events w)) = w_calls w ++ new
       /\ map fst (dispatchesOf new) `sublist_of` events
       /\ Forall (fun d => snd d <> []) (dispatchesOf new).
Proof.
  split; [|apply processEvents_dispatches].
  rewrite processEvents_loop. by eexists.
Qed.

(** * The entry point of the polling jobs *)

(** X18. [processGameUpdate] never throws: whatever repository or gateway
    call fails, it returns a count.  Everything it hands to the gateway
    service is an event detected between the two snapshots, in detection
    order, with a non-empty audience.  When the fetched snapshot equals the
    stored one it returns 0 without any interaction: no lookup, no save, no
    dispatch, and the store is unchanged. *)
Theorem game_update_returns_and_idles_when_unchanged :
  (forall env oldGame newGame w,
      (exists sent, fst (processGameUpdate env oldGame newGame w) = Ok sent)
      /\ exists new,
           w_calls (snd (processGameUpdate env oldGame newGame w))
           = w_calls w ++ new
           /\ map fst (dispatchesOf new)
                `sublist_of` detectCommonEvents (timestampAt env (w_tick w))
                               oldGame newGame
           /\ Forall (fun d => snd d <> []) (dispatchesOf new))
  /\ (forall env g w, processGameUpdate env (Some g) g w = (Ok 0, w)).
Proof.
  split.
  - intros env oldGame newGame w. unfold processGameUpdate, tryCatch.
    destruct (length _ =? 0)%nat.
    + split; [by exists 0|]. exists []. cbn [snd].
      split; [by rewrite app_nil_r|]. split; [apply sublist_nil_l | constructor].
    + pose proof (processEvents_dispatches env
                    (detectCommonEvents (timestampAt env (w_tick w)) oldGame newGame)
                    w) as Hd.
      rewrite processEvents_loop in *. cbn [fst snd] in *.
      split; [by eexists | exact Hd].
  - intros env g w. unfold processGameUpdate, tryCatch.
    by rewrite detectCommonEvents_unchanged.
Qed.

(** * The event repository *)

Lemma saveEvent_ok env event w :
  faults env (w_tick w) = false ->
  saveEvent env event w
  = (Ok tt,
     mkWorld (<[e_id event := mergeEvent (w_events w !! e_id event) event]> (w_events w))
       (S (w_tick w)) (w_calls w ++ [CSaveEvent event])).
Proof.
  intros Hok.
  unfold saveEvent, bind, record, modifyState, tryCatch, remote, setEvents.
  simpl. by rewrite Hok.
Qed.

Lemma getEvent_ok env i w :
  faults env (w_tick w) = false ->
  getEvent env i w
  = (Ok (w_events w !! i),
     mkWorld (w_events w) (S (w_tick w)) (w_calls w ++ [CGetEvent i])).
Proof.
  intros Hok.
  unfold getEvent, bind, record, modifyState, tryCatch, remote, getState, ret.
  simpl. by rewrite Hok.
Qed.






(** X21. Marking an event notified never creates a record and touches no
    other record: on an identifier without a stored record it throws and
    leaves the store as it was (also when a remote call fails); when it
    returns, the record existed and now differs from the stored one only in
    [notified = true] and [notifiedAt], which is the clock reading taken
    before the write; either way the set of stored identifiers is the
    same. *)
Theorem mark_notified_updates_existing_record_only env i w :
  (w_events w !! i = None ->
     fst (markEventNotified env i w) = Throw
     /\ w_events (snd (markEventNotified env i w)) = w_events w)
  /\ (fst (markEventNotified env i w) = Throw ->
        w_events (snd (markEventNotified env i w)) = w_events w)
  /\ (fst (markEventNotified env i w) = Ok tt ->
        exists ev,
          w_events w !! i = Some ev
          /\ w_events (snd (markEventNotified env i w)) !! i
             = Some (notifiedCopy ev (timestampAt env (w_tick w))))
  /\ (forall j, j <> i ->
        w_events (snd (markEventNotified env i w)) !! j = w_events w !! j)
  /\ dom (w_events (snd (markEventNotified env i w))) = dom (w_events w).
Proof.
  destruct (markEventNotified_result env i w)
    as [_ [(Hr & He & Hwhy) | (ev & Hev & Hr & He & _)]].
  - rewrite Hr, He. split; [auto|]. split; [auto|].
    split; [discriminate|]. auto.
  - rewrite Hr, He. split; [congruence|]. split; [discriminate|].
    split; [|split].
    + intros _. exists ev. split; [exact Hev|]. apply lookup_insert_eq.
    + intros j Hj. by rewrite lookup_insert_ne.
    + rewrite dom_insert_L. apply subseteq_union_1_L, singleton_subseteq_l.
      by apply elem_of_dom_2 in Hev.
Qed.

(** * Resolving the audience of an event *)

Lemma getUsersByTeam_result env teamId w :
  w_events (snd (getUsersByTeam env teamId w)) = w_events w
  /\ w_tick (snd (getUsersByTeam env teamId w)) = S (w_tick w)
  /\ (fst (getUsersByTeam env teamId w) = Throw
      \/ fst (getUsersByTeam env teamId w) = Ok (teamFollowers env teamId))
  /\ (faults env (w_tick w) = false ->
      fst (getUsersByTeam env teamId w) = Ok (teamFollowers env teamId)).
Proof.
  unfold getUsersByTeam, bind, record, modifyState, tryCatch, remote, ret, throw.
  simpl. destruct (faults env (w_tick w)); simpl; auto.
  repeat split; auto. discriminate.
Qed.

Lemma collectTeamUsers_result env teams :
  forall allUsers w,
    (forall users,
        fst (collectTeamUsers env teams allUsers w) = Ok users ->
        users = allUsers ++ flat_map (teamFollowers env) teams
        /\ w_tick (snd (collectTeamUsers env teams allUsers w))
           = (w_tick w + length teams)%nat)
    /\ (noFaults env ->
        fst (collectTeamUsers env teams allUsers w)
        = Ok (allUsers ++ flat_map (teamFollowers env) teams)).
Proof.
  induction teams as [|teamId rest IH]; intros allUsers w.
  - simpl. unfold ret. simpl. rewrite app_nil_r, Nat.add_0_r.
    split; [|reflexivity]. intros users [= <-]. auto.
  - cbn [collectTeamUsers flat_map length]. unfold bind at 1 2 3.
    destruct (getUsersByTeam_result env teamId w) as (_ & Ht & Hr & Hok).
    destruct (getUsersByTeam env teamId w) as [[teamUsers|] w1]; cbn [fst snd] in *.
    + destruct Hr as [Hr | Hr]; [discriminate|]. injection Hr as ->.
      destruct (IH (allUsers ++ teamFollowers env teamId) w1) as (IHr & IHok).
      rewrite <- !app_assoc in *. split; [|exact IHok].
      intros users Husers. destruct (IHr users Husers) as [-> ->].
      split; [reflexivity | lia].
    + split; [discriminate|]. intros Hno. specialize (Hok (Hno _)). discriminate.
Qed.

Lemma filterUsers_result env users sport eventType teams :
  forall w,
    filterUsers env users sport eventType teams w
    = (Ok (keptAt env (w_tick w) users sport eventType teams),
       mkWorld (w_events w) (w_tick w + length users) (w_calls w)).
Proof.
  induction users as [|user rest IH]; intros w.
  - simpl. unfold ret. rewrite Nat.add_0_r. by destruct w.
  - cbn [filterUsers keptAt length]. unfold bind, newLocalTime, ret.
    rewrite IH. cbn [tick w_tick w_events w_calls]. do 2 f_equal. lia.
Qed.

Lemma getTargetUsers_teams_eq env event teams w :
  teamAudience event teams ->
  getTargetUsers env event w
  = tryCatch
      (bind (collectTeamUsers env teams [])
         (fun allUsers =>
            filterUsers env (deduplicateUsers allUsers) (e_sport event)
              (e_type event) (Some teams)))
      throw
      (mkWorld (w_events w) (w_tick w) (w_calls w ++ [CGetTargetUsers event])).
Proof.
  intros (Hall & Hids & Hteams & Hne).
  unfold getTargetUsers. unfold bind at 1. unfold record, modifyState.
  cbn [fst snd]. rewrite Hall, Hteams.
  destruct teams as [|t ts]; [contradiction|].
  by destruct Hids as [-> | ->].
Qed.

Lemma getTargetUsers_teams env event teams w :
  teamAudience event teams ->
  (forall users,
      fst (getTargetUsers env event w) = Ok users ->
      users = keptAt env (w_tick w + length teams)
                (deduplicateUsers (flat_map (teamFollowers env) teams))
                (e_sport event) (e_type event) (Some teams))
  /\ (noFaults env ->
      fst (getTargetUsers env event w)
      = Ok (keptAt env (w_tick w + length teams)
              (deduplicateUsers (flat_map (teamFollowers env) teams))
              (e_sport event) (e_type event) (Some teams))).
Proof.
  intros Haud. rewrite (getTargetUsers_teams_eq env event teams w Haud).
  unfold tryCatch, bind.
  set (w1 := mkWorld (w_events w) (w_tick w) (w_calls w ++ [CGetTargetUsers event])).
  destruct (collectTeamUsers_result env teams [] w1) as (Hr & Hok).
  destruct (collectTeamUsers env teams [] w1) as [[allUsers|] w2]; cbn [fst snd] in *.
  - destruct (Hr allUsers eq_refl) as [-> Htick]. cbn [app].
    rewrite filterUsers_result, Htick. cbn [fst w_tick w1].
    split; [|reflexivity]. by intros users [= <-].
  - split; [discriminate|]. intros Hno. specialize (Hok Hno). discriminate.
Qed.

Lemma keptAt_sublist env k users sport eventType teams :
  keptAt env k users sport eventType teams `sublist_of` users.
Proof.
  revert k. induction users as [|u rest IH]; intros k; simpl; [reflexivity|].
  destruct (shouldNotifyUser _ _ _ _ _).
  - apply sublist_skip, IH.
  - apply sublist_cons, IH.
Qed.

Lemma keptAt_pass env k users sport eventType teams :
  Forall
    (fun u => exists k', shouldNotifyUser u sport eventType teams (localTimeAt env k') = true)
    (keptAt env k users sport eventType teams).
Proof.
  revert k. induction users as [|u rest IH]; intros k; simpl; [constructor|].
  destruct (shouldNotifyUser _ _ _ _ _) eqn:Hpass; [|apply IH].
  constructor; [by exists k | apply IH].
Qed.

Lemma keptAt_keeps env k users sport eventType teams u :
  In u users ->
  (forall k', shouldNotifyUser u sport eventType teams (localTimeAt env k') = true) ->
  In u (keptAt env k users sport eventType teams).
Proof.
  intros Hin Hpass. revert k.
  induction users as [|v rest IH]; intros k; [destruct Hin|].
  simpl. destruct Hin as [-> | Hin].
  - rewrite Hpass. by left.
  - destruct (shouldNotifyUser _ _ _ _ _); [right|]; by apply IH.
Qed.

Lemma In_teamFollowers env teams u :
  In u (flat_map (teamFollowers env) teams)
  <-> In u (userDocs env) /\ up_enabled u = true /\ followsAny u teams = true.
Proof.
  unfold followsAny, teamFollowers.
  rewrite in_flat_map, existsb_exists. split.
  - intros (t & Ht & Hu). apply filter_In in Hu as [Hu Hf].
    apply filter_In in Hu as [Hu He]. eauto.
  - intros (Hu & He & t & Ht & Hf). exists t. split; [exact Ht|].
    apply filter_In. split; [|exact Hf]. apply filter_In. auto.
Qed.

Lemma same_id_same_document (docs : list UserPreferences) u v :
  NoDup (map up_userId docs) -> In u docs -> In v docs ->
  up_userId u = up_userId v -> u = v.
Proof.
  induction docs as [|d rest IH]; intros Hnd Hu Hv Hid; [destruct Hu|].
  simpl in Hnd. apply NoDup_cons in Hnd as [Hd Hnd].
  destruct Hu as [-> | Hu], Hv as [-> | Hv]; auto.
  - exfalso. apply Hd. rewrite Hid. by apply list_elem_of_In, in_map.
  - exfalso. apply Hd. rewrite <- Hid. by apply list_elem_of_In, in_map.
Qed.

Lemma followsAny_needs_team_list u teams :
  (forall s, up_sports u s ≫= sp_teams = None) -> followsAny u teams = false.
Proof.
  intros Hnone. unfold followsAny.
  induction teams as [|t rest IH]; [reflexivity|]. simpl. rewrite IH, orb_false_r.
  unfold followsTeam, allSports. simpl.
  repeat match goal with
         | |- context [up_sports u ?s] =>
           let H := fresh in
           pose proof (Hnone s) as H;
           destruct (up_sports u s) as [[? [?|] ? ? ?]|]; simpl in H;
           try discriminate H; clear H
         end; reflexivity.
Qed.

(** X22. Who is resolved for a team audience.  When [getTargetUsers]
    returns for an event addressed to teams, the users it returns have
    pairwise distinct identifiers, and each of them is a stored subscriber
    document that is enabled, lists one of the event's teams in the legacy
    team list of some sport, and passed [shouldNotifyUser] for the event at
    some reading of the clock.  A subscriber without any legacy team list,
    for instance one who only set a favourite and rival teams, is never
    among them. *)
Theorem team_audience_members env event teams w users :
  teamAudience event teams ->
  fst (getTargetUsers env event w) = Ok users ->
  NoDup (map up_userId users)
  /\ Forall
       (fun u =>
          In u (userDocs env) /\ up_enabled u = true /\ followsAny u teams = true
          /\ exists k,
               shouldNotifyUser u (e_sport event) (e_type event) (Some teams)
                 (localTimeAt env k) = true)
       users
  /\ (forall u, (forall s, up_sports u s ≫= sp_teams = None) -> ~ In u users).
Proof.
  intros Haud Hres.
  rewrite (proj1 (getTargetUsers_teams env event teams w Haud) users Hres).
  set (all := flat_map (teamFollowers env) teams).
  set (kept := keptAt env _ _ _ _ _).
  assert (Hsub : kept `sublist_of` deduplicateUsers all) by apply keptAt_sublist.
  assert (Hmem : forall u, In u kept ->
            In u (userDocs env) /\ up_enabled u = true /\ followsAny u teams = true).
  { intros u Hu. apply In_teamFollowers. fold all.
    apply list_elem_of_In.
    eapply elem_of_sublist; [|apply dedupLoop_sublist].
    eapply elem_of_sublist; [|exact Hsub]. by apply list_elem_of_In. }
  split; [|split].
  - eapply sublist_NoDup; [|apply (fmap_sublist up_userId _ _ Hsub)].
    apply dedupLoop_NoDup.
  - pose proof (keptAt_pass env (w_tick w + length teams) (deduplicateUsers all)
                  (e_sport event) (e_type event) (Some teams)) as Hpass.
    fold kept in Hpass. rewrite List.Forall_forall in *.
    intros u Hu. destruct (Hmem u Hu) as (H1 & H2 & H3). auto.
  - intros u Hnone Hu. destruct (Hmem u Hu) as (_ & _ & Hf).
    rewrite (followsAny_needs_team_list u teams Hnone) in Hf. discriminate.
Qed.

Lemma team_audience_members_witness :
  teamAudience sampleStart ["LAL"; "BOS"]
  /\ fst (getTargetUsers (sampleEnv []) sampleStart emptyWorld) = Ok [lakersFan]
  /\ NoDup (map up_userId [lakersFan]).
Proof.
  assert (H1 : teamAudience sampleStart ["LAL"; "BOS"]).
  { split; [reflexivity|]. split; [by left|]. split; [reflexivity | discriminate]. }
  assert (H2 : fst (getTargetUsers (sampleEnv []) sampleStart emptyWorld)
               = Ok [lakersFan]).
  { vm_compute. reflexivity. }
  split; [exact H1|]. split; [exact H2|].
  exact (proj1 (team_audience_members (sampleEnv []) sampleStart ["LAL"; "BOS"]
                  emptyWorld [lakersFan] H1 H2)).
Defined.

Lemma In_deduplicateUsers (docs all : list UserPreferences) u :
  NoDup (map up_userId docs) ->
  (forall v, In v all -> In v docs) ->
  In u all -> In u (deduplicateUsers all).
Proof.
  intros Hnd Hdocs Hu. unfold deduplicateUsers.
  destruct (dedupLoop_covers all ∅ u Hu) as [Hseen | Hin]; [set_solver|].
  apply in_map_iff in Hin as (v & Hid & Hv).
  assert (Hv' : In v all).
  { apply list_elem_of_In. eapply elem_of_sublist; [|apply dedupLoop_sublist].
    apply list_elem_of_In. exact Hv. }
  rewrite <- (same_id_same_document docs v u Hnd (Hdocs v Hv') (Hdocs u Hu) Hid).
  exact Hv.
Qed.

(** X23. Nobody entitled is left out of a team audience.  When no remote
    call fails and the stored subscriber documents have pairwise distinct
    user identifiers, [getTargetUsers] returns, for an event addressed to
    teams, every stored subscriber who is enabled, lists one of the teams
    in a legacy team list, and passes [shouldNotifyUser] for the event
    whenever the clock is read. *)
Theorem team_audience_complete env event teams w u :
  noFaults env ->
  NoDup (map up_userId (userDocs env)) ->
  teamAudience event teams ->
  In u (userDocs env) -> up_enabled u = true -> followsAny u teams = true ->
  (forall k, shouldNotifyUser u (e_sport event) (e_type event) (Some teams)
               (localTimeAt env k) = true) ->
  exists users, fst (getTargetUsers env event w) = Ok users /\ In u users.
Proof.
  intros Hno Hnd Haud Hu Hen Hfol Hpass.
  eexists. split; [exact (proj2 (getTargetUsers_teams env event teams w Haud) Hno)|].
  apply keptAt_keeps; [|exact Hpass].
  apply (In_deduplicateUsers (userDocs env)); [exact Hnd | |].
  - intros v Hv. by apply In_teamFollowers in Hv as [Hv _].
  - apply In_teamFollowers. auto.
Qed.

Lemma team_audience_complete_witness :
  noFaults (sampleEnv [])
  /\ teamAudience sampleStart ["LAL"; "BOS"]
  /\ exists users,
       fst (getTargetUsers (sampleEnv []) sampleStart emptyWorld) = Ok users
       /\ In lakersFan users.
Proof.
  assert (H1 : teamAudience sampleStart ["LAL"; "BOS"]).
  { split; [reflexivity|]. split; [by left|]. split; [reflexivity | discriminate]. }
  assert (H2 : NoDup (map up_userId (userDocs (sampleEnv [])))).
  { apply (bool_decide_unpack _). vm_compute. reflexivity. }
  split; [exact noFaults_sampleEnv|]. split; [exact H1|].
  exact (team_audience_complete (sampleEnv []) sampleStart ["LAL"; "BOS"]
           emptyWorld lakersFan noFaults_sampleEnv H2 H1
           (or_introl eq_refl) eq_refl eq_refl (fun k => eq_refl)).
Defined.

(** * Audiences given by user identifier *)

Lemma getPreferences_result env userId w :
  faults env (w_tick w) = false ->
  getPreferences env userId w
  = (Ok (preferencesOf env userId),
     mkWorld (w_events w) (S (w_tick w)) (w_calls w ++ [CGetPreferences userId])).
Proof.
  intros Hok.
  unfold getPreferences, bind, record, modifyState, tryCatch, remote, ret.
  simpl. by rewrite Hok.
Qed.

Lemma collectPreferences_result env userIds :
  noFaults env ->
  forall users w,
    collectPreferences env userIds users w
    = (Ok (users ++ omap (preferencesOf env) userIds),
       mkWorld (w_events w) (w_tick w + length userIds)
         (w_calls w ++ map CGetPreferences userIds)).
Proof.
  intros Hno. induction userIds as [|userId rest IH]; intros users w.
  - simpl. unfold ret. rewrite !app_nil_r, Nat.add_0_r. by destruct w.
  - cbn [collectPreferences]. unfold bind.
    rewrite getPreferences_result by apply Hno. rewrite IH.
    cbn [w_events w_tick w_calls length map].
    change (omap (preferencesOf env) (userId :: rest))
      with (match preferencesOf env userId with
            | Some p => p :: omap (preferencesOf env) rest
            | None => omap (preferencesOf env) rest
            end).
    rewrite <- (app_assoc (w_calls w)). cbn [app].
    replace (S (w_tick w) + length rest)%nat with (w_tick w + S (length rest))%nat
      by lia.
    destruct (preferencesOf env userId); [by rewrite <- app_assoc | reflexivity].
Qed.

(** X24. An audience given by user identifiers bypasses the preference
    checks.  When no remote call fails, [getTargetUsers] returns, for an
    event that names users, the stored document of each named user that has
    one, in the order named and once per mention; identifiers without a
    document are dropped.  Neither the [enabled] switch nor
    [shouldNotifyUser] is consulted: a named user who switched
    notifications off is still returned.  One document is read per
    identifier and no team query is made. *)
Theorem named_users_bypass_preferences env event userIds w :
  noFaults env ->
  userAudience event userIds ->
  getTargetUsers env event w
  = (Ok (omap (preferencesOf env) userIds),
     mkWorld (w_events w) (w_tick w + length userIds)
       (w_calls w ++ CGetTargetUsers event :: map CGetPreferences userIds)).
Proof.
  intros Hno (Hall & Hids & Hne).
  unfold getTargetUsers. unfold bind at 1. unfold record, modifyState.
  cbn [fst snd]. rewrite Hall, Hids.
  destruct userIds as [|userId rest]; [contradiction|].
  unfold tryCatch. rewrite (collectPreferences_result env _ Hno).
  cbn [w_events w_tick w_calls app]. by rewrite <- app_assoc.
Qed.

Lemma named_users_bypass_preferences_witness :
  noFaults directEnv
  /\ userAudience sampleDirect ["u3"; "nobody"; "u1"]
  /\ up_enabled optedOut = false
  /\ fst (getTargetUsers directEnv sampleDirect emptyWorld)
     = Ok [optedOut; lakersFan].
Proof.
  assert (H1 : noFaults directEnv) by (intros n; reflexivity).
  assert (H2 : userAudience sampleDirect ["u3"; "nobody"; "u1"]).
  { split; [reflexivity|]. split; [reflexivity | discriminate]. }
  split; [exact H1|]. split; [exact H2|]. split; [reflexivity|].
  exact (f_equal fst
           (named_users_bypass_preferences directEnv sampleDirect
              ["u3"; "nobody"; "u1"] emptyWorld H1 H2)).
Defined.

(** * Delivery: every address accounted for, or the whole call fails *)

Lemma wellFormed_counts batch response :
  wellFormedReply batch response ->
  br_successCount response + br_failureCount response = Z.of_nat (length batch)
  /\ 0 <= br_successCount response /\ 0 <= br_failureCount response.
Proof.
  intros (Hlen & Hf & Hs). rewrite Hf, Hs, <- Hlen.
  rewrite <- (List.filter_length sr_success (br_responses response)). lia.
Qed.

Lemma repliesFrom_counts env t batches :
  (forall n b, wellFormedReply b (gatewayReply env n b)) ->
  sumZ (map (fun br => br_successCount (snd br)) (repliesFrom env t batches))
  + sumZ (map (fun br => br_failureCount (snd br)) (repliesFrom env t batches))
  = Z.of_nat (length (concat batches))
  /\ 0 <= sumZ (map (fun br => br_successCount (snd br)) (repliesFrom env t batches))
  /\ 0 <= sumZ (map (fun br => br_failureCount (snd br)) (repliesFrom env t batches)).
Proof.
  intros Hwf. revert t. induction batches as [|batch rest IH]; intros t.
  - simpl. lia.
  - cbn [repliesFrom map sumZ fold_right snd concat].
    fold (sumZ (map (fun br => br_successCount (snd br))
                  (repliesFrom env (S t) rest))).
    fold (sumZ (map (fun br => br_failureCount (snd br))
                  (repliesFrom env (S t) rest))).
    rewrite length_app.
    destruct (wellFormed_counts batch _ (Hwf t batch)) as (H1 & H2 & H3).
    destruct (IH (S t)) as (H4 & H5 & H6). lia.
Qed.

Lemma sendBatchNotifications_ok env fcmTokens payload options w :
  (forall n b, wellFormedReply b (gatewayReply env n b)) ->
  noFaults env ->
  sendBatchNotifications env fcmTokens payload options w
  = (Ok {|
       successCount :=
         sumZ (map (fun br => br_successCount (snd br))
                 (repliesFrom env (w_tick w) (makeBatches fcmTokens)));
       failureCount :=
         sumZ (map (fun br => br_failureCount (snd br))
                 (repliesFrom env (w_tick w) (makeBatches fcmTokens)));
       invalidTokens :=
         map Some (flat_map (fun br => reportedInvalid (fst br) (snd br))
                     (repliesFrom env (w_tick w) (makeBatches fcmTokens)))
     |},
     mkWorld (w_events w) (w_tick w + length (makeBatches fcmTokens))
       (w_calls w ++ map CSendEachForMulticast (makeBatches fcmTokens))).
Proof.
  intros Hwf Hno. unfold sendBatchNotifications, tryCatch.
  destruct fcmTokens as [|tok rest].
  - simpl. unfold ret. rewrite Nat.add_0_r, app_nil_r. by destruct w.
  - cbn [length Nat.eqb].
    rewrite (sendBatches_ok env _ Hwf 0 0 [] w (fun k _ => Hno _)).
    reflexivity.
Qed.

Lemma sendEventNotification_ok env event users w :
  (forall n b, wellFormedReply b (gatewayReply env n b)) ->
  noFaults env ->
  exists result,
    fst (sendEventNotification env event users w) = Ok result
    /\ sent_successCount result + sent_failureCount result
       = Z.of_nat (length users)
    /\ 0 <= sent_successCount result
    /\ 0 <= sent_failureCount result
    /\ w_calls (snd (sendEventNotification env event users w))
       = w_calls w ++ CSendEventNotification event users
           :: map CSendEachForMulticast (makeBatches (map up_fcmToken users))
    /\ concat (makeBatches (map up_fcmToken users)) = map up_fcmToken users
    /\ w_events (snd (sendEventNotification env event users w)) = w_events w.
Proof.
  intros Hwf Hno.
  unfold sendEventNotification. unfold bind at 1. unfold record, modifyState.
  cbn [fst snd]. unfold tryCatch.
  destruct users as [|user rest].
  - cbn [length Nat.eqb]. unfold ret. cbn [fst snd w_calls w_events].
    exists (mkSendResult 0 0). cbn. repeat split; try reflexivity; lia.
  - cbn [length Nat.eqb]. unfold bind.
    rewrite (sendBatchNotifications_ok env _ _ _ _ Hwf Hno).
    unfold ret. cbn [fst snd w_calls w_events w_tick successCount failureCount].
    set (tokens := map up_fcmToken (user :: rest)).
    destruct (repliesFrom_counts env (w_tick w) (makeBatches tokens) Hwf)
      as (Hsum & Hs & Hf).
    rewrite (proj1 (makeBatches_spec tokens)) in Hsum.
    eexists. split; [reflexivity|]. cbn [sent_successCount sent_failureCount].
    split; [rewrite Hsum; unfold tokens; by rewrite length_map|].
    split; [exact Hs|]. split; [exact Hf|].
    split; [by rewrite <- app_assoc|].
    split; [apply makeBatches_spec | reflexivity].
Qed.

(** X25. Every address is accounted for.  When no remote call fails and
    the gateway answers by its contract (one response per address, counters
    equal to the numbers of successful and failed responses),
    [sendEventNotification] returns counts that are non-negative and add up
    to the number of users; the addresses of the users are submitted in
    consecutive batches, in order, and nothing else is called; the store
    is not touched.  For an empty list of users nothing is submitted. *)
Theorem every_address_accounted_for env event users w :
  (forall n b, wellFormedReply b (gatewayReply env n b)) ->
  noFaults env ->
  exists result,
    fst (sendEventNotification env event users w) = Ok result
    /\ sent_successCount result + sent_failureCount result
       = Z.of_nat (length users)
    /\ 0 <= sent_successCount result
    /\ 0 <= sent_failureCount result
    /\ w_calls (snd (sendEventNotification env event users w))
       = w_calls w ++ CSendEventNotification event users
           :: map CSendEachForMulticast (makeBatches (map up_fcmToken users))
    /\ concat (makeBatches (map up_fcmToken users)) = map up_fcmToken users
    /\ w_events (snd (sendEventNotification env event users w)) = w_events w.
Proof. exact (sendEventNotification_ok env event users w). Qed.

Lemma sampleEnv_contract failing :
  forall n b, wellFormedReply b (gatewayReply (sampleEnv failing) n b).
Proof.
  intros n b. unfold wellFormedReply, sampleEnv, sampleReply. simpl.
  by rewrite length_map.
Qed.

Lemma every_address_accounted_for_witness :
  noFaults (sampleEnv [])
  /\ exists result,
       fst (sendEventNotification (sampleEnv []) sampleStart
              [lakersFan; nightSleeper] emptyWorld) = Ok result
       /\ sent_successCount result + sent_failureCount result = 2.
Proof.
  split; [exact noFaults_sampleEnv|].
  destruct (every_address_accounted_for (sampleEnv []) sampleStart
              [lakersFan; nightSleeper] emptyWorld (sampleEnv_contract [])
              noFaults_sampleEnv) as (result & Hres & Hsum & _).
  exists result. split; [exact Hres | exact Hsum].
Defined.

Lemma sendBatches_fault env batches :
  forall k totalSuccess totalFailure invalid w,
    (k < length batches)%nat ->
    (forall j, (j < k)%nat -> faults env (w_tick w + j) = false) ->
    faults env (w_tick w + k) = true ->
    sendBatches env batches totalSuccess totalFailure invalid w
    = (Throw,
       mkWorld (w_events w) (w_tick w + S k)
         (w_calls w ++ map CSendEachForMulticast (firstn (S k) batches))).
Proof.
  induction batches as [|batch rest IH];
    intros k totalSuccess totalFailure invalid w Hk Hbefore Hfault;
    [simpl in Hk; lia|].
  cbn [sendBatches]. unfold bind at 1. destruct k as [|k].
  - rewrite Nat.add_0_r in Hfault. rewrite sendEachForMulticast_fault by exact Hfault.
    cbn [firstn map]. do 2 f_equal. lia.
  - rewrite sendEachForMulticast_ok
      by (specialize (Hbefore 0%nat); rewrite Nat.add_0_r in Hbefore;
          apply Hbefore; lia).
    rewrite (IH k).
    + cbn [w_events w_tick w_calls firstn map]. f_equal. f_equal; [lia|].
      by rewrite <- app_assoc.
    + simpl in Hk. lia.
    + intros j Hj. cbn [w_tick].
      replace (S (w_tick w) + j)%nat with (w_tick w + S j)%nat by lia.
      apply Hbefore. lia.
    + cbn [w_tick].
      replace (S (w_tick w) + k)%nat with (w_tick w + S k)%nat by lia.
      exact Hfault.
Qed.

(** X26. A failing submission loses the whole call.  When the gateway
    call for batch number [k] throws after the earlier ones answered,
    [sendBatchNotifications] throws: the batches up to and including
    number [k] were submitted, the later ones never are, and the counts and
    invalid addresses gathered from the earlier batches are not
    returned. *)
Theorem gateway_failure_aborts_remaining_batches
    env fcmTokens payload options w k :
  (k < length (makeBatches fcmTokens))%nat ->
  (forall j, (j < k)%nat -> faults env (w_tick w + j) = false) ->
  faults env (w_tick w + k) = true ->
  sendBatchNotifications env fcmTokens payload options w
  = (Throw,
     mkWorld (w_events w) (w_tick w + S k)
       (w_calls w
        ++ map CSendEachForMulticast (firstn (S k) (makeBatches fcmTokens)))).
Proof.
  intros Hk Hbefore Hfault. unfold sendBatchNotifications, tryCatch.
  destruct fcmTokens as [|tok rest]; [simpl in Hk; lia|].
  cbn [length Nat.eqb].
  by rewrite (sendBatches_fault env _ k 0 0 [] w Hk Hbefore Hfault).
Qed.

Lemma gateway_failure_aborts_remaining_batches_witness :
  (1 < length (makeBatches (repeat "token" 501)))%nat
  /\ faults (sampleEnv [1%nat]) (w_tick emptyWorld + 1) = true
  /\ fst (sendBatchNotifications (sampleEnv [1%nat]) (repeat "token" 501)
            (mkPayload "Game Started" "BOS @ LAL is now live!" None None) None
            emptyWorld)
     = Throw.
Proof.
  assert (H1 : (1 < length (makeBatches (repeat "token" 501)))%nat).
  { vm_compute. lia. }
  assert (H2 : forall j, (j < 1)%nat ->
                 faults (sampleEnv [1%nat]) (w_tick emptyWorld + j) = false).
  { intros [|j] Hj; [reflexivity | lia]. }
  split; [exact H1|]. split; [reflexivity|].
  exact (f_equal fst
           (gateway_failure_aborts_remaining_batches (sampleEnv [1%nat])
              (repeat "token" 501)
              (mkPayload "Game Started" "BOS @ LAL is now live!" None None) None
              emptyWorld 1%nat H1 H2 eq_refl)).
Defined.

(** * A fresh event, end to end *)

Lemma dispatchesOf_multicast batches :
  dispatchesOf (map CSendEachForMulticast batches) = [].
Proof. by induction batches. Qed.

Lemma processEvents_single env event w :
  processEvents env [event] w
  = (Ok (totalNotificationsSent
           (snd (tryCatch (processOne env event) (ret tt) (mkFrame w 0)))),
     world (snd (tryCatch (processOne env event) (ret tt) (mkFrame w 0)))).
Proof. rewrite processEvents_loop, processLoop_cons. reflexivity. Qed.

(** X27. The whole path of a fresh event addressed to teams.  When no
    remote call fails, the gateway answers by its contract and the stored
    record of the event does not say notified, a run on that event resolves
    the audience after the lookup and the save (two interactions) and the
    team queries; if that audience is not empty, the event is dispatched
    exactly once, to exactly that audience, the returned count lies
    between 0 and the size of the audience, and the stored record becomes
    the saved event marked notified. *)
Theorem fresh_team_event_delivered_and_marked env event teams w :
  (forall n b, wellFormedReply b (gatewayReply env n b)) ->
  noFaults env ->
  teamAudience event teams ->
  storedNotified w (e_id event) = false ->
  teamRecipients env (w_tick w + 2 + length teams) event teams <> [] ->
  exists sent new now,
    fst (processEvents env [event] w) = Ok sent
    /\ 0 <= sent
       <= Z.of_nat (length (teamRecipients env (w_tick w + 2 + length teams)
                              event teams))
    /\ w_calls (snd (processEvents env [event] w)) = w_calls w ++ new
    /\ dispatchesOf new
       = [(event, teamRecipients env (w_tick w + 2 + length teams) event teams)]
    /\ w_events (snd (processEvents env [event] w))
       = <[e_id event :=
             notifiedCopy (mergeEvent (w_events w !! e_id event) event) now]>
           (w_events w).
Proof.
  intros Hwf Hno Haud Hnot Husers.
  rewrite processEvents_single, round_unfold.
  rewrite (getEvent_ok env (e_id event) w (Hno _)).
  unfold storedNotified in Hnot. rewrite Hnot.
  set (w1 := mkWorld (w_events w) (S (w_tick w)) (w_calls w ++ [CGetEvent (e_id event)])).
  rewrite (saveEvent_ok env event w1 (Hno _)).
  set (w2 := mkWorld _ _ _).
  pose proof (proj2 (getTargetUsers_teams env event teams w2 Haud) Hno) as Hres.
  destruct (getTargetUsers_silent env event w2) as [He3 (n3 & Hc3 & Hd3)].
  replace (w_tick w2 + length teams)%nat
    with (w_tick w + 2 + length teams)%nat in Hres by (cbn; lia).
  fold (teamRecipients env (w_tick w + 2 + length teams) event teams) in Hres.
  set (users := teamRecipients env (w_tick w + 2 + length teams) event teams) in *.
  destruct (getTargetUsers env event w2) as [r3 w3]. cbn [fst snd] in *. subst r3.
  destruct users as [|user rest] eqn:Hu; [contradiction|]. rewrite <- Hu in *.
  replace (length users =? 0)%nat with false by (by rewrite Hu).
  destruct (sendEventNotification_ok env event users w3 Hwf Hno)
    as (result & Hr4 & Hsum & Hs & Hf & Hc4 & _ & He4).
  destruct (sendEventNotification env event users w3) as [r4 w4].
  cbn [fst snd] in *. subst r4.
  destruct (markEventNotified_result env (e_id event) w4) as [Hc5 Hr5].
  assert (Hstored : w_events w4 !! e_id event
                    = Some (mergeEvent (w_events w !! e_id event) event)).
  { rewrite He4, He3. apply lookup_insert_eq. }
  destruct Hr5 as [(_ & _ & [Hnone | Hfault]) | (ev & Hev & _ & He5 & _)].
  { congruence. }
  { rewrite Hno in Hfault. discriminate. }
  rewrite Hstored in Hev. injection Hev as <-.
  exists (sent_successCount result),
    ([CGetEvent (e_id event); CSaveEvent event] ++ n3
     ++ CSendEventNotification event users
        :: map CSendEachForMulticast (makeBatches (map up_fcmToken users))
     ++ [CMarkEventNotified (e_id event)]),
    (timestampAt env (w_tick w4)).
  cbn [fst snd world totalNotificationsSent].
  split; [f_equal; lia|]. split; [lia|]. split; [|split].
  - rewrite Hc5, Hc4, Hc3. cbn [w2 w1 w_calls]. rewrite <- !app_assoc. reflexivity.
  - rewrite !dispatchesOf_app, Hd3.
    change (CSendEventNotification event users
              :: map CSendEachForMulticast (makeBatches (map up_fcmToken users))
              ++ [CMarkEventNotified (e_id event)])
      with ([CSendEventNotification event users]
              ++ map CSendEachForMulticast (makeBatches (map up_fcmToken users))
              ++ [CMarkEventNotified (e_id event)]).
    by rewrite !dispatchesOf_app, dispatchesOf_multicast.
  - rewrite He5, He4, He3. cbn [w2 w1 w_events]. apply insert_insert_eq.
Qed.

Lemma fresh_team_event_delivered_and_marked_witness :
  noFaults (sampleEnv [])
  /\ teamAudience sampleStart ["LAL"; "BOS"]
  /\ storedNotified emptyWorld (e_id sampleStart) = false
  /\ teamRecipients (sampleEnv []) (w_tick emptyWorld + 2 + 2) sampleStart
       ["LAL"; "BOS"] = [lakersFan]
  /\ exists sent new now,
       fst (processEvents (sampleEnv []) [sampleStart] emptyWorld) = Ok sent
       /\ 0 <= sent
          <= Z.of_nat (length (teamRecipients (sampleEnv [])
                                 (w_tick emptyWorld + 2 + length ["LAL"; "BOS"])
                                 sampleStart ["LAL"; "BOS"]))
       /\ w_calls (snd (processEvents (sampleEnv []) [sampleStart] emptyWorld))
          = w_calls emptyWorld ++ new
       /\ dispatchesOf new
          = [(sampleStart,
              teamRecipients (sampleEnv [])
                (w_tick emptyWorld + 2 + length ["LAL"; "BOS"]) sampleStart
                ["LAL"; "BOS"])]
       /\ w_events (snd (processEvents (sampleEnv []) [sampleStart] emptyWorld))
          = <[e_id sampleStart :=
                notifiedCopy
                  (mergeEvent (w_events emptyWorld !! e_id sampleStart) sampleStart)
                  now]>
              (w_events emptyWorld).
Proof.
  assert (H1 : teamAudience sampleStart ["LAL"; "BOS"]).
  { split; [reflexivity|]. split; [by left|]. split; [reflexivity | discriminate]. }
  assert (H2 : teamRecipients (sampleEnv []) (w_tick emptyWorld + 2 + 2) sampleStart
                 ["LAL"; "BOS"] = [lakersFan]).
  { vm_compute. reflexivity. }
  assert (H3 : teamRecipients (sampleEnv [])
                 (w_tick emptyWorld + 2 + length ["LAL"; "BOS"]) sampleStart
                 ["LAL"; "BOS"] <> []).
  { cbn [length]. rewrite H2. discriminate. }
  split; [exact noFaults_sampleEnv|]. split; [exact H1|].
  split; [reflexivity|]. split; [exact H2|].
  exact (fresh_team_event_delivered_and_marked (sampleEnv []) sampleStart
           ["LAL"; "BOS"] emptyWorld (sampleEnv_contract []) noFaults_sampleEnv
           H1 eq_refl H3).
Defined.

(** * What the score events say *)

(** X28. The payload of a score event agrees with the scores.  A blowout
    event names as leader the team that is strictly ahead, by the real
    margin, which is at least 20: the margin rules out the tie for which the
    comparison in the code would name the away team.  A close-game event
    carries a margin from 1 to 5 and the period of the snapshot, which is
    at least 4. *)
Theorem score_event_payloads_match_the_scores :
  (forall now oldGame newGame e,
      detectBlowout now oldGame newGame = Some e ->
      let margin := Z.abs (g_homeScore newGame - g_awayScore newGame) in
      20 <= margin
      /\ ((g_awayScore newGame < g_homeScore newGame
           /\ e_metadata e = Some (MetaBlowout margin (g_homeAbbr newGame))
           /\ e_message e
              = g_homeAbbr newGame +:+ " is dominating " +:+ g_awayAbbr newGame
                  +:+ " by " +:+ showNum margin +:+ " points")
          \/ (g_homeScore newGame < g_awayScore newGame
              /\ e_metadata e = Some (MetaBlowout margin (g_awayAbbr newGame))
              /\ e_message e
                 = g_awayAbbr newGame +:+ " is dominating " +:+ g_homeAbbr newGame
                     +:+ " by " +:+ showNum margin +:+ " points")))
  /\ (forall now oldGame newGame e,
        detectCloseGame now oldGame newGame = Some e ->
        exists period,
          g_period newGame = Some period /\ 4 <= period
          /\ 1 <= Z.abs (g_homeScore newGame - g_awayScore newGame) <= 5
          /\ e_metadata e
             = Some (MetaClose (Z.abs (g_homeScore newGame - g_awayScore newGame))
                       period)).
Proof.
  split.
  - intros now oldGame newGame e He margin.
    pose proof (detectBlowout_wide now oldGame newGame e He) as Hwide.
    unfold getPointDifferential in Hwide. fold margin in Hwide.
    split; [exact Hwide|].
    unfold detectBlowout in He.
    destruct (_ || _); [discriminate|].
    destruct (match option_map getPointDifferential oldGame with
              | Some d => _ | None => false end); [discriminate|].
    injection He as <-. cbn [e_metadata e_message].
    unfold getPointDifferential. fold margin.
    destruct (Z.gtb_spec (g_homeScore newGame) (g_awayScore newGame)) as [Hgt|Hle].
    + left. split; [lia|]. split; reflexivity.
    + right. split; [lia|]. split; reflexivity.
  - intros now oldGame newGame e He.
    pose proof (detectCloseGame_narrow now oldGame newGame e He) as Hnarrow.
    unfold getPointDifferential in Hnarrow.
    unfold detectCloseGame in He.
    destruct (_ || _); [discriminate|].
    unfold beforeFinalPeriod in He.
    destruct (g_period newGame) as [period|] eqn:Hper; [|discriminate].
    unfold truthyNum in He.
    destruct (Z.eqb_spec period 0) as [H0|H0]; [discriminate|].
    destruct (Z.ltb_spec period 4) as [Hlt|Hge]; [discriminate|]. simpl in He.
    destruct (match option_map getPointDifferential oldGame with
              | Some d => _ | None => false end); [discriminate|].
    injection He as <-. exists period. cbn [e_metadata default].
    unfold getPointDifferential. auto.
Qed.

(** X29. A fresh event nobody is to receive is recorded and left
    unmarked.  When no remote call fails, the stored record of an event
    addressed to teams does not say notified, and the audience resolves to
    nobody (no enabled follower of the teams, or every follower declined by
    [shouldNotifyUser], for instance during quiet hours), a run on that
    event returns 0, dispatches nothing, and stores the event without
    marking it: its stored flag is the event's own, so the next run given
    the same event resolves its audience again. *)
Theorem fresh_team_event_without_recipients_is_recorded_only
    env event teams w :
  noFaults env ->
  teamAudience event teams ->
  storedNotified w (e_id event) = false ->
  teamRecipients env (w_tick w + 2 + length teams) event teams = [] ->
  exists new,
    fst (processEvents env [event] w) = Ok 0
    /\ w_calls (snd (processEvents env [event] w)) = w_calls w ++ new
    /\ dispatchesOf new = []
    /\ w_events (snd (processEvents env [event] w))
       = <[e_id event := mergeEvent (w_events w !! e_id event) event]> (w_events w)
    /\ storedNotified (snd (processEvents env [event] w)) (e_id event)
       = e_notified event.
Proof.
  intros Hno Haud Hnot Husers.
  rewrite processEvents_single, round_unfold.
  rewrite (getEvent_ok env (e_id event) w (Hno _)).
  unfold storedNotified in Hnot. rewrite Hnot.
  set (w1 := mkWorld (w_events w) (S (w_tick w)) (w_calls w ++ [CGetEvent (e_id event)])).
  rewrite (saveEvent_ok env event w1 (Hno _)).
  set (w2 := mkWorld _ _ _).
  pose proof (proj2 (getTargetUsers_teams env event teams w2 Haud) Hno) as Hres.
  destruct (getTargetUsers_silent env event w2) as [He3 (n3 & Hc3 & Hd3)].
  replace (w_tick w2 + length teams)%nat
    with (w_tick w + 2 + length teams)%nat in Hres by (cbn; lia).
  fold (teamRecipients env (w_tick w + 2 + length teams) event teams) in Hres.
  rewrite Husers in Hres.
  destruct (getTargetUsers env event w2) as [r3 w3]. cbn [fst snd] in *. subst r3.
  cbn [length Nat.eqb fst snd world totalNotificationsSent].
  exists ([CGetEvent (e_id event); CSaveEvent event] ++ n3).
  split; [reflexivity|]. split; [|split; [|split]].
  - rewrite Hc3. cbn [w2 w1 w_calls]. by rewrite <- !app_assoc.
  - by rewrite dispatchesOf_app, Hd3.
  - rewrite He3. reflexivity.
  - unfold storedNotified. rewrite He3. cbn [w2 w1 w_events].
    by rewrite lookup_insert_eq.
Qed.

Lemma fresh_team_event_without_recipients_is_recorded_only_witness :
  noFaults quietEnv
  /\ teamAudience sampleBlowout ["LAL"; "BOS"]
  /\ storedNotified emptyWorld (e_id sampleBlowout) = false
  /\ teamRecipients quietEnv (w_tick emptyWorld + 2 + 2) sampleBlowout
       ["LAL"; "BOS"] = []
  /\ exists new,
       fst (processEvents quietEnv [sampleBlowout] emptyWorld) = Ok 0
       /\ dispatchesOf new = [].
Proof.
  assert (H0 : noFaults quietEnv) by (intros n; reflexivity).
  assert (H1 : teamAudience sampleBlowout ["LAL"; "BOS"]).
  { split; [reflexivity|]. split; [by left|]. split; [reflexivity | discriminate]. }
  split; [exact H0|]. split; [exact H1|]. split; [reflexivity|].
  split; [reflexivity|].
  destruct (fresh_team_event_without_recipients_is_recorded_only quietEnv
              sampleBlowout ["LAL"; "BOS"] emptyWorld H0 H1 eq_refl eq_refl)
    as (new & Hres & _ & Hd & _).
  exists new. split; [exact Hres | exact Hd].
Defined.

(** * Run after run *)

(** X30. No identifier is delivered twice across runs.  When no remote
    call fails, two runs of [processEvents] one after the other, on any two
    lists of events (the same list, overlapping lists, lists that repeat an
    identifier), dispatch every identifier at most once in total: what the
    first run dispatched it marked notified, and the second run skips it. *)
Theorem no_redelivery_across_runs env events1 events2 w :
  noFaults env ->
  exists new1 new2,
    w_calls (snd (processEvents env events1 w)) = w_calls w ++ new1
    /\ w_calls (snd (processEvents env events2 (snd (processEvents env events1 w))))
       = w_calls w ++ new1 ++ new2
    /\ NoDup (dispatchedIds (new1 ++ new2)).
Proof.
  intros Hno.
  destruct (processEvents_onceOnly env events1 w Hno)
    as (new1 & Hc1 & _ & Hnd1 & Hall1).
  destruct (processEvents_onceOnly env events2 (snd (processEvents env events1 w)) Hno)
    as (new2 & Hc2 & _ & Hnd2 & Hall2).
  exists new1, new2. split; [exact Hc1|].
  split; [by rewrite Hc2, Hc1, app_assoc|].
  rewrite dispatchedIds_app. apply NoDup_app. split; [exact Hnd1|].
  split; [|exact Hnd2].
  intros i Hi1 Hi2. apply list_elem_of_In in Hi1, Hi2.
  destruct (Hall1 i Hi1) as [_ Hyes]. destruct (Hall2 i Hi2) as [Hno' _].
  congruence.
Qed.

Lemma no_redelivery_across_runs_witness :
  noFaults (sampleEnv [])
  /\ exists new1 new2,
       w_calls (snd (processEvents (sampleEnv []) [sampleStart; sampleBlowout]
                       (snd (processEvents (sampleEnv []) [sampleStart] emptyWorld))))
       = w_calls emptyWorld ++ new1 ++ new2
       /\ NoDup (dispatchedIds (new1 ++ new2)).
Proof.
  split; [exact noFaults_sampleEnv|].
  destruct (no_redelivery_across_runs (sampleEnv []) [sampleStart]
              [sampleStart; sampleBlowout] emptyWorld noFaults_sampleEnv)
    as (new1 & new2 & _ & Hcalls & Hnd).
  exists new1, new2. split; [exact Hcalls | exact Hnd].
Defined.
